(** * Conversation analysis pipeline of the sales coach hook

    Shallow embedding of the pure core of [useSalesCoach]: the segment
    merger ([mergeSegments]), the per-fragment annotation handler
    ([analyzeTextWithGemini]), the speaker correction pass
    ([correctSpeakerIdentification]), the metrics aggregator
    ([calculateMetrics], [generateSentimentGraph]) and keyword extraction
    ([extractKeywords]); further the session lifecycle ([startRecording],
    the handler of transcript events, [stopRecording]), the speaker
    registry ([getSpeakerName]), question extraction
    ([extractAllQuestions]), the full analysis and the record it stores
    ([analyzeFullRecording], [saveToFirebase]), and, of the hook for
    uploaded files, the enrichment of the transcript
    ([analyzeSegmentsWithGemini]) and the conversion to WAV
    ([audioBufferToWav]).

    Modelling conventions.
    - A JavaScript [number] holding seconds is an exact rational [Q]; the
      only places where the source can leave the finite numbers (a division
      by a zero duration) are modelled with [jsnum].  Rounding error of the
      IEEE doubles is outside this part of the model; where a statement
      depends on it, the times of a split, the computation is embedded a
      second time in IEEE doubles (module [Double]).
    - Array indices read from JSON are [Z]; an index that is negative or
      past the end reads [undefined], as in the source.
    - A string is a [string] of 8-bit character codes (the Latin-1 range of
      the UTF-16 code units).
    - [undefined] in an optional field is [None].
    - [try]/[catch] is the error monad [res]; a RangeError of a
      [DataView] is a [Throw].
    - A byte of an [ArrayBuffer] is a [Z] between 0 and 255. *)

From Stdlib Require Import QArith Qabs Qround Qminmax ZArith List String Ascii Bool.
From Stdlib Require Import Lia Lqa DecimalString Permutation Sorted.
From Stdlib Require Import PrimFloat SpecFloat FloatOps.
Import ListNotations.

Open Scope string_scope.
Open Scope list_scope.
Open Scope Q_scope.

(* ------------------------------------------------------------------ *)
(** ** Numbers *)

(** [x < y] on JavaScript numbers, as a boolean. *)
Definition Qltb (x y : Q) : bool := negb (Qle_bool y x).

(** [Math.round]: the nearest integer, halves rounded up. *)
Definition Math_round (x : Q) : Z := Qfloor (x + (1 # 2)).

(** [Math.floor]. *)
Definition Math_floor (x : Q) : Z := Qfloor x.

(** The result of a division whose divisor may be zero. *)
Inductive jsnum : Type :=
| Num (q : Q)
| PosInf
| NaN.

(** [n / d] for a non-negative integer [n]. *)
Definition js_div (n : nat) (d : Q) : jsnum :=
  if Qeq_bool d 0 then
    match n with
    | O => NaN
    | S _ => PosInf
    end
  else Num (inject_Z (Z.of_nat n) / d).

(** [x * c] for a finite positive constant [c]. *)
Definition js_scale (x : jsnum) (c : Q) : jsnum :=
  match x with
  | Num q => Num (q * c)
  | PosInf => PosInf
  | NaN => NaN
  end.

(* ------------------------------------------------------------------ *)
(** ** Exceptions *)

Inductive res (A : Type) : Type :=
| Ok (a : A)
| Throw.
Arguments Ok {A} a.
Arguments Throw {A}.

Definition bind {A B : Type} (m : res A) (k : A -> res B) : res B :=
  match m with
  | Ok a => k a
  | Throw => Throw
  end.

(** [try { m } catch { h }]. *)
Definition try_catch {A : Type} (m : res A) (h : res A) : res A :=
  match m with
  | Ok a => Ok a
  | Throw => h
  end.

Notation "x <- m ;; k" := (bind m (fun x => k))
  (at level 61, m at next level, right associativity).

(* ------------------------------------------------------------------ *)
(** ** Data model *)

(** [interface LiveSegment]: one annotation result. *)
Record LiveSegment : Type := mkLive {
  ls_text : string;
  ls_emotion : option string;
  ls_sentiment : option string;
  ls_timestamp : Q
}.

(** [interface AzureSpeakerSegment]: one transcript event. *)
Record AzureSpeakerSegment : Type := mkAzure {
  az_speakerId : string;
  az_text : string;
  az_start : Q;
  az_end : Q
}.

(** [interface CombinedSegment]. *)
Record CombinedSegment : Type := mkSeg {
  speaker : string;
  text : string;
  emotion : option string;
  sentiment : option string;
  start : Q;
  end_ : Q
}.

(** A string-valued field in a boolean position: [undefined] and the
    empty string are falsy. *)
Definition truthy (o : option string) : bool :=
  match o with
  | Some s => negb (s =? "")%string
  | None => false
  end.

(* ------------------------------------------------------------------ *)
(** ** Segment merger *)

(** The predicate handed to [find]:
    [Math.abs(geminiSeg.timestamp - azureSegment.start) < 2]. *)
Definition within_tolerance (azureSegment : AzureSpeakerSegment)
    (geminiSeg : LiveSegment) : bool :=
  Qltb (Qabs (ls_timestamp geminiSeg - az_start azureSegment)) 2.

(** [geminiSegmentsRef.current.find(...)]. *)
Definition matchingGemini (geminiSegments : list LiveSegment)
    (azureSegment : AzureSpeakerSegment) : option LiveSegment :=
  find (within_tolerance azureSegment) geminiSegments.

(** [matchingGemini?.emotion] and [matchingGemini?.sentiment]. *)
Definition opt_field (f : LiveSegment -> option string)
    (m : option LiveSegment) : option string :=
  match m with
  | Some g => f g
  | None => None
  end.

(** The object pushed for one transcript event. *)
Definition merge_one (geminiSegments : list LiveSegment)
    (azureSegment : AzureSpeakerSegment) : CombinedSegment :=
  let m := matchingGemini geminiSegments azureSegment in
  {| speaker := az_speakerId azureSegment;
     text := az_text azureSegment;
     emotion := opt_field ls_emotion m;
     sentiment := opt_field ls_sentiment m;
     start := az_start azureSegment;
     end_ := az_end azureSegment |}.

(** The [combined] array built by [mergeSegments]. *)
Definition mergeSegments (azureSegments : list AzureSpeakerSegment)
    (geminiSegments : list LiveSegment) : list CombinedSegment :=
  map (merge_one geminiSegments) azureSegments.

(** [Array.prototype.join]. *)
Fixpoint join (sep : string) (l : list string) : string :=
  match l with
  | [] => ""
  | [x] => x
  | x :: rest => (x ++ sep ++ join sep rest)%string
  end.

(** One line of the live transcript view. *)
Definition display_line (seg : CombinedSegment) : string :=
  ("[" ++ speaker seg ++ "] " ++ text seg ++ " " ++
   match emotion seg with
   | Some e => if e =? "" then "" else "(" ++ e ++ ")"
   | None => ""
   end)%string.

Definition newline : string := String (ascii_of_nat 10) "".

Definition displayText (combined : list CombinedSegment) : string :=
  join newline (map display_line combined).

(* ------------------------------------------------------------------ *)
(** ** Characters and strings *)

Definition code (c : ascii) : nat := nat_of_ascii c.

(** The class [\s] on the modelled character range. *)
Definition is_space (c : ascii) : bool :=
  let n := code c in
  ((9 <=? n) && (n <=? 13) || (n =? 32) || (n =? 160))%nat.

Definition is_digit (c : ascii) : bool :=
  let n := code c in ((48 <=? n) && (n <=? 57))%nat.

Definition is_upper (c : ascii) : bool :=
  let n := code c in ((65 <=? n) && (n <=? 90))%nat.

Definition is_lower (c : ascii) : bool :=
  let n := code c in ((97 <=? n) && (n <=? 122))%nat.

(** The class [\w]: letters, digits and the underscore. *)
Definition is_word (c : ascii) : bool :=
  is_upper c || is_lower c || is_digit c || (code c =? 95)%nat.

(** Upper-case letters of the modelled range: A-Z and the accented
    capitals 192-222 except the multiplication sign 215. *)
Definition has_lower (c : ascii) : bool :=
  let n := code c in
  (is_upper c || ((192 <=? n) && (n <=? 222) && negb (n =? 215)))%nat.

Definition lower_char (c : ascii) : ascii :=
  if has_lower c then ascii_of_nat (code c + 32) else c.

(** [String.prototype.toLowerCase]. *)
Fixpoint toLowerCase (s : string) : string :=
  match s with
  | EmptyString => EmptyString
  | String c rest => String (lower_char c) (toLowerCase rest)
  end.

Fixpoint drop_spaces (s : string) : string :=
  match s with
  | EmptyString => EmptyString
  | String c rest => if is_space c then drop_spaces rest else s
  end.

Fixpoint rev_string (s : string) (acc : string) : string :=
  match s with
  | EmptyString => acc
  | String c rest => rev_string rest (String c acc)
  end.

(** [String.prototype.trim]. *)
Definition trim (s : string) : string :=
  rev_string (drop_spaces (rev_string (drop_spaces s) "")) "".

(** [s.split(/\s+/)]: the pieces between the maximal runs of white space;
    a run at either end of [s] leaves an empty piece there. *)
Fixpoint split_ws (s : string) : list string :=
  match s with
  | EmptyString => [EmptyString]
  | String c rest =>
      if is_space c then
        match rest with
        | EmptyString => [EmptyString; EmptyString]
        | String c' _ =>
            if is_space c' then split_ws rest
            else EmptyString :: split_ws rest
        end
      else
        match split_ws rest with
        | tok :: toks => String c tok :: toks
        | [] => [String c EmptyString]
        end
  end.

(** [s.startsWith(p)]. *)
Fixpoint startsWith (s p : string) : bool :=
  match p, s with
  | EmptyString, _ => true
  | String _ _, EmptyString => false
  | String a p', String b s' => Ascii.eqb a b && startsWith s' p'
  end.

(** [s.includes(p)]. *)
Fixpoint includes (s p : string) : bool :=
  startsWith s p ||
  match s with
  | EmptyString => false
  | String _ rest => includes rest p
  end.

(* ------------------------------------------------------------------ *)
(** ** Per-fragment annotation *)

(** The fields read from a parsed annotation. *)
Record Annotation : Type := mkAnnotation {
  an_emotion : option string;
  an_sentiment : option string;
  an_feedback : option string
}.

(** What [model.generateContent] does: it rejects, or resolves with the
    text of the response. *)
Inductive gemini_reply : Type :=
| ApiError
| Reply (responseText : string).

(** The refs and React state touched by the live pipeline. *)
Record session : Type := mkSession {
  geminiModel : bool;
  geminiSegments : list LiveSegment;
  azureSegments : list AzureSpeakerSegment;
  combinedTranscript : list CombinedSegment;
  transcript : string;
  realtimeFeedback : list string
}.

(** [mergeSegments()] as a state update: it rebuilds the combined
    transcript and the displayed text from the two buffers. *)
Definition run_merge (s : session) : session :=
  let combined := mergeSegments (azureSegments s) (geminiSegments s) in
  {| geminiModel := geminiModel s;
     geminiSegments := geminiSegments s;
     azureSegments := azureSegments s;
     combinedTranscript := combined;
     transcript := displayText combined;
     realtimeFeedback := realtimeFeedback s |}.

Definition push_gemini (g : LiveSegment) (s : session) : session :=
  {| geminiModel := geminiModel s;
     geminiSegments := geminiSegments s ++ [g];
     azureSegments := azureSegments s;
     combinedTranscript := combinedTranscript s;
     transcript := transcript s;
     realtimeFeedback := realtimeFeedback s |}.

Definition push_azure (a : AzureSpeakerSegment) (s : session) : session :=
  {| geminiModel := geminiModel s;
     geminiSegments := geminiSegments s;
     azureSegments := azureSegments s ++ [a];
     combinedTranscript := combinedTranscript s;
     transcript := transcript s;
     realtimeFeedback := realtimeFeedback s |}.

(** [setRealtimeFeedback(prev => [fb, ...prev].slice(0, 5))]. *)
Definition push_feedback (fb : string) (s : session) : session :=
  {| geminiModel := geminiModel s;
     geminiSegments := geminiSegments s;
     azureSegments := azureSegments s;
     combinedTranscript := combinedTranscript s;
     transcript := transcript s;
     realtimeFeedback := firstn 5 (fb :: realtimeFeedback s) |}.

Section Annotate.

(** The two [replace] calls that drop the code fences, followed by
    [trim]. *)
Variable strip_fences : string -> string.

(** [JSON.parse] followed by the reads of [emotion], [sentiment] and
    [feedback]; [Throw] when the text is not JSON or has no
    properties to read. *)
Variable JSON_parse : string -> res Annotation.

(** The inner [try] block. *)
Definition annotate_parsed (s : session) (fragment : string) (timestamp : Q)
    (analysisText : string) : res session :=
  parsed <- JSON_parse analysisText ;;
  let s1 := push_gemini
              {| ls_text := fragment;
                 ls_emotion := an_emotion parsed;
                 ls_sentiment := an_sentiment parsed;
                 ls_timestamp := timestamp |} s in
  let s2 := if truthy (an_feedback parsed)
            then match an_feedback parsed with
                 | Some fb => push_feedback fb s1
                 | None => s1
                 end
            else s1 in
  Ok (run_merge s2).

(** The inner [catch] block. *)
Definition annotate_fallback (s : session) (fragment : string)
    (timestamp : Q) : res session :=
  Ok (run_merge
        (push_gemini
           {| ls_text := fragment;
              ls_emotion := None;
              ls_sentiment := None;
              ls_timestamp := timestamp |} s)).

(** [analyzeTextWithGemini(text, timestamp)], given what the model call
    does. *)
Definition analyzeTextWithGemini (s : session) (fragment : string)
    (timestamp : Q) (reply : gemini_reply) : res session :=
  if negb (geminiModel s) || (fragment =? "")%string
     || (String.length (trim fragment) <? 5)%nat
  then Ok s
  else
    try_catch
      (match reply with
       | ApiError => Throw
       | Reply responseText =>
           let analysisText := strip_fences responseText in
           try_catch (annotate_parsed s fragment timestamp analysisText)
                     (annotate_fallback s fragment timestamp)
       end)
      (Ok s).

End Annotate.

(** The [transcribed] handler with the recognised event already built:
    the event is buffered, its annotation is requested (it lands later,
    through [analyzeTextWithGemini]) and the merge runs. *)
Definition on_transcribed (a : AzureSpeakerSegment) (s : session) : session :=
  run_merge (push_azure a s).

(* ------------------------------------------------------------------ *)
(** ** Arrays *)

(** [arr[i]] for an index read from JSON. *)
Definition get {A : Type} (arr : list A) (i : Z) : option A :=
  if (i <? 0)%Z then None else nth_error arr (Z.to_nat i).

Fixpoint mapi_from {A B : Type} (f : nat -> A -> B) (i : nat) (l : list A)
    : list B :=
  match l with
  | [] => []
  | x :: rest => f i x :: mapi_from f (S i) rest
  end.

(** [arr.map((x, i) => f(i, x))]. *)
Definition mapi {A B : Type} (f : nat -> A -> B) (l : list A) : list B :=
  mapi_from f 0 l.

(** [arr.splice(i, 1, ...items)] for an index inside the array. *)
Definition splice1 {A : Type} (arr : list A) (i : nat) (items : list A)
    : list A :=
  firstn i arr ++ items ++ skipn (S i) arr.

Section Sort.
Context {A : Type}.
(** The comparator: a positive result puts its second argument first;
    zero keeps the order of arrival. *)
Variable cmp : A -> A -> Z.

Fixpoint sort_insert (x : A) (l : list A) : list A :=
  match l with
  | [] => [x]
  | y :: rest =>
      if (0 <? cmp x y)%Z then y :: sort_insert x rest else x :: l
  end.

(** [Array.prototype.sort(cmp)], which is stable. *)
Fixpoint js_sort (l : list A) : list A :=
  match l with
  | [] => []
  | x :: rest => sort_insert x (js_sort rest)
  end.
End Sort.

(* ------------------------------------------------------------------ *)
(** ** Speaker correction pass *)

Record SplitPart : Type := mkPart {
  sp_speaker : string;
  sp_text : string
}.

Record Split : Type := mkSplit {
  originalIndex : Z;
  segments : list SplitPart
}.

Record Correction : Type := mkCorrection {
  index : Z;
  correctedSpeaker : string
}.

(** The parsed response; either array may be missing. *)
Record Response : Type := mkResponse {
  corrections : option (list Correction);
  splits : option (list Split)
}.

(** One element of [newSegments], with exact times; [Double.split_part]
    below has the rounded ones. *)
Definition split_part (originalSeg : CombinedSegment) (timePerSegment : Q)
    (i : nat) (seg : SplitPart) : CombinedSegment :=
  {| speaker := sp_speaker seg;
     text := sp_text seg;
     emotion := emotion originalSeg;
     sentiment := sentiment originalSeg;
     start := start originalSeg + inject_Z (Z.of_nat i) * timePerSegment;
     end_ := start originalSeg
             + (inject_Z (Z.of_nat i) + 1) * timePerSegment |}.

(** [newSegments]; with no parts the array is empty and the quotient is
    never used.  The quotient is exact here; [Double.newSegments] below
    has the rounded one. *)
Definition newSegments (originalSeg : CombinedSegment)
    (parts : list SplitPart) : list CombinedSegment :=
  let duration := end_ originalSeg - start originalSeg in
  let timePerSegment := duration / inject_Z (Z.of_nat (List.length parts)) in
  mapi (split_part originalSeg timePerSegment) parts.

(** The body of the [forEach] over the sorted splits; reading a field of
    an [undefined] segment throws. *)
Definition apply_split (correctedSegments : list CombinedSegment)
    (split : Split) : res (list CombinedSegment) :=
  match get correctedSegments (originalIndex split) with
  | None => Throw
  | Some originalSeg =>
      Ok (splice1 correctedSegments (Z.to_nat (originalIndex split))
            (newSegments originalSeg (segments split)))
  end.

Fixpoint apply_each (sorted : list Split)
    (correctedSegments : list CombinedSegment)
    : res (list CombinedSegment) :=
  match sorted with
  | [] => Ok correctedSegments
  | split :: rest =>
      next <- apply_split correctedSegments split ;;
      apply_each rest next
  end.

(** [(a, b) => b.originalIndex - a.originalIndex]. *)
Definition by_index_desc (a b : Split) : Z :=
  (originalIndex b - originalIndex a)%Z.

Definition apply_splits (sps : list Split)
    (correctedSegments : list CombinedSegment)
    : res (list CombinedSegment) :=
  apply_each (js_sort by_index_desc sps) correctedSegments.

Definition with_speaker (seg : CombinedSegment) (s : string)
    : CombinedSegment :=
  {| speaker := s;
     text := text seg;
     emotion := emotion seg;
     sentiment := sentiment seg;
     start := start seg;
     end_ := end_ seg |}.

(** The callback of the [map] that applies the corrections. *)
Definition correct_one (cs : list Correction) (idx : nat)
    (seg : CombinedSegment) : CombinedSegment :=
  match find (fun c => (index c =? Z.of_nat idx)%Z) cs with
  | Some correction => with_speaker seg (correctedSpeaker correction)
  | None => seg
  end.

Definition apply_corrections (cs : list Correction)
    (correctedSegments : list CombinedSegment) : list CombinedSegment :=
  mapi (correct_one cs) correctedSegments.

Definition is_role (s : string) : bool :=
  ((s =? "Salesperson") || (s =? "Customer"))%string.

Definition isLikelySalesperson (t : string) : bool :=
  let l := toLowerCase t in
  includes l "can i" || includes l "let me" || includes l "our product"
  || includes l "we offer" || includes l "would you"
  || includes l "tell me about".

Fixpoint lookup (m : list (string * string)) (k : string) : option string :=
  match m with
  | [] => None
  | (k', v) :: rest => if (k' =? k)%string then Some v else lookup rest k
  end.

(** The [forEach] that fills [speakerMapping]. *)
Fixpoint build_mapping (segs : list CombinedSegment)
    (speakerMapping : list (string * string)) : list (string * string) :=
  match segs with
  | [] => speakerMapping
  | seg :: rest =>
      if is_role (speaker seg) then build_mapping rest speakerMapping
      else
        match lookup speakerMapping (speaker seg) with
        | Some _ => build_mapping rest speakerMapping
        | None =>
            build_mapping rest
              (speakerMapping ++
               [(speaker seg,
                 if isLikelySalesperson (text seg)
                 then "Salesperson" else "Customer")])
        end
  end.

(** The callback of the final [map]. *)
Definition map_role (speakerMapping : list (string * string))
    (seg : CombinedSegment) : CombinedSegment :=
  if is_role (speaker seg) then seg
  else
    with_speaker seg
      match lookup speakerMapping (speaker seg) with
      | Some v => if (v =? "")%string then speaker seg else v
      | None => speaker seg
      end.

Definition residual_roles (segs : list CombinedSegment)
    : list CombinedSegment :=
  map (map_role (build_mapping segs [])) segs.

(** The inner [try] block after [JSON.parse]. *)
Definition apply_response (segs : list CombinedSegment)
    (response : Response) : res (list CombinedSegment) :=
  afterSplits <-
    match splits response with
    | Some (sp :: sps) => apply_splits (sp :: sps) segs
    | _ => Ok segs
    end ;;
  let afterCorrections :=
    match corrections response with
    | Some (c :: cs) => apply_corrections (c :: cs) afterSplits
    | _ => afterSplits
    end in
  Ok (residual_roles afterCorrections).

Section Correct.

Variable strip_fences : string -> string.

(** [JSON.parse] of the correction response. *)
Variable parse_response : string -> res Response.

(** [correctSpeakerIdentification(segments)], given what the model call
    does. *)
Definition correctSpeakerIdentification (segs : list CombinedSegment)
    (reply : gemini_reply) : res (list CombinedSegment) :=
  match segs with
  | [] => Ok segs
  | _ :: _ =>
      try_catch
        (match reply with
         | ApiError => Throw
         | Reply responseText =>
             try_catch
               (response <- parse_response (strip_fences responseText) ;;
                apply_response segs response)
               (Ok segs)
         end)
        (Ok segs)
  end.

End Correct.

(* ------------------------------------------------------------------ *)
(** ** Metrics aggregator *)

(** [text.split(/\s+/).filter(word => word.length > 0).length]. *)
Definition count_words (t : string) : nat :=
  List.length (filter (fun word => (0 <? String.length word)%nat) (split_ws t)).

Definition totalWords (segs : list CombinedSegment) : nat :=
  fold_left (fun acc seg => (acc + count_words (text seg))%nat) segs 0%nat.

(** The end of the last segment, or 60 for an empty transcript. *)
Definition totalDuration (segs : list CombinedSegment) : Q :=
  match rev segs with
  | [] => 60
  | lastSeg :: _ => end_ lastSeg
  end.

Definition wordsPerMinute (segs : list CombinedSegment) : jsnum :=
  js_scale (js_div (totalWords segs) (totalDuration segs)) 60.

Definition minWpm : Q := 80.
Definition maxWpm : Q := 200.

(** [Math.min(1, Math.max(0, (wpm - minWpm) / (maxWpm - minWpm)))]. *)
Definition normalized (wpm : Q) : Q :=
  Qmin 1 (Qmax 0 ((wpm - minWpm) / (maxWpm - minWpm))).

(** The value left in [engagement]: 50 unless [wordsPerMinute > 0]. *)
Definition engagement_of (wpm : jsnum) : Z :=
  match wpm with
  | Num q => if Qltb 0 q then Math_round (20 + normalized q * 75) else 50%Z
  | PosInf => Math_round (20 + 1 * 75)
  | NaN => 50%Z
  end.

Definition engagement (segs : list CombinedSegment) : Z :=
  engagement_of (wordsPerMinute segs).

(** [wordsPerMinute > 0] and [wordsPerMinute === 0]. *)
Definition wpm_positive (wpm : jsnum) : Prop :=
  match wpm with
  | Num q => 0 < q
  | PosInf => True
  | NaN => False
  end.

Definition wpm_zero (wpm : jsnum) : Prop :=
  match wpm with
  | Num q => q == 0
  | _ => False
  end.

(** The score of a sentiment label in [generateSentimentGraph]. *)
Definition score (label : option string) : Z :=
  match label with
  | Some "positive" => 80
  | Some "neutral" => 60
  | _ => 40
  end%Z.

Definition Z_to_string (z : Z) : string :=
  NilZero.string_of_int (Z.to_int z).

(** [s.padStart(2, '0')]. *)
Definition padStart2 (s : string) : string :=
  match s with
  | EmptyString => "00"
  | String c EmptyString => String "0" s
  | _ => s
  end.

(** The integer part of a number, rounded towards zero. *)
Definition truncate (x : Q) : Z :=
  if Qle_bool 0 x then Qfloor x else Qceiling x.

(** [seconds % 60]: the remainder has the sign of [seconds]. *)
Definition rem60 (seconds : Q) : Q :=
  seconds - 60 * inject_Z (truncate (seconds / 60)).

Definition formatTime (seconds : Q) : string :=
  let mins := Math_floor (seconds / 60) in
  let secs := Math_floor (rem60 seconds) in
  (Z_to_string mins ++ ":" ++ padStart2 (Z_to_string secs))%string.

Record Point : Type := mkPoint {
  time : string;
  value : Z
}.

Definition anchor : Point := {| time := "0:00"; value := 50 |}.

(** The variables of the loop in [generateSentimentGraph]. *)
Record graph_state : Type := mkGraph {
  points : list Point;
  cumulativeSentiment : Z;
  segmentCount : Z
}.

Definition graph_init : graph_state :=
  {| points := [anchor]; cumulativeSentiment := 0; segmentCount := 0 |}.

(** [Math.round(cumulativeSentiment / segmentCount)]. *)
Definition currentAvg (cum cnt : Z) : Z :=
  Math_round (inject_Z cum / inject_Z cnt).

(** The inner test, reached when the index is even or only the anchor
    has been emitted. *)
Definition emits (pts : list Point) (avg : Z) : bool :=
  (List.length pts =? 1)%nat
  || (10 <? Z.abs (avg - value (last pts anchor)))%Z.

(** One iteration of the loop, at index [i]. *)
Definition graph_step (i : nat) (seg : CombinedSegment) (st : graph_state)
    : graph_state :=
  if truthy (sentiment seg) then
    let cum := (cumulativeSentiment st + score (sentiment seg))%Z in
    let cnt := (segmentCount st + 1)%Z in
    let pts :=
      if (i mod 2 =? 0)%nat || (List.length (points st) =? 1)%nat then
        if emits (points st) (currentAvg cum cnt)
        then points st ++
             [{| time := formatTime (start seg);
                 value := currentAvg cum cnt |}]
        else points st
      else points st in
    {| points := pts; cumulativeSentiment := cum; segmentCount := cnt |}
  else st.

Fixpoint graph_loop (i : nat) (segs : list CombinedSegment)
    (st : graph_state) : graph_state :=
  match segs with
  | [] => st
  | seg :: rest => graph_loop (S i) rest (graph_step i seg st)
  end.

(** [generateSentimentGraph] of the current hook. *)
Definition generateSentimentGraph (segs : list CombinedSegment)
    : list Point :=
  points (graph_loop 0 segs graph_init).

(** The point pushed by the earlier sampler. *)
Definition legacy_point (seg : CombinedSegment) : Point :=
  {| time := formatTime (start seg); value := score (sentiment seg) |}.

(** [generateSentimentGraph] of the earlier hook
    ([src/hooks/useSalesCoach.tsx]): one point for every third segment,
    starting with the first, and nothing else. *)
Fixpoint generateSentimentGraph_legacy (segs : list CombinedSegment)
    : list Point :=
  match segs with
  | [] => []
  | seg :: rest =>
      legacy_point seg ::
      match rest with
      | _ :: _ :: rest' => generateSentimentGraph_legacy rest'
      | _ => []
      end
  end.

(* ------------------------------------------------------------------ *)
(** ** Keyword extraction *)

Definition stopWords : list string :=
  [ "the"; "a"; "an"; "and"; "or"; "but"; "in"; "on"; "at"; "to"; "for";
    "of"; "with"; "is"; "are"; "was"; "were"; "be"; "been"; "being";
    "have"; "has"; "had"; "do"; "does"; "did"; "will"; "would"; "could";
    "should"; "may"; "might"; "must"; "can"; "i"; "you"; "he"; "she";
    "it"; "we"; "they"; "them"; "their"; "this"; "that"; "these"; "those";
    "am"; "yes"; "no"; "not"; "so"; "if"; "than"; "as"; "my"; "your";
    "our"; "me"; "him"; "her"; "us"; "what"; "when"; "where"; "who";
    "why"; "how"; "all"; "each"; "every"; "both"; "few"; "more"; "most";
    "some"; "such"; "any"; "very"; "just"; "about"; "up"; "out"; "down";
    "there"; "here"; "now"; "then"; "well"; "also"; "too"; "only"; "even";
    "want"; "need"; "think"; "know"; "get"; "got"; "going"; "go"; "like";
    "really"; "yeah"; "okay"; "ok"; "um"; "uh"; "right" ].

(** [stopWords.has(word)]. *)
Definition is_stop_word (word : string) : bool :=
  existsb (String.eqb word) stopWords.

Fixpoint all_digits (s : string) : bool :=
  match s with
  | EmptyString => true
  | String c rest => is_digit c && all_digits rest
  end.

(** [/^\d+$/.test(word)]. *)
Definition is_numeric (word : string) : bool :=
  negb (word =? "")%string && all_digits word.

(** [.replace(/[^\w\s]/g, ' ')]. *)
Fixpoint strip_punctuation (s : string) : string :=
  match s with
  | EmptyString => EmptyString
  | String c rest =>
      String (if is_word c || is_space c then c else " "%char)
             (strip_punctuation rest)
  end.

(** The pieces of the lower-cased, punctuation-stripped transcript. *)
Definition tokens (segs : list CombinedSegment) : list string :=
  split_ws (strip_punctuation (toLowerCase (join " " (map text segs)))).

(** The callback of the [filter] over the pieces. *)
Definition keep_word (word : string) : bool :=
  (2 <=? String.length word)%nat
  && negb (is_stop_word word)
  && negb (is_numeric word).

Definition words (segs : list CombinedSegment) : list string :=
  filter keep_word (tokens segs).

(** A value held by the [keywords] object: a count, or the string that
    [(keywords[word] || 0) + 1] yields when [keywords[word]] reads a
    member inherited from [Object.prototype]. *)
Inductive kwval : Type :=
| Count (n : nat)
| Text.

(** The own properties of [keywords], in insertion order. *)
Definition kwtable : Type := list (string * kwval).

Fixpoint own (keywords : kwtable) (word : string) : option kwval :=
  match keywords with
  | [] => None
  | (k, v) :: rest => if (k =? word)%string then Some v else own rest word
  end.

Fixpoint set_own (keywords : kwtable) (word : string) (v : kwval)
    : kwtable :=
  match keywords with
  | [] => [(word, v)]
  | (k, v') :: rest =>
      if (k =? word)%string then (k, v) :: rest
      else (k, v') :: set_own rest word v
  end.

(** [keywords[word] = (keywords[word] || 0) + 1].  An object literal
    inherits [constructor] and the accessor [__proto__]: reading either
    gives an object, the sum is then a string, and the accessor drops a
    string that is assigned to it. *)
Definition count_word (keywords : kwtable) (word : string) : kwtable :=
  if (word =? "__proto__")%string then keywords
  else
    match own keywords word with
    | Some (Count n) => set_own keywords word (Count (n + 1))
    | Some Text => set_own keywords word Text
    | None =>
        if (word =? "constructor")%string
        then set_own keywords word Text
        else set_own keywords word (Count 1)
    end.

Definition count_all (ws : list string) : kwtable :=
  fold_left count_word ws [].

(** [Object.entries(keywords).filter(([, count]) => count >= 2)]; a
    string compares as not-a-number and is dropped. *)
Fixpoint frequent (keywords : kwtable) : list (string * nat) :=
  match keywords with
  | [] => []
  | (k, Count n) :: rest =>
      if (2 <=? n)%nat then (k, n) :: frequent rest else frequent rest
  | (_, Text) :: rest => frequent rest
  end.

(** [([, a], [, b]) => b - a]. *)
Definition by_count_desc (x y : string * nat) : Z :=
  (Z.of_nat (snd y) - Z.of_nat (snd x))%Z.

(** [extractKeywords(segments)]: the entries of the returned object, in
    insertion order. *)
Definition extractKeywords (segs : list CombinedSegment)
    : list (string * nat) :=
  firstn 30 (js_sort by_count_desc (frequent (count_all (words segs)))).

(* ------------------------------------------------------------------ *)
(** ** Session lifecycle *)

(** [reset]: every buffer and the displayed state are cleared, and
    [cleanup] drops the model. *)
Definition reset_session : session :=
  {| geminiModel := false;
     geminiSegments := [];
     azureSegments := [];
     combinedTranscript := [];
     transcript := "";
     realtimeFeedback := [] |}.

(** [startRecording] up to the first event: the three buffers are
    emptied and [initializeGeminiModel] stores a model unless it fails;
    the displayed transcript and the feedback list are not touched. *)
Definition start_session (initialised : bool) (s : session) : session :=
  {| geminiModel := if initialised then true else geminiModel s;
     geminiSegments := [];
     azureSegments := [];
     combinedTranscript := [];
     transcript := transcript s;
     realtimeFeedback := realtimeFeedback s |}.

(** What reaches the hook while it records: a recognised utterance, or
    the completion of the annotation call issued for a fragment. *)
Inductive arrival : Type :=
| Transcribed (a : AzureSpeakerSegment)
| Annotated (fragment : string) (timestamp : Q) (reply : gemini_reply).

Section Live.

Variable strip_fences : string -> string.
Variable JSON_parse : string -> res Annotation.

Definition deliver (s : session) (e : arrival) : session :=
  match e with
  | Transcribed a => on_transcribed a s
  | Annotated fragment timestamp reply =>
      match analyzeTextWithGemini strip_fences JSON_parse s fragment
              timestamp reply with
      | Ok s' => s'
      | Throw => s
      end
  end.

(** The session after a sequence of arrivals, in their order. *)
Definition deliver_all (s : session) (es : list arrival) : session :=
  fold_left deliver es s.

End Live.

Section Stop.

Variable strip_fences : string -> string.
Variable parse_response : string -> res Response.

(** [stopRecording] from the final merge to the corrected transcript:
    the merge runs once more, the correction pass reviews its result,
    and the combined transcript and the displayed text are replaced by
    what the pass returns. *)
Definition stopRecording (s : session) (reply : gemini_reply) : session :=
  let merged := run_merge s in
  match correctSpeakerIdentification strip_fences parse_response
          (combinedTranscript merged) reply with
  | Ok correctedSegments =>
      {| geminiModel := geminiModel merged;
         geminiSegments := geminiSegments merged;
         azureSegments := azureSegments merged;
         combinedTranscript := correctedSegments;
         transcript := displayText correctedSegments;
         realtimeFeedback := realtimeFeedback merged |}
  | Throw => merged
  end.

End Stop.

(* ------------------------------------------------------------------ *)
(** ** Metrics aggregator: talk ratio and average sentiment *)

(** The points that [calculateMetrics] adds for a sentiment label; any
    other label, and a missing one, is not counted. *)
Definition sentiment_points (label : option string) : option Z :=
  match label with
  | Some "positive" => Some 80
  | Some "neutral" => Some 60
  | Some "negative" => Some 40
  | _ => None
  end%Z.

Definition totalSentimentScore (segs : list CombinedSegment) : Z :=
  fold_left (fun total seg =>
               match sentiment_points (sentiment seg) with
               | Some p => (total + p)%Z
               | None => total
               end) segs 0%Z.

Definition sentimentCount (segs : list CombinedSegment) : Z :=
  fold_left (fun count seg =>
               match sentiment_points (sentiment seg) with
               | Some _ => (count + 1)%Z
               | None => count
               end) segs 0%Z.

(** [avgSentiment]. *)
Definition avgSentiment (segs : list CombinedSegment) : Z :=
  if (0 <? sentimentCount segs)%Z
  then Math_round (inject_Z (totalSentimentScore segs)
                   / inject_Z (sentimentCount segs))
  else 50%Z.

(** [speakerTime.get(speaker) || 0]. *)
Fixpoint time_of (speakerTime : list (string * Q)) (k : string) : Q :=
  match speakerTime with
  | [] => 0
  | (k', t) :: rest => if (k' =? k)%string then t else time_of rest k
  end.

(** [speakerTime.set(speaker, t)]: a new key goes to the end, a known
    key keeps its place. *)
Fixpoint time_set (speakerTime : list (string * Q)) (k : string) (t : Q)
    : list (string * Q) :=
  match speakerTime with
  | [] => [(k, t)]
  | (k', t') :: rest =>
      if (k' =? k)%string then (k', t) :: rest
      else (k', t') :: time_set rest k t
  end.

(** The map [speakerTime] after the [forEach], as its entries in
    insertion order. *)
Definition speakerTime (segs : list CombinedSegment) : list (string * Q) :=
  fold_left (fun m seg =>
               time_set m (speaker seg)
                 (time_of m (speaker seg) + (end_ seg - start seg)))
    segs [].

(** The two rounded percentages of the talk ratio, when it is computed:
    at least two speakers and a positive total time.  The quotient and
    the product are exact here; the source rounds each of them to a
    double before [Math.round], so that its percentage can differ by
    one from this one where the exact share lies at a half, or within
    a rounding error of one. *)
Definition talk_shares (segs : list CombinedSegment) : option (Z * Z) :=
  let speakers := speakerTime segs in
  match speakers with
  | (_, salesPersonTime) :: (_, customerTime) :: _ =>
      let totalTime := fold_left (fun sum e => sum + snd e) speakers 0 in
      if Qltb 0 totalTime
      then Some (Math_round (salesPersonTime / totalTime * 100),
                 Math_round (customerTime / totalTime * 100))
      else None
  | _ => None
  end.

(** [talkToListenRatio]. *)
Definition talkToListenRatio (segs : list CombinedSegment) : string :=
  match talk_shares segs with
  | Some (salesRatio, customerRatio) =>
      (Z_to_string salesRatio ++ ":" ++ Z_to_string customerRatio)%string
  | None => "50:50"
  end.

(* ------------------------------------------------------------------ *)
(** ** Speaker registry *)

(** The name given to the speaker that is registered when [count]
    speakers are known: "Speaker A", "Speaker B", ... *)
Definition speaker_label (count : nat) : string :=
  ("Speaker " ++ String (ascii_of_nat (65 + count)) "")%string.

(** [getSpeakerName(speakerId)] on the entries of [speakerNamesRef], in
    insertion order: the name, and the registry afterwards. *)
Definition getSpeakerName (registry : list (string * string))
    (speakerId : string) : string * list (string * string) :=
  match lookup registry speakerId with
  | Some name => (name, registry)
  | None =>
      let name := speaker_label (List.length registry) in
      (name, registry ++ [(speakerId, name)])
  end.

(** The handler of [transcribed] events names the speaker of each event
    in turn: the names given to a run of raw speaker ids, and the
    registry afterwards. *)
Fixpoint name_speakers (speakerIds : list string)
    (registry : list (string * string))
    : list string * list (string * string) :=
  match speakerIds with
  | [] => ([], registry)
  | speakerId :: rest =>
      let (name, registry1) := getSpeakerName registry speakerId in
      let (names, registry2) := name_speakers rest registry1 in
      (name :: names, registry2)
  end.

(* ------------------------------------------------------------------ *)
(** ** Question extraction *)

(** [s.split(/[...]+/)] for a class of characters: the pieces between
    the maximal runs of characters of the class. *)
Fixpoint split_runs (p : ascii -> bool) (s : string) : list string :=
  match s with
  | EmptyString => [EmptyString]
  | String c rest =>
      if p c then
        match rest with
        | EmptyString => [EmptyString; EmptyString]
        | String c' _ =>
            if p c' then split_runs p rest
            else EmptyString :: split_runs p rest
        end
      else
        match split_runs p rest with
        | piece :: pieces => String c piece :: pieces
        | [] => [String c EmptyString]
        end
  end.

(** The class [[.!?]]. *)
Definition is_terminator (c : ascii) : bool :=
  let n := code c in ((n =? 46) || (n =? 33) || (n =? 63))%nat.

(** The trimmed, non-empty pieces of a text between its runs of
    sentence terminators. *)
Definition sentences (t : string) : list string :=
  filter (fun s => (0 <? String.length s)%nat)
    (map trim (split_runs is_terminator t)).

Definition lead_words : list string :=
  [ "what"; "how"; "why"; "when"; "where"; "who"; "which"; "can"; "could";
    "would"; "should"; "do you"; "are you"; "is it"; "have you" ].

(** The test applied to a sentence of a segment. *)
Definition is_question (segText sentence : string) : bool :=
  includes segText (sentence ++ "?")
  || existsb (startsWith (toLowerCase sentence)) lead_words.

Definition questions_of (seg : CombinedSegment) : list string :=
  if includes (text seg) "?" then
    map (fun sentence =>
           ("[" ++ speaker seg ++ "] " ++ sentence ++ "?")%string)
      (filter (is_question (text seg)) (sentences (text seg)))
  else [].

(** [extractAllQuestions(segments)]. *)
Definition extractAllQuestions (segs : list CombinedSegment) : list string :=
  flat_map questions_of segs.

(* ------------------------------------------------------------------ *)
(** ** Full analysis and the stored record *)

(** [truncateLongText(text, maxLength)]. *)
Definition truncateLongText (t : string) (maxLength : nat) : string :=
  if (String.length t <=? maxLength)%nat then t
  else (substring 0 (maxLength - 3) t ++ "...")%string.

(** The fields read from the parsed full analysis; each may be
    missing. *)
Record FullAnalysis : Type := mkFull {
  overallAnalysis : option string;
  fa_strengths : option (list string);
  fa_opportunities : option (list string);
  fa_competitors : option (list string)
}.

(** [x || []]. *)
Definition or_empty (o : option (list string)) : list string :=
  match o with
  | Some l => l
  | None => []
  end.

(** The arguments of [saveToFirebase]. *)
Record SaveArgs : Type := mkSave {
  geminiAnalysis : string;
  sv_coachingCards : list string;
  sv_strengths : list string;
  sv_opportunities : list string;
  sv_competitors : list string;
  sv_keywords : list (string * nat);
  sv_questions : list string
}.

(** [coachingCards] of a parsed analysis: up to three strengths, then up
    to three opportunities, each with its tag. *)
Definition coachingCards (parsed : FullAnalysis) : list string :=
  map (fun s => ("STRENGTH: " ++ s)%string)
      (firstn 3 (or_empty (fa_strengths parsed)))
  ++ map (fun o => ("OPPORTUNITY: " ++ o)%string)
         (firstn 3 (or_empty (fa_opportunities parsed))).

Definition transcript_line (seg : CombinedSegment) : string :=
  ("[" ++ speaker seg ++ "] " ++ text seg)%string.

Section FullRecording.

Variable strip_fences : string -> string.

(** [JSON.parse] of the full analysis. *)
Variable parse_analysis : string -> res FullAnalysis.

(** [analyzeFullRecording], as the call of [saveToFirebase] it ends
    with.  [constructed] tells whether the client and the model could
    be constructed; the outer handler takes over when they could
    not. *)
Definition analyzeFullRecording (constructed : bool)
    (segs : list CombinedSegment) (reply : gemini_reply) : SaveArgs :=
  let fullTranscript := join newline (map transcript_line segs) in
  if negb constructed then
    mkSave "Recording completed with partial data." [] [] [] [] [] []
  else if (fullTranscript =? "")%string
     || (String.length (trim fullTranscript) <? 50)%nat
  then
    mkSave
      "Recording completed. Transcript was too short for detailed analysis."
      [] [] [] [] [] []
  else
    let allQuestions := extractAllQuestions segs in
    let extractedKeywords := extractKeywords segs in
    match reply with
    | ApiError =>
        mkSave "Recording completed. Full transcript available for review."
          [] [] [] [] extractedKeywords allQuestions
    | Reply responseText =>
        let analysisText := strip_fences responseText in
        match parse_analysis analysisText with
        | Ok parsed =>
            mkSave
              match overallAnalysis parsed with
              | Some o => if (o =? "")%string then analysisText else o
              | None => analysisText
              end
              (coachingCards parsed)
              (or_empty (fa_strengths parsed))
              (or_empty (fa_opportunities parsed))
              (or_empty (fa_competitors parsed))
              extractedKeywords allQuestions
        | Throw =>
            mkSave analysisText ["STRENGTH: Call completed successfully"]
              [] [] [] extractedKeywords allQuestions
        end
    end.

End FullRecording.

(** The field [coachingCard] of the stored record. *)
Definition stored_coachingCard (args : SaveArgs) : list string :=
  match sv_coachingCards args with
  | [] => ["STRENGTH: Call completed successfully"]
  | _ :: _ => sv_coachingCards args
  end.

(* ------------------------------------------------------------------ *)
(** ** Uploaded files: enrichment of the transcript *)

(** One entry of [segmentAnalysis]. *)
Record SegmentAnalysis : Type := mkSegmentAnalysis {
  sa_index : Z;
  sa_emotion : option string;
  sa_sentiment : option string
}.

(** [x || 'neutral']. *)
Definition or_neutral (o : option string) : string :=
  match o with
  | Some s => if (s =? "")%string then "neutral" else s
  | None => "neutral"
  end.

(** The callback of the [map] in [analyzeSegmentsWithGemini]. *)
Definition enrich (segmentAnalysis : option (list SegmentAnalysis))
    (idx : nat) (seg : AzureSpeakerSegment) : CombinedSegment :=
  let analysis :=
    match segmentAnalysis with
    | Some entries =>
        find (fun a => (sa_index a =? Z.of_nat idx)%Z) entries
    | None => None
    end in
  {| speaker := az_speakerId seg;
     text := az_text seg;
     emotion :=
       Some (or_neutral match analysis with
                        | Some a => sa_emotion a
                        | None => None
                        end);
     sentiment :=
       Some (or_neutral match analysis with
                        | Some a => sa_sentiment a
                        | None => None
                        end);
     start := az_start seg;
     end_ := az_end seg |}.

Definition enrichedSegments (segmentAnalysis : option (list SegmentAnalysis))
    (segs : list AzureSpeakerSegment) : list CombinedSegment :=
  mapi (enrich segmentAnalysis) segs.
(* ------------------------------------------------------------------ *)
(** ** Uploaded files: conversion to WAV *)

(** An [AudioBuffer]: [getChannelData ab channel i] is sample [i] of a
    channel.  The samples are finite numbers. *)
Record AudioBuffer : Type := mkAudioBuffer {
  numberOfChannels : nat;
  sampleRate : Q;
  ab_length : nat;
  getChannelData : nat -> nat -> Q
}.

(** A non-negative integer as a number. *)
Definition num (n : nat) : Q := inject_Z (Z.of_nat n).

(** The conversion of a number to an integer of [8 * width] bits: the
    integer part, modulo [2 ^ (8 * width)]. *)
Definition to_uint (width : nat) (value : Q) : Z :=
  truncate value mod 2 ^ (8 * Z.of_nat width).

(** The bytes of an integer, the low byte first. *)
Fixpoint little_endian (width : nat) (n : Z) : list Z :=
  match width with
  | O => []
  | S w => (n mod 256)%Z :: little_endian w (n / 256)
  end.

(** One byte of a buffer is replaced. *)
Fixpoint store (view : list Z) (offset : nat) (byte : Z) : list Z :=
  match view, offset with
  | [], _ => []
  | _ :: rest, O => byte :: rest
  | b :: rest, S n => b :: store rest n byte
  end.

Fixpoint store_all (view : list Z) (offset : nat) (bytes : list Z)
    : list Z :=
  match bytes with
  | [] => view
  | byte :: rest => store_all (store view offset byte) (S offset) rest
  end.

(** A store of a [DataView]: a RangeError when the bytes do not lie
    inside the buffer. *)
Definition set_bytes (view : list Z) (offset : nat) (bytes : list Z)
    : res (list Z) :=
  if (offset + List.length bytes <=? List.length view)%nat
  then Ok (store_all view offset bytes)
  else Throw.

Definition setUint8 (view : list Z) (offset : nat) (value : Q)
    : res (list Z) :=
  set_bytes view offset (little_endian 1 (to_uint 1 value)).

(** [view.setUint16(offset, value, true)]. *)
Definition setUint16 (view : list Z) (offset : nat) (value : Q)
    : res (list Z) :=
  set_bytes view offset (little_endian 2 (to_uint 2 value)).

(** [view.setInt16(offset, value, true)]: the two's complement of a
    negative value has the bytes of the value modulo [2 ^ 16]. *)
Definition setInt16 (view : list Z) (offset : nat) (value : Q)
    : res (list Z) :=
  set_bytes view offset (little_endian 2 (to_uint 2 value)).

(** [view.setUint32(offset, value, true)]. *)
Definition setUint32 (view : list Z) (offset : nat) (value : Q)
    : res (list Z) :=
  set_bytes view offset (little_endian 4 (to_uint 4 value)).

(** [writeString(offset, string)]. *)
Fixpoint writeString (view : list Z) (offset : nat) (s : string)
    : res (list Z) :=
  match s with
  | EmptyString => Ok view
  | String c rest =>
      view <- setUint8 view offset (num (code c)) ;;
      writeString view (S offset) rest
  end.

(** The value stored for a sample. *)
Definition int16Sample (s : Q) : Q :=
  let sample := Qmax (-1) (Qmin 1 s) in
  if Qltb sample 0 then sample * 32768 else sample * 32767.

(** The inner loop, over the channels of frame [i]; the state is the
    offset and the buffer. *)
Fixpoint write_channels (buffer : AudioBuffer) (i : nat)
    (channels : list nat) (st : nat * list Z) : res (nat * list Z) :=
  match channels with
  | [] => Ok st
  | channel :: rest =>
      view <- setInt16 (snd st) (fst st)
                (int16Sample (getChannelData buffer channel i)) ;;
      write_channels buffer i rest ((fst st + 2)%nat, view)
  end.

(** The outer loop, over the frames. *)
Fixpoint write_frames (buffer : AudioBuffer) (frames : list nat)
    (st : nat * list Z) : res (nat * list Z) :=
  match frames with
  | [] => Ok st
  | i :: rest =>
      st <- write_channels buffer i (seq 0 (numberOfChannels buffer)) st ;;
      write_frames buffer rest st
  end.

(** [audioBufferToWav(buffer)]. *)
Definition audioBufferToWav (buffer : AudioBuffer) : res (list Z) :=
  let numChannels := numberOfChannels buffer in
  let format := 1%nat in
  let bitDepth := 16%nat in
  let bytesPerSample := (bitDepth / 8)%nat in
  let blockAlign := (numChannels * bytesPerSample)%nat in
  let byteRate := sampleRate buffer * num blockAlign in
  let dataSize := (ab_length buffer * blockAlign)%nat in
  let bufferSize := (44 + dataSize)%nat in
  let view := repeat 0%Z bufferSize in
  let offset := 0%nat in
  view <- writeString view offset "RIFF" ;;
  let offset := (offset + 4)%nat in
  view <- setUint32 view offset (num (36 + dataSize)) ;;
  let offset := (offset + 4)%nat in
  view <- writeString view offset "WAVE" ;;
  let offset := (offset + 4)%nat in
  view <- writeString view offset "fmt " ;;
  let offset := (offset + 4)%nat in
  view <- setUint32 view offset (num 16) ;;
  let offset := (offset + 4)%nat in
  view <- setUint16 view offset (num format) ;;
  let offset := (offset + 2)%nat in
  view <- setUint16 view offset (num numChannels) ;;
  let offset := (offset + 2)%nat in
  view <- setUint32 view offset (sampleRate buffer) ;;
  let offset := (offset + 4)%nat in
  view <- setUint32 view offset byteRate ;;
  let offset := (offset + 4)%nat in
  view <- setUint16 view offset (num blockAlign) ;;
  let offset := (offset + 2)%nat in
  view <- setUint16 view offset (num bitDepth) ;;
  let offset := (offset + 2)%nat in
  view <- writeString view offset "data" ;;
  let offset := (offset + 4)%nat in
  view <- setUint32 view offset (num dataSize) ;;
  let offset := (offset + 4)%nat in
  st <- write_frames buffer (seq 0 (ab_length buffer)) (offset, view) ;;
  Ok (snd st).

(* ------------------------------------------------------------------ *)
(** ** The times of a split, in the arithmetic of the source *)

(** The correction pass above keeps the times as exact rationals, which
    is enough wherever a time is only copied or compared.  A split
    computes new times.  Its body is embedded here once more with the
    numbers of the source, the IEEE doubles, where the difference, the
    quotient, every product and every sum are rounded. *)
Module Double.

Record Segment : Type := mkSegment {
  speaker : string;
  text : string;
  emotion : option string;
  sentiment : option string;
  start : float;
  end_ : float
}.

(** An array index, or a length, as a number.  Counting up by one is
    exact for every index that an array can have. *)
Fixpoint number (n : nat) : float :=
  match n with
  | O => 0
  | S m => number m + 1
  end%float.

(** One element of [newSegments]. *)
Definition split_part (originalSeg : Segment) (timePerSegment : float)
    (i : nat) (seg : SplitPart) : Segment :=
  {| speaker := sp_speaker seg;
     text := sp_text seg;
     emotion := emotion originalSeg;
     sentiment := sentiment originalSeg;
     start := (start originalSeg + number i * timePerSegment)%float;
     end_ := (start originalSeg + (number i + 1) * timePerSegment)%float |}.

(** [newSegments]; with no parts the quotient is an infinity or a NaN,
    and is never used. *)
Definition newSegments (originalSeg : Segment) (parts : list SplitPart)
    : list Segment :=
  let duration := (end_ originalSeg - start originalSeg)%float in
  let timePerSegment := (duration / number (List.length parts))%float in
  mapi (split_part originalSeg timePerSegment) parts.

(** The body of the [forEach] over the sorted splits. *)
Definition apply_split (correctedSegments : list Segment) (split : Split)
    : res (list Segment) :=
  match get correctedSegments (originalIndex split) with
  | None => Throw
  | Some originalSeg =>
      Ok (splice1 correctedSegments (Z.to_nat (originalIndex split))
            (newSegments originalSeg (segments split)))
  end.

End Double.

(* ================================================================== *)
(** * Vocabulary of the statements, and worked inputs *)

(** The order that a descending sort by [key] establishes. *)
Definition key_ge {A : Type} (key : A -> Z) (a b : A) : Prop :=
  (key b <= key a)%Z.

(** ** Segment merger *)




(** The number of annotations within tolerance of an event. *)
Definition candidates (gs : list LiveSegment) (a : AzureSpeakerSegment)
    : nat :=
  List.length (filter (within_tolerance a) gs).

Module MergeExample.
Definition late : LiveSegment :=
  {| ls_text := "Thanks for joining."; ls_emotion := Some "calm";
     ls_sentiment := Some "neutral"; ls_timestamp := 23 # 2 |}.
Definition exact : LiveSegment :=
  {| ls_text := "We can start on Monday."; ls_emotion := Some "joy";
     ls_sentiment := Some "positive"; ls_timestamp := 10 |}.
End MergeExample.

(** The fields of a transcript event, and those a combined segment
    copies from it. *)
Definition event_core (a : AzureSpeakerSegment) : string * string * Q * Q :=
  (az_speakerId a, az_text a, az_start a, az_end a).

Definition segment_core (seg : CombinedSegment) : string * string * Q * Q :=
  (speaker seg, text seg, start seg, end_ seg).

(** ** Per-fragment annotation *)



Module AnnotateExample.
(** A session that records, with a model and one piece of feedback. *)
Definition started : session :=
  {| geminiModel := true;
     geminiSegments := [];
     azureSegments := [];
     combinedTranscript := [];
     transcript := "";
     realtimeFeedback := ["Ask an open question."] |}.
End AnnotateExample.

Module LateExample.
Definition greeting : AzureSpeakerSegment :=
  {| az_speakerId := "Guest-1"; az_text := "Hello there, welcome.";
     az_start := 0; az_end := 3 |}.
Definition question : AzureSpeakerSegment :=
  {| az_speakerId := "Guest-2"; az_text := "What can I do for you?";
     az_start := 31 # 10; az_end := 6 |}.
(** A parser that rejects one text and reads joy from every other. *)
Definition parse (t : string) : res Annotation :=
  if (t =? "not json")%string then Throw
  else Ok {| an_emotion := Some "joy"; an_sentiment := Some "positive";
             an_feedback := None |}.
Definition same (t : string) : string := t.
Definition session_of (r : res session) : session :=
  match r with
  | Ok s => s
  | Throw => AnnotateExample.started
  end.
(** The greeting has been transcribed and its annotation, stamped with
    the end of the greeting, has arrived; the question has been
    transcribed and its annotation is awaited. *)
Definition before : session :=
  on_transcribed question
    (session_of
       (analyzeTextWithGemini same parse
          (on_transcribed greeting AnnotateExample.started)
          (az_text greeting) 3 (Reply "joy, positive"))).
End LateExample.

(** ** Speaker correction pass *)

(** The total time covered by a run of segments. *)
Fixpoint sum_spans (segs : list CombinedSegment) : Q :=
  match segs with
  | [] => 0
  | seg :: rest => (end_ seg - start seg) + sum_spans rest
  end.

(** The [i]-th of [k] equal parts of the span of [o], as a pair of its
    bounds. *)
Definition sub_interval (o : CombinedSegment) (k i : nat) : Q * Q :=
  let width := (end_ o - start o) / inject_Z (Z.of_nat k) in
  (start o + inject_Z (Z.of_nat i) * width,
   start o + inject_Z (Z.of_nat (S i)) * width).

Definition covers (o : CombinedSegment) (k : nat) (seg : CombinedSegment)
    (i : nat) : Prop :=
  start seg == fst (sub_interval o k i) /\
  end_ seg == snd (sub_interval o k i).

Module SplitExample.
Definition merged : CombinedSegment :=
  {| speaker := "Guest-1"; text := "What product? It is a laptop.";
     emotion := Some "calm"; sentiment := Some "neutral";
     start := 4; end_ := 10 |}.
Definition opening : CombinedSegment :=
  {| speaker := "Guest-1"; text := "I want to sell your product.";
     emotion := None; sentiment := None; start := 0; end_ := 4 |}.
Definition asked : Split :=
  {| originalIndex := 1;
     segments :=
       [ {| sp_speaker := "Customer"; sp_text := "What product?" |};
         {| sp_speaker := "Salesperson"; sp_text := "It is a laptop." |} ] |}.
End SplitExample.

(** Everything in a segment but its speaker. *)
Definition frame (seg : CombinedSegment)
    : string * option string * option string * Q * Q :=
  (text seg, emotion seg, sentiment seg, start seg, end_ seg).

(** [after] is [before], as it was or with the speaker of one of the
    corrections. *)
Definition relabelled (cs : list Correction)
    (before after : CombinedSegment) : Prop :=
  after = before \/
  exists c, In c cs /\ after = with_speaker before (correctedSpeaker c).

Module ReassignExample.
Definition merged : CombinedSegment :=
  {| speaker := "Salesperson"; text := "What product? It is a laptop.";
     emotion := None; sentiment := None; start := 0; end_ := 6 |}.
Definition answer : CombinedSegment :=
  {| speaker := "Salesperson"; text := "I have many laptops.";
     emotion := None; sentiment := None; start := 6; end_ := 9 |}.
Definition before : list CombinedSegment := [merged; answer].
(** The response splits segment 0 in two and gives segment 1, as
    numbered in the transcript that was sent, to the customer. *)
Definition response : Response :=
  {| corrections :=
       Some [ {| index := 1; correctedSpeaker := "Customer" |} ];
     splits :=
       Some [ {| originalIndex := 0;
                 segments :=
                   [ {| sp_speaker := "Customer";
                        sp_text := "What product?" |};
                     {| sp_speaker := "Salesperson";
                        sp_text := "It is a laptop." |} ] |} ] |}.
Definition label (seg : CombinedSegment) : string * string :=
  (speaker seg, text seg).
End ReassignExample.

(** ** Metrics aggregator *)

Module EngagementExample.
(** Five words in two seconds, and a silent two seconds. *)
Definition brisk : list CombinedSegment :=
  [ {| speaker := "Salesperson"; text := "hello world how are you";
       emotion := None; sentiment := None; start := 0; end_ := 2 |} ].
Definition silent : list CombinedSegment :=
  [ {| speaker := "Salesperson"; text := "  ";
       emotion := None; sentiment := None; start := 0; end_ := 2 |} ].
End EngagementExample.

(** The segments that carry a sentiment. *)
Definition bearing (segs : list CombinedSegment) : list CombinedSegment :=
  filter (fun seg => truthy (sentiment seg)) segs.

Fixpoint sum_scores (segs : list CombinedSegment) : Z :=
  match segs with
  | [] => 0
  | seg :: rest => score (sentiment seg) + sum_scores rest
  end%Z.

(** The loop variables on entry to iteration [i]. *)
Definition state_before (segs : list CombinedSegment) (i : nat)
    : graph_state :=
  graph_loop 0 (firstn i segs) graph_init.

(** Iteration [i] pushes a point. *)
Definition emitted_at (segs : list CombinedSegment) (i : nat) : bool :=
  negb (List.length (points (state_before segs (S i)))
        =? List.length (points (state_before segs i)))%nat.

(** The rounded average of the scores of the sentiment-bearing segments
    up to and including position [i]. *)
Definition running_avg (segs : list CombinedSegment) (i : nat) : Z :=
  let seen := bearing (firstn (S i) segs) in
  currentAvg (sum_scores seen) (Z.of_nat (List.length seen)).

(** The value of the last point emitted before iteration [i]. *)
Definition last_value (segs : list CombinedSegment) (i : nat) : Z :=
  value (last (points (state_before segs i)) anchor).

(** The running average differs from the last emitted value by more
    than 10. *)
Definition moved (segs : list CombinedSegment) (i : nat) : bool :=
  (10 <? Z.abs (running_avg segs i - last_value segs i))%Z.

(** Position [i] holds the first sentiment-bearing segment, if any. *)
Definition none_before (segs : list CombinedSegment) (i : nat) : bool :=
  (List.length (bearing (firstn i segs)) =? 0)%nat.

(** Position [i] holds the second, fourth, ... sentiment-bearing
    segment. *)
Definition every_second (segs : list CombinedSegment) (i : nat) : bool :=
  Nat.even (List.length (bearing (firstn (S i) segs))).

(** What the loop variables hold: the totals over the sentiment-bearing
    segments seen, and more than the anchor as soon as one was seen. *)
Definition graph_inv (seen : list CombinedSegment) (st : graph_state)
    : Prop :=
  cumulativeSentiment st = sum_scores (bearing seen) /\
  segmentCount st = Z.of_nat (List.length (bearing seen)) /\
  match bearing seen with
  | [] => List.length (points st) = 1%nat
  | _ :: _ => (2 <= List.length (points st))%nat
  end.

Module SeriesExample.
Definition said (label : string) (from : Q) : CombinedSegment :=
  {| speaker := "Customer"; text := "I see."; emotion := None;
     sentiment := Some label; start := from; end_ := from + 1 |}.
(** One positive turn followed by three negative ones. *)
Definition turns : list CombinedSegment :=
  [ said "positive" 0; said "negative" 1; said "negative" 2;
    said "negative" 3 ].
End SeriesExample.

(** ** Keyword extraction *)

(** How often a word occurs in a list of words. *)
Definition occurrences (ws : list string) (k : string) : nat :=
  count_occ string_dec ws k.

Definition keys (t : kwtable) : list string := map fst t.

(** The two names that an object literal inherits and that can be
    spelled with lower-case word characters. *)
Definition inherited (k : string) : Prop :=
  k = "constructor" \/ k = "__proto__".

(** The value that [keywords] holds for a name once the words [ws] have
    been counted. *)
Definition expected (ws : list string) (k : string) : option kwval :=
  if (k =? "__proto__")%string then None
  else if (occurrences ws k =? 0)%nat then None
  else if (k =? "constructor")%string then Some Text
  else Some (Count (occurrences ws k)).

(** The entries of the frequency table that count at least 2, ranked. *)
Definition ranked (segs : list CombinedSegment) : list (string * nat) :=
  js_sort by_count_desc (frequent (count_all (words segs))).

Module KeywordExample.
Definition call : list CombinedSegment :=
  [ {| speaker := "Customer";
       text := "The constructor said the constructor would call. Call me.";
       emotion := None; sentiment := None; start := 0; end_ := 5 |} ].
End KeywordExample.

(** ** Session lifecycle *)

(** The utterances among the arrivals, in their order. *)
Fixpoint utterances (es : list arrival) : list AzureSpeakerSegment :=
  match es with
  | [] => []
  | Transcribed a :: rest => a :: utterances rest
  | Annotated _ _ _ :: rest => utterances rest
  end.

(** The number of completed annotation calls among the arrivals. *)
Fixpoint completions (es : list arrival) : nat :=
  match es with
  | [] => 0
  | Transcribed _ :: rest => completions rest
  | Annotated _ _ _ :: rest => S (completions rest)
  end.

(** The combined transcript is the merge of the two buffers. *)
Definition merged_state (s : session) : Prop :=
  combinedTranscript s = mergeSegments (azureSegments s) (geminiSegments s).

Module LiveExample.
Definition hello : AzureSpeakerSegment :=
  {| az_speakerId := "Guest-1"; az_text := "Hello there, welcome.";
     az_start := 0; az_end := 2 |}.
Definition calm : LiveSegment :=
  {| ls_text := "Hello there, welcome."; ls_emotion := Some "calm";
     ls_sentiment := Some "positive"; ls_timestamp := 1 |}.
Definition joy : LiveSegment :=
  {| ls_text := "Glad to be here."; ls_emotion := Some "joy";
     ls_sentiment := Some "positive"; ls_timestamp := 5 |}.
End LiveExample.

(** ** Speaker correction pass: the splits as a whole *)

(** What a set of splits makes of the segment at index [j]: the parts of
    the split addressed to [j], or the segment itself. *)
Definition expand (sps : list Split) (j : nat) (seg : CombinedSegment)
    : list CombinedSegment :=
  match find (fun sp => (originalIndex sp =? Z.of_nat j)%Z) sps with
  | Some sp => newSegments seg (segments sp)
  | None => [seg]
  end.

(** Every segment replaced, where it stands, by what the splits make of
    it. *)
Definition split_all (sps : list Split) (segs : list CombinedSegment)
    : list CombinedSegment :=
  List.concat (mapi (expand sps) segs).

(** The split addresses a segment of the array. *)
Definition in_range (segs : list CombinedSegment) (sp : Split) : Prop :=
  (0 <= originalIndex sp < Z.of_nat (List.length segs))%Z.

(** The role that the fallback gives to a raw label whose first utterance
    is [seg]. *)
Definition role_of (seg : CombinedSegment) : string :=
  if isLikelySalesperson (text seg) then "Salesperson" else "Customer".

(** The mapping holds a role for every label it holds. *)
Definition holds_roles (m : list (string * string)) : Prop :=
  forall k v, lookup m k = Some v -> is_role v = true.

(** The ways in which the correction pass gives up on a reply. *)
Inductive correction_fails (strip_fences : string -> string)
    (parse_response : string -> res Response)
    (segs : list CombinedSegment) : gemini_reply -> Prop :=
| call_rejected :
    correction_fails strip_fences parse_response segs ApiError
| reply_unparsed raw :
    parse_response (strip_fences raw) = Throw ->
    correction_fails strip_fences parse_response segs (Reply raw)
| split_misaddressed raw response sps :
    parse_response (strip_fences raw) = Ok response ->
    splits response = Some sps ->
    Exists (fun sp => ~ in_range segs sp) sps ->
    correction_fails strip_fences parse_response segs (Reply raw).

Module CorrectionExample.
Definition greeting : CombinedSegment :=
  {| speaker := "Guest-1"; text := "Hello, can I show you our product?";
     emotion := None; sentiment := None; start := 0; end_ := 3 |}.
Definition reply_a : CombinedSegment :=
  {| speaker := "Guest-2"; text := "Yes please.";
     emotion := None; sentiment := None; start := 3; end_ := 4 |}.
Definition follow_up : CombinedSegment :=
  {| speaker := "Guest-1"; text := "It is a laptop.";
     emotion := None; sentiment := None; start := 4; end_ := 6 |}.
Definition talk : list CombinedSegment := [greeting; reply_a; follow_up].
Definition two_parts : list SplitPart :=
  [ {| sp_speaker := "Customer"; sp_text := "Yes." |};
    {| sp_speaker := "Customer"; sp_text := "Please." |} ].
Definition split_reply : Split :=
  {| originalIndex := 1; segments := two_parts |}.
Definition split_greeting : Split :=
  {| originalIndex := 0;
     segments :=
       [ {| sp_speaker := "Salesperson"; sp_text := "Hello," |};
         {| sp_speaker := "Salesperson";
            sp_text := "can I show you our product?" |} ] |}.
Definition beyond : Split := {| originalIndex := 3; segments := two_parts |}.
Definition bad_response : Response :=
  {| corrections :=
       Some [ {| index := 0; correctedSpeaker := "Salesperson" |} ];
     splits := Some [beyond] |}.
Definition same (t : string) : string := t.
Definition parse_bad (_ : string) : res Response := Ok bad_response.
Definition recorded : session :=
  {| geminiModel := true;
     geminiSegments := [];
     azureSegments :=
       [ {| az_speakerId := "Guest-1"; az_text := "Hello."; az_start := 0;
            az_end := 1 |} ];
     combinedTranscript := [];
     transcript := "";
     realtimeFeedback := [] |}.
End CorrectionExample.

(** ** Metrics aggregator: talk ratio and average sentiment *)

(** The segments of one speaker. *)
Definition spoken_by (k : string) (segs : list CombinedSegment)
    : list CombinedSegment :=
  filter (fun seg => (speaker seg =? k)%string) segs.

Module RatioExample.
Definition turn (who : string) (from to : Q) (label : string)
    : CombinedSegment :=
  {| speaker := who; text := "I see."; emotion := None;
     sentiment := Some label; start := from; end_ := to |}.
Definition monologue : list CombinedSegment :=
  [ turn "Salesperson" 0 1 "positive"; turn "Salesperson" 1 8 "neutral" ].
End RatioExample.

(** ** Metrics aggregator: density of the series *)

(** Neighbouring values differ by more than 10. *)
Fixpoint spaced (values : list Z) : Prop :=
  match values with
  | a :: (b :: _) as rest => (10 < Z.abs (b - a))%Z /\ spaced rest
  | _ => True
  end.

(** ** Keyword extraction: the keys *)

(** The characters a key can hold: a lower-case letter of the basic
    alphabet, a digit or the underscore. *)
Definition keyword_char (c : ascii) : bool :=
  is_lower c || is_digit c || (code c =? 95)%nat.

Fixpoint all_chars (p : ascii -> bool) (s : string) : bool :=
  match s with
  | EmptyString => true
  | String c rest => p c && all_chars p rest
  end.

(** The entries are in descending order of their counts. *)
Definition by_count (x y : string * nat) : Prop := (snd y <= snd x)%nat.

Module KeywordsExample.
Definition pitch : list CombinedSegment :=
  [ {| speaker := "Salesperson";
       text := "Our laptop is fast. The LAPTOP has a warranty!";
       emotion := None; sentiment := None; start := 0; end_ := 4 |};
    {| speaker := "Customer";
       text := "Is the warranty two years? A laptop needs that.";
       emotion := None; sentiment := None; start := 4; end_ := 8 |} ].
End KeywordsExample.

(** What the loop keeps true of its variables. *)
Definition series_inv (st : graph_state) : Prop :=
  (exists emitted,
      points st = anchor :: emitted /\
      spaced (map value emitted) /\
      (Z.of_nat (List.length emitted) <= segmentCount st)%Z) /\
  Forall (fun p => (40 <= value p <= 80)%Z) (points st) /\
  (40 * segmentCount st <= cumulativeSentiment st <= 80 * segmentCount st)%Z
  /\ (0 <= segmentCount st)%Z.

(** The names of a registry are "Speaker A", "Speaker B", ... in the
    order of its entries, and no speaker has two entries. *)
Definition registry_inv (registry : list (string * string)) : Prop :=
  map snd registry = map speaker_label (seq 0 (List.length registry)) /\
  NoDup (map fst registry).

Module RegistryExample.
Definition arrivals : list string := ["Guest-2"; "Guest-1"; "Guest-2"].
End RegistryExample.

(** A coaching card carries one of the two tags. *)
Definition tagged (card : string) : Prop :=
  startsWith card "STRENGTH: " = true \/
  startsWith card "OPPORTUNITY: " = true.

Module QuestionExample.
Definition asked : list CombinedSegment :=
  [ {| speaker := "Customer";
       text := "What a day. Is the warranty two years?";
       emotion := None; sentiment := None; start := 0; end_ := 4 |} ].
End QuestionExample.

Module ConstantExample.
Definition steady : list CombinedSegment :=
  [ {| speaker := "Salesperson"; text := "Good morning";
       emotion := None; sentiment := Some "positive";
       start := 0; end_ := 2 |};
    {| speaker := "Customer"; text := "Good morning to you";
       emotion := None; sentiment := Some "positive";
       start := 2; end_ := 5 |};
    {| speaker := "Salesperson"; text := "Thank you for your time";
       emotion := None; sentiment := Some "positive";
       start := 5; end_ := 9 |} ].
End ConstantExample.
(** What a reader of the file gets back: [view.getUint16(offset, true)],
    [view.getInt16(offset, true)] and [view.getUint32(offset, true)]. *)
Fixpoint from_little_endian (bytes : list Z) : Z :=
  match bytes with
  | [] => 0
  | byte :: rest => byte + 256 * from_little_endian rest
  end%Z.

Definition bytes_at (view : list Z) (offset width : nat) : list Z :=
  firstn width (skipn offset view).

Definition getUint16 (view : list Z) (offset : nat) : Z :=
  from_little_endian (bytes_at view offset 2).

Definition getUint32 (view : list Z) (offset : nat) : Z :=
  from_little_endian (bytes_at view offset 4).

Definition getInt16 (view : list Z) (offset : nat) : Z :=
  let n := getUint16 view offset in
  if (n <? 32768)%Z then n else (n - 65536)%Z.

(** The character codes of a string. *)
Fixpoint char_codes (s : string) : list Z :=
  match s with
  | EmptyString => []
  | String c rest => Z.of_nat (code c) :: char_codes rest
  end.

(** The 44 bytes of the header, field by field. *)
Definition wav_header (buffer : AudioBuffer) : list Z :=
  let blockAlign := (numberOfChannels buffer * 2)%nat in
  let dataSize := (ab_length buffer * blockAlign)%nat in
  char_codes "RIFF"
  ++ little_endian 4 (to_uint 4 (num (36 + dataSize)))
  ++ char_codes "WAVE"
  ++ char_codes "fmt "
  ++ little_endian 4 (to_uint 4 (num 16))
  ++ little_endian 2 (to_uint 2 (num 1))
  ++ little_endian 2 (to_uint 2 (num (numberOfChannels buffer)))
  ++ little_endian 4 (to_uint 4 (sampleRate buffer))
  ++ little_endian 4 (to_uint 4 (sampleRate buffer * num blockAlign))
  ++ little_endian 2 (to_uint 2 (num blockAlign))
  ++ little_endian 2 (to_uint 2 (num 16))
  ++ char_codes "data"
  ++ little_endian 4 (to_uint 4 (num dataSize)).

(** The bytes of the samples: frame after frame, and the channels of a
    frame one after the other. *)
Definition sample_bytes (buffer : AudioBuffer) (i channel : nat) : list Z :=
  little_endian 2 (to_uint 2 (int16Sample (getChannelData buffer channel i))).

Definition frame_bytes (buffer : AudioBuffer) (i : nat) : list Z :=
  flat_map (sample_bytes buffer i) (seq 0 (numberOfChannels buffer)).

Definition pcm (buffer : AudioBuffer) : list Z :=
  flat_map (frame_bytes buffer) (seq 0 (ab_length buffer)).

Module WavExample.
(** Two frames of a stereo recording; the right channel is overdriven. *)
Definition clip : AudioBuffer :=
  {| numberOfChannels := 2;
     sampleRate := 8000;
     ab_length := 2;
     getChannelData := fun channel i =>
       match channel, i with
       | O, O => 1 # 2
       | O, _ => - (1 # 2)
       | _, O => 3 # 2
       | _, _ => - 2
       end |}.
End WavExample.

(** ** Speaker correction pass: the times of a split *)







Module DoubleExample.
End DoubleExample.

(* ================================================================== *)
(** * Properties *)

(* ------------------------------------------------------------------ *)
(** ** Numbers and lists *)

Lemma Qltb_lt (x y : Q) : Qltb x y = true <-> x < y.
Proof.
  unfold Qltb. rewrite negb_true_iff. split; intro H.
  - apply Qnot_le_lt. intro Hle. apply Qle_bool_iff in Hle. congruence.
  - destruct (Qle_bool y x) eqn:E; [exfalso | reflexivity].
    apply Qle_bool_iff in E. exact (Qlt_not_le _ _ H E).
Qed.

Lemma Qltb_ge (x y : Q) : Qltb x y = false <-> y <= x.
Proof.
  unfold Qltb. rewrite negb_false_iff. apply Qle_bool_iff.
Qed.

Section FindFirst.
Context {A : Type} (f : A -> bool).



(** An element that arrives later does not displace the first match. *)
Lemma find_app_some (l : list A) (x y : A) :
  find f l = Some x -> find f (l ++ [y]) = Some x.
Proof.
  induction l as [|z l IH]; simpl; [discriminate|].
  destruct (f z); auto.
Qed.
End FindFirst.

(* ------------------------------------------------------------------ *)
(** ** Segment merger *)



Lemma mergeSegments_nth az gs i a :
  nth_error az i = Some a ->
  nth_error (mergeSegments az gs) i = Some (merge_one gs a).
Proof.
  intros H. unfold mergeSegments. now apply map_nth_error.
Qed.





Lemma merge_cores az gs :
  map segment_core (mergeSegments az gs) = map event_core az.
Proof.
  unfold mergeSegments. rewrite map_map. apply map_ext. reflexivity.
Qed.

(** An annotation that is already attached stays attached when further
    annotations arrive. *)
Lemma merge_one_stable gs a g late :
  matchingGemini gs a = Some g ->
  merge_one (gs ++ [late]) a = merge_one gs a.
Proof.
  intros H. unfold merge_one, matchingGemini in *.
  now rewrite (find_app_some _ _ _ late H), H.
Qed.

(** C6: a run of the merge yields one combined segment per transcript
    event, in the order of the events, with the event's speaker, text,
    start and end copied; a further annotation in the pool changes
    neither the number, nor the order, nor these four fields of the
    segments, so it can only show in [emotion] and [sentiment]. *)
Theorem merge_one_segment_per_event :
  forall az gs,
    List.length (mergeSegments az gs) = List.length az /\
    map segment_core (mergeSegments az gs) = map event_core az /\
    forall g,
      List.length (mergeSegments az (gs ++ [g]))
        = List.length (mergeSegments az gs) /\
      map segment_core (mergeSegments az (gs ++ [g]))
        = map segment_core (mergeSegments az gs).
Proof.
  intros az gs. split; [|split].
  - unfold mergeSegments. apply length_map.
  - apply merge_cores.
  - intros g. split.
    + unfold mergeSegments. now rewrite !length_map.
    + now rewrite !merge_cores.
Qed.

(* ------------------------------------------------------------------ *)
(** ** Per-fragment annotation *)







(** With any reply at all, the handler completes normally. *)
Lemma analyzeTextWithGemini_never_throws strip_fences JSON_parse s fragment
    timestamp reply :
  exists s',
    analyzeTextWithGemini strip_fences JSON_parse s fragment timestamp reply
    = Ok s'.
Proof.
  unfold analyzeTextWithGemini.
  destruct (negb (geminiModel s) || (fragment =? "")%string
            || (String.length (trim fragment) <? 5)%nat); [eauto|].
  destruct reply as [|raw]; simpl; [eauto|].
  unfold annotate_parsed.
  destruct (JSON_parse (strip_fences raw)); simpl; eauto.
Qed.

(* ------------------------------------------------------------------ *)
(** ** Sorting *)

Section SortFacts.
Context {A : Type} (cmp : A -> A -> Z).

Lemma sort_insert_perm (x : A) (l : list A) :
  Permutation (sort_insert cmp x l) (x :: l).
Proof.
  induction l as [|y l IH]; simpl; [reflexivity|].
  destruct (0 <? cmp x y)%Z; [|reflexivity].
  rewrite IH. apply perm_swap.
Qed.

Lemma js_sort_perm (l : list A) : Permutation (js_sort cmp l) l.
Proof.
  induction l as [|x l IH]; simpl; [reflexivity|].
  rewrite sort_insert_perm. now constructor.
Qed.

(** The comparator subtracts the key of its first argument from the
    key of its second one. *)
Variable key : A -> Z.
Hypothesis cmp_key : forall x y, cmp x y = (key y - key x)%Z.

Lemma sort_insert_sorted (x : A) (l : list A) :
  StronglySorted (key_ge key) l ->
StronglySorted (key_ge key) (sort_insert cmp x l).
Proof.
  induction 1 as [|y l Hl IH Hy]; simpl.
  - repeat constructor.
  - rewrite cmp_key. destruct (0 <? key y - key x)%Z eqn:E.
    + apply Z.ltb_lt in E. constructor; [exact IH|].
      rewrite (sort_insert_perm x l). constructor; [|exact Hy].
      unfold key_ge. lia.
    + apply Z.ltb_ge in E. constructor; [now constructor|].
      constructor; [unfold key_ge; lia|].
      eapply Forall_impl; [|exact Hy]. unfold key_ge. intros z Hz. lia.
Qed.

Lemma js_sort_sorted (l : list A) :
StronglySorted (key_ge key) (js_sort cmp l).
Proof.
  induction l as [|x l IH]; simpl; [constructor|].
  now apply sort_insert_sorted.
Qed.
End SortFacts.

(* ------------------------------------------------------------------ *)
(** ** Speaker correction pass: splits *)

Lemma mapi_from_length {A B : Type} (f : nat -> A -> B) i l :
  List.length (mapi_from f i l) = List.length l.
Proof.
  revert i. induction l as [|x l IH]; intros i; simpl; [reflexivity|].
  now rewrite IH.
Qed.

Lemma mapi_from_map {A B C : Type} (f : nat -> A -> B) (g : B -> C)
    (h : A -> C) i l :
  (forall j x, g (f j x) = h x) ->
  map g (mapi_from f i l) = map h l.
Proof.
  intros H. revert i. induction l as [|x l IH]; intros i; simpl;
    [reflexivity|]. now rewrite H, IH.
Qed.

Lemma inject_succ (n : nat) :
  inject_Z (Z.of_nat (S n)) == inject_Z (Z.of_nat n) + 1.
Proof.
  rewrite Nat2Z.inj_succ. unfold Z.succ. rewrite inject_Z_plus. reflexivity.
Qed.

Lemma inject_nat_nonzero (k : nat) :
  (0 < k)%nat -> ~ inject_Z (Z.of_nat k) == 0.
Proof.
  intros Hk H. unfold Qeq in H. simpl in H. lia.
Qed.

Lemma sum_spans_parts o t i parts :
  sum_spans (mapi_from (split_part o t) i parts)
  == inject_Z (Z.of_nat (List.length parts)) * t.
Proof.
  revert i. induction parts as [|p parts IH]; intros i.
  - simpl. ring.
  - change (sum_spans (mapi_from (split_part o t) i (p :: parts)))
      with ((end_ (split_part o t i p) - start (split_part o t i p))
            + sum_spans (mapi_from (split_part o t) (S i) parts)).
    rewrite IH. change (List.length (p :: parts)) with (S (List.length parts)).
    rewrite inject_succ. unfold split_part. cbn [start end_]. ring.
Qed.

Lemma parts_cover o k t i parts :
  t = (end_ o - start o) / inject_Z (Z.of_nat k) ->
  Forall2 (covers o k) (mapi_from (split_part o t) i parts)
    (seq i (List.length parts)).
Proof.
  intros ->. revert i. induction parts as [|p parts IH]; intros i; simpl.
  - constructor.
  - constructor; [|apply IH].
    unfold covers, sub_interval. cbn [start end_ split_part fst snd].
    split; [reflexivity|]. rewrite inject_succ. reflexivity.
Qed.

(** The equal parts tile the span of [o]: the first starts where [o]
    starts, each ends where the next starts, the last ends where [o]
    ends. *)
Lemma sub_interval_tiles o k :
  (0 < k)%nat ->
  fst (sub_interval o k 0) == start o /\
  (forall i, snd (sub_interval o k i) = fst (sub_interval o k (S i))) /\
  snd (sub_interval o k (pred k)) == end_ o.
Proof.
  intros Hk. unfold sub_interval. cbn [fst snd]. split; [|split].
  - change (inject_Z (Z.of_nat 0)) with 0. ring.
  - reflexivity.
  - replace (S (pred k)) with k by lia.
    field. now apply inject_nat_nonzero.
Qed.

(** With exact times, that is, were no operation rounded: a split of the
    segment at an index of the transcript into [k >= 1] parts replaces
    that segment with [k] segments that carry the texts of the parts in
    their order; the [i]-th of them spans the [i]-th of [k] equal
    sub-intervals of the original span, and their spans add up to the
    original segment's [end - start].  The doubles of the source do not
    keep this exactly; the statements that follow are about them. *)
Theorem split_preserves_duration :
  forall segs split originalSeg,
    get segs (originalIndex split) = Some originalSeg ->
    segments split <> [] ->
    let k := List.length (segments split) in
    let news := newSegments originalSeg (segments split) in
    apply_split segs split
      = Ok (splice1 segs (Z.to_nat (originalIndex split)) news) /\
    List.length news = k /\
    map text news = map sp_text (segments split) /\
    Forall2 (covers originalSeg k) news (seq 0 k) /\
    sum_spans news == end_ originalSeg - start originalSeg.
Proof.
  intros segs sp o Hget Hne k news. subst k news.
  unfold apply_split. rewrite Hget. unfold newSegments, mapi.
  split; [reflexivity|]. split; [apply mapi_from_length|].
  split; [now apply mapi_from_map|].
  split; [now apply parts_cover|].
  rewrite sum_spans_parts.
  field. apply inject_nat_nonzero.
  destruct (segments sp); [congruence | simpl; lia].
Qed.

Lemma split_preserves_duration_witness :
  let k := List.length (segments SplitExample.asked) in
  let news := newSegments SplitExample.merged (segments SplitExample.asked) in
  apply_split [SplitExample.opening; SplitExample.merged] SplitExample.asked
    = Ok (splice1 [SplitExample.opening; SplitExample.merged]
            (Z.to_nat (originalIndex SplitExample.asked)) news) /\
  List.length news = k /\
  map text news = map sp_text (segments SplitExample.asked) /\
  Forall2 (covers SplitExample.merged k) news (seq 0 k) /\
  sum_spans news == end_ SplitExample.merged - start SplitExample.merged.
Proof.
  apply (split_preserves_duration
           [SplitExample.opening; SplitExample.merged] SplitExample.asked
           SplitExample.merged).
  - reflexivity.
  - discriminate.
Defined.

(* ------------------------------------------------------------------ *)
(** ** Speaker correction pass: the times of a split, in doubles *)








(** The splits are processed in descending order of their target index,
    and each of them exactly once. *)
Lemma splits_descending (sps : list Split) :
  StronglySorted (key_ge originalIndex) (js_sort by_index_desc sps) /\
  Permutation (js_sort by_index_desc sps) sps.
Proof.
  split; [|apply js_sort_perm].
  apply js_sort_sorted. reflexivity.
Qed.

(** A split into [k] parts moves every later segment [k - 1] places
    further: what stood at index [j] behind the split stands at
    [j - 1 + k] afterwards. *)
Lemma splice1_shifts {A : Type} (arr : list A) (i j : nat) (items : list A) :
  (i < j)%nat -> (i < List.length arr)%nat ->
  nth_error (splice1 arr i items) (j - 1 + List.length items)
  = nth_error arr j.
Proof.
  intros Hij Hi. unfold splice1.
  rewrite nth_error_app2; rewrite length_firstn, Nat.min_l by lia; [|lia].
  rewrite nth_error_app2 by lia.
  rewrite nth_error_skipn. f_equal. lia.
Qed.

(* ------------------------------------------------------------------ *)
(** ** Speaker correction pass: reassignments *)

Lemma correct_one_frame cs idx seg : frame (correct_one cs idx seg) = frame seg.
Proof.
  unfold correct_one.
  destruct (find (fun c => (index c =? Z.of_nat idx)%Z) cs); reflexivity.
Qed.

Lemma map_role_frame m seg : frame (map_role m seg) = frame seg.
Proof.
  unfold map_role. destruct (is_role (speaker seg)); reflexivity.
Qed.

Lemma mapi_from_nth {A B : Type} (f : nat -> A -> B) l :
  forall i n x,
    nth_error l n = Some x ->
    nth_error (mapi_from f i l) n = Some (f (i + n)%nat x).
Proof.
  induction l as [|y l IH]; intros i n x H.
  - destruct n; discriminate.
  - destruct n as [|n]; simpl in *.
    + injection H as ->. now rewrite Nat.add_0_r.
    + rewrite (IH (S i) n x H). f_equal. f_equal. lia.
Qed.

(** The correction applied at a position is read off that position in
    the array handed to the reassignment step. *)
Lemma apply_corrections_nth cs segs idx seg :
  nth_error segs idx = Some seg ->
  nth_error (apply_corrections cs segs) idx = Some (correct_one cs idx seg).
Proof.
  intros H. unfold apply_corrections, mapi.
  now rewrite (mapi_from_nth _ _ 0%nat idx seg H).
Qed.

Lemma apply_corrections_frame cs segs :
  map frame (apply_corrections cs segs) = map frame segs.
Proof.
  unfold apply_corrections, mapi.
  apply mapi_from_map. intros j x. apply correct_one_frame.
Qed.

Lemma mapi_from_Forall2 {A B : Type} (P : A -> B -> Prop)
    (f : nat -> A -> B) l :
  (forall j x, P x (f j x)) ->
  forall i, Forall2 P l (mapi_from f i l).
Proof.
  intros H. induction l as [|x l IH]; intros i; simpl; constructor; auto.
Qed.

Lemma correct_one_cases cs idx seg :
  relabelled cs seg (correct_one cs idx seg).
Proof.
  unfold relabelled, correct_one.
  destruct (find (fun c => (index c =? Z.of_nat idx)%Z) cs) as [c|] eqn:E.
  - right. exists c. split; [|reflexivity]. now apply find_some in E.
  - now left.
Qed.

(** C10: the reassignment step returns as many segments as it is given;
    each is the segment that stood at its position, as it was or with the
    speaker of one of the corrections, so its text, emotion, sentiment,
    start and end are those it had before the step. *)
Theorem reassignment_changes_speaker_only :
  forall cs segs,
    List.length (apply_corrections cs segs) = List.length segs /\
    Forall2 (relabelled cs) segs (apply_corrections cs segs) /\
    map frame (apply_corrections cs segs) = map frame segs.
Proof.
  intros cs segs. split; [|split].
  - unfold apply_corrections, mapi. apply mapi_from_length.
  - unfold apply_corrections, mapi. apply mapi_from_Forall2.
    intros j x. apply correct_one_cases.
  - apply apply_corrections_frame.
Qed.

(** The fallback that maps the remaining raw labels to roles changes
    speakers only, too. *)
Lemma residual_roles_frame segs :
  map frame (residual_roles segs) = map frame segs.
Proof.
  unfold residual_roles. rewrite map_map. apply map_ext.
  intros seg. apply map_role_frame.
Qed.

(** A response without splits leaves every segment in place, whatever
    its reassignments. *)
Lemma apply_response_without_splits segs cs :
  exists out,
    apply_response segs {| corrections := cs; splits := None |} = Ok out /\
    map frame out = map frame segs.
Proof.
  unfold apply_response. simpl. eexists. split; [reflexivity|].
  rewrite residual_roles_frame.
  destruct cs as [[|c cs]|]; try reflexivity.
  apply apply_corrections_frame.
Qed.

(** Whatever the model call and the parser do, the pass completes
    normally; when anything in it throws, the segments come back as they
    were given. *)
Lemma correctSpeakerIdentification_total strip_fences parse_response segs
    reply :
  exists out,
    correctSpeakerIdentification strip_fences parse_response segs reply
    = Ok out.
Proof.
  unfold correctSpeakerIdentification.
  destruct segs as [|seg segs]; [eauto|].
  destruct reply as [|raw]; simpl; [eauto|].
  destruct (parse_response (strip_fences raw)) as [response|]; simpl;
    [|eauto].
  destruct (apply_response (seg :: segs) response); simpl; eauto.
Qed.

(** C3 at a response with a split before a reassigned index: the
    reassignment of index 1 lands on the segment that stands at position 1
    after the split, the second part of the split, and the segment that
    had index 1 in the transcript keeps its speaker. *)
Theorem reassignment_lands_on_shifted_position :
  exists out,
    apply_response ReassignExample.before ReassignExample.response = Ok out /\
    map ReassignExample.label out =
      [ ("Customer", "What product?");
        ("Customer", "It is a laptop.");
        ("Salesperson", "I have many laptops.") ].
Proof.
  eexists. split; [reflexivity|]. reflexivity.
Qed.

(* ------------------------------------------------------------------ *)
(** ** Metrics aggregator: engagement *)

Lemma normalized_range (wpm : Q) : 0 <= normalized wpm <= 1.
Proof.
  unfold normalized. split.
  - apply Q.min_glb; [discriminate | apply Q.le_max_l].
  - apply Q.le_min_l.
Qed.

Lemma Math_round_range (x : Q) (lo hi : Z) :
  inject_Z lo <= x -> x <= inject_Z hi -> (lo <= Math_round x <= hi)%Z.
Proof.
  intros Hlo Hhi. unfold Math_round. split.
  - rewrite <- (Qfloor_Z lo). apply Qfloor_resp_le. lra.
  - apply Z.lt_succ_r. unfold Z.succ. rewrite Zlt_Qlt.
    eapply Qle_lt_trans; [apply Qfloor_le|].
    rewrite inject_Z_plus. change (inject_Z 1) with 1. lra.
Qed.

Lemma engagement_of_bounds (wpm : jsnum) :
  (wpm_positive wpm -> (20 <= engagement_of wpm <= 95)%Z) /\
  (wpm_zero wpm -> engagement_of wpm = 50%Z).
Proof.
  destruct wpm as [q| |]; simpl; split; try tauto.
  - intros Hq. apply Qltb_lt in Hq. rewrite Hq.
    pose proof (normalized_range q) as [H0 H1].
    apply Math_round_range.
    + change (inject_Z 20) with 20. nra.
    + change (inject_Z 95) with 95. nra.
  - intros Hq. assert (H : Qltb 0 q = false).
    { apply Qltb_ge. rewrite Hq. discriminate. }
    now rewrite H.
  - intros _. vm_compute. split; discriminate.
Qed.

(** Whenever [wordsPerMinute > 0] is false, the default stays. *)
Lemma engagement_of_default (wpm : jsnum) :
  ~ wpm_positive wpm -> engagement_of wpm = 50%Z.
Proof.
  destruct wpm as [q| |]; simpl; intros H; try tauto.
  destruct (Qltb 0 q) eqn:E; [|reflexivity].
  apply Qltb_lt in E. contradiction.
Qed.

(** C5: for every segment sequence the engagement score lies in [20, 95]
    when the words-per-minute value is positive, and is 50 when that
    value is zero. *)
Theorem engagement_bounds :
  forall segs,
    (wpm_positive (wordsPerMinute segs) ->
     (20 <= engagement segs <= 95)%Z) /\
    (wpm_zero (wordsPerMinute segs) -> engagement segs = 50%Z).
Proof.
  intros segs. apply engagement_of_bounds.
Qed.

Lemma engagement_bounds_witness :
  (20 <= engagement EngagementExample.brisk <= 95)%Z /\
  engagement EngagementExample.silent = 50%Z.
Proof.
  split.
  - apply (proj1 (engagement_bounds EngagementExample.brisk)).
    vm_compute. reflexivity.
  - apply (proj2 (engagement_bounds EngagementExample.silent)).
    vm_compute. reflexivity.
Defined.

(* ------------------------------------------------------------------ *)
(** ** Metrics aggregator: sentiment time series *)

Lemma graph_step_head i seg st r :
  points st = anchor :: r ->
  exists r', points (graph_step i seg st) = anchor :: r'.
Proof.
  intros H. unfold graph_step.
  destruct (truthy (sentiment seg)); [|eauto]. cbn [points].
  destruct ((i mod 2 =? 0)%nat || (List.length (points st) =? 1)%nat);
    [|eauto].
  destruct (emits _ _); [|eauto].
  rewrite H. simpl. eauto.
Qed.

Lemma graph_loop_head segs :
  forall i st r,
    points st = anchor :: r ->
    exists r', points (graph_loop i segs st) = anchor :: r'.
Proof.
  induction segs as [|seg segs IH]; intros i st r H; simpl; [eauto|].
  destruct (graph_step_head i seg st r H) as [r' H'].
  exact (IH (S i) _ r' H').
Qed.

(** The series of the current hook is never empty and starts with the
    anchor, for every segment sequence. *)
Lemma sentiment_series_starts_with_anchor (segs : list CombinedSegment) :
  exists rest, generateSentimentGraph segs = anchor :: rest.
Proof.
  unfold generateSentimentGraph.
  apply (graph_loop_head segs 0%nat graph_init []). reflexivity.
Qed.

Lemma score_not_50 (label : option string) : score label <> 50%Z.
Proof.
  unfold score.
  destruct label as [s|]; [|discriminate].
  destruct (String.eqb s "positive") eqn:E1.
  - apply String.eqb_eq in E1. subst. discriminate.
  - destruct (String.eqb s "neutral") eqn:E2.
    + apply String.eqb_eq in E2. subst. discriminate.
    + assert (H : match s with
                  | "positive" => 80%Z
                  | "neutral" => 60%Z
                  | _ => 40%Z
                  end = 40%Z \/ s = "positive" \/ s = "neutral").
      { clear. repeat
          (match goal with
           | |- context [match ?x with EmptyString => _ | String _ _ => _ end] =>
               destruct x
           | |- context [match ?x with Ascii _ _ _ _ _ _ _ _ => _ end] =>
               destruct x
           | |- context [if ?b then _ else _] => destruct b
           end; auto). }
      destruct H as [-> | [-> | ->]]; discriminate.
Qed.

(** C8 holds for the series of the current hook and fails for the
    earlier sampler of [src/hooks/useSalesCoach.tsx]: the current series
    is never empty and starts with the anchor; the earlier one is empty
    for an empty transcript, and otherwise starts with the point of the
    first segment, whose value is 80, 60 or 40 and so is not the
    anchor. *)
Theorem anchor_missing_from_legacy_series :
  (forall segs, exists rest, generateSentimentGraph segs = anchor :: rest) /\
  generateSentimentGraph_legacy [] = [] /\
  forall seg rest,
    exists more,
      generateSentimentGraph_legacy (seg :: rest) = legacy_point seg :: more /\
      legacy_point seg <> anchor.
Proof.
  split; [exact sentiment_series_starts_with_anchor|].
  split; [reflexivity|]. intros seg rest. simpl. eexists.
  split; [reflexivity|].
  intros H. apply (f_equal value) in H. simpl in H.
  exact (score_not_50 _ H).
Qed.

(** *** The emission rule *)

Lemma graph_loop_app l1 :
  forall l2 i st,
    graph_loop i (l1 ++ l2) st
    = graph_loop (i + List.length l1) l2 (graph_loop i l1 st).
Proof.
  induction l1 as [|x l1 IH]; intros l2 i st; simpl.
  - now rewrite Nat.add_0_r.
  - rewrite IH. f_equal. lia.
Qed.

Lemma firstn_snoc {A : Type} (l : list A) :
  forall i x, nth_error l i = Some x -> firstn (S i) l = firstn i l ++ [x].
Proof.
  induction l as [|y l IH]; intros [|i] x H; try discriminate.
  - simpl in *. congruence.
  - simpl in H. change (firstn (S (S i)) (y :: l)) with (y :: firstn (S i) l).
    now rewrite (IH i x H).
Qed.

Lemma state_step segs i seg :
  nth_error segs i = Some seg ->
  state_before segs (S i) = graph_step i seg (state_before segs i).
Proof.
  intros H. unfold state_before. rewrite (firstn_snoc segs i seg H).
  rewrite graph_loop_app. simpl.
  rewrite length_firstn, Nat.min_l; [reflexivity|].
  apply Nat.lt_le_incl. apply nth_error_Some. congruence.
Qed.

Lemma sum_scores_app l1 l2 :
  sum_scores (l1 ++ l2) = (sum_scores l1 + sum_scores l2)%Z.
Proof.
  induction l1 as [|x l1 IH]; simpl; [reflexivity|]. rewrite IH. lia.
Qed.

Lemma bearing_snoc seen seg :
  bearing (seen ++ [seg])
  = bearing seen ++ (if truthy (sentiment seg) then [seg] else []).
Proof.
  unfold bearing. rewrite filter_app. simpl.
  destruct (truthy (sentiment seg)); reflexivity.
Qed.

Lemma graph_step_inv seen i seg st :
  graph_inv seen st -> graph_inv (seen ++ [seg]) (graph_step i seg st).
Proof.
  intros (Hc & Hn & Hp). unfold graph_inv, graph_step.
  rewrite bearing_snoc.
  destruct (truthy (sentiment seg)); [|now rewrite app_nil_r].
  cbn [cumulativeSentiment segmentCount points].
  rewrite sum_scores_app, length_app. simpl.
  split; [lia|]. split; [lia|].
  assert (Hmany : (2 <= List.length
                     (if (i mod 2 =? 0)%nat
                         || (List.length (points st) =? 1)%nat
                      then
                        if emits (points st)
                             (currentAvg
                                (cumulativeSentiment st + score (sentiment seg))
                                (segmentCount st + 1))
                        then points st ++
                             [{| time := formatTime (start seg);
                                 value :=
                                   currentAvg
                                     (cumulativeSentiment st
                                      + score (sentiment seg))
                                     (segmentCount st + 1) |}]
                        else points st
                      else points st))%nat).
  { unfold emits.
    destruct (List.length (points st) =? 1)%nat eqn:E.
    - rewrite orb_true_r. simpl. rewrite length_app. simpl.
      apply Nat.eqb_eq in E. lia.
    - apply Nat.eqb_neq in E.
      assert (H2 : (2 <= List.length (points st))%nat).
      { destruct (bearing seen); [contradiction | exact Hp]. }
      destruct ((i mod 2 =? 0)%nat || false); [|exact H2].
      destruct (false || _); [|exact H2].
      rewrite length_app. lia. }
  destruct (bearing seen); exact Hmany.
Qed.

Lemma graph_init_inv : graph_inv [] graph_init.
Proof. repeat split. Qed.

Lemma state_before_inv segs :
  forall i, (i <= List.length segs)%nat ->
            graph_inv (firstn i segs) (state_before segs i).
Proof.
  induction i as [|i IH]; intros Hi.
  - apply graph_init_inv.
  - destruct (nth_error segs i) as [seg|] eqn:E.
    + rewrite (state_step segs i seg E), (firstn_snoc segs i seg E).
      apply graph_step_inv. apply IH. lia.
    + apply nth_error_None in E. lia.
Qed.

(** C4 (amended): the iteration at position [i] of the segment sequence
    pushes a point exactly when the segment there carries a sentiment
    and either no earlier segment carries one (the first
    sentiment-bearing segment always follows the anchor with a point), or
    [i] is even, counted over all segments, and the rounded running
    average differs from the value of the last emitted point by more
    than 10. *)
Theorem sentiment_point_emission :
  forall segs i seg,
    nth_error segs i = Some seg ->
    emitted_at segs i
    = truthy (sentiment seg)
      && (none_before segs i || ((i mod 2 =? 0)%nat && moved segs i)).
Proof.
  intros segs i seg Hseg.
  assert (Hi : (i <= List.length segs)%nat).
  { apply Nat.lt_le_incl. apply nth_error_Some. congruence. }
  destruct (state_before_inv segs i Hi) as (Hc & Hn & Hp).
  unfold emitted_at, moved, running_avg, last_value, none_before.
  rewrite (state_step segs i seg Hseg), (firstn_snoc segs i seg Hseg).
  rewrite bearing_snoc. unfold graph_step, emits.
  generalize (i mod 2 =? 0)%nat as even_index. intros even_index.
  destruct (truthy (sentiment seg)); cbn [andb];
    [|now rewrite Nat.eqb_refl].
  cbn [points]. rewrite sum_scores_app, length_app.
  cbn [sum_scores List.length].
  replace (Z.of_nat (List.length (bearing (firstn i segs)) + 1))
    with (segmentCount (state_before segs i) + 1)%Z by lia.
  replace (sum_scores (bearing (firstn i segs))
           + (score (sentiment seg) + 0))%Z
    with (cumulativeSentiment (state_before segs i)
          + score (sentiment seg))%Z by lia.
  set (st := state_before segs i) in *.
  set (avg := currentAvg _ _).
  destruct (bearing (firstn i segs)) as [|b bs].
  - rewrite Hp. cbn [Nat.eqb List.length orb]. rewrite orb_true_r.
    rewrite length_app, Hp. reflexivity.
  - assert (E : (List.length (points st) =? 1)%nat = false).
    { apply Nat.eqb_neq. lia. }
    rewrite E. cbn [Nat.eqb List.length orb]. rewrite orb_false_r.
    destruct even_index; cbn [andb].
    + destruct (10 <? Z.abs (avg - value (last (points st) anchor)))%Z.
      * rewrite length_app. cbn [List.length].
        apply negb_true_iff. apply Nat.eqb_neq. lia.
      * now rewrite Nat.eqb_refl.
    + now rewrite Nat.eqb_refl.
Qed.

(** C4 (as stated) fails: at the second of four sentiment-bearing
    segments (position 1) the running average, 60, is 20 away from the
    last emitted value, 80, and the segment is a second one, yet no
    point is pushed. *)
Lemma emission_not_on_either_trigger :
  exists segs i seg,
    nth_error segs i = Some seg /\
    truthy (sentiment seg) = true /\
    none_before segs i = false /\
    moved segs i = true /\
    every_second segs i = true /\
    emitted_at segs i = false.
Proof.
  exists SeriesExample.turns, 1%nat, (SeriesExample.said "negative" 1).
  repeat split; vm_compute; reflexivity.
Qed.

Lemma sentiment_point_emission_witness :
  emitted_at SeriesExample.turns 2
  = truthy (sentiment (SeriesExample.said "negative" 2))
    && (none_before SeriesExample.turns 2
        || ((2 mod 2 =? 0)%nat && moved SeriesExample.turns 2)).
Proof.
  apply (sentiment_point_emission SeriesExample.turns 2
           (SeriesExample.said "negative" 2)).
  reflexivity.
Defined.

(** In the example the series is the anchor, the first segment and the
    third one. *)
Example series_of_turns :
  map value (generateSentimentGraph SeriesExample.turns) = [50; 80; 53]%Z.
Proof. vm_compute. reflexivity. Qed.

(* ------------------------------------------------------------------ *)
(** ** Keyword extraction *)

Lemma own_set_own t w v k :
  own (set_own t w v) k = if (w =? k)%string then Some v else own t k.
Proof.
  induction t as [|[k' v'] t IH]; simpl; [reflexivity|].
  destruct (k' =? w)%string eqn:E; simpl.
  - apply String.eqb_eq in E. subst k'.
    destruct (w =? k)%string; reflexivity.
  - rewrite IH. destruct (k' =? k)%string eqn:E1;
      destruct (w =? k)%string eqn:E2; try reflexivity.
    apply String.eqb_eq in E1, E2. subst. rewrite String.eqb_refl in E.
    discriminate.
Qed.

Lemma keys_set_own t w v x :
  In x (keys (set_own t w v)) -> x = w \/ In x (keys t).
Proof.
  induction t as [|[k' v'] t IH]; simpl.
  - intros [<- | []]. now left.
  - destruct (k' =? w)%string; simpl; [tauto|].
    intros [<- | H]; [tauto|]. destruct (IH H); tauto.
Qed.

Lemma set_own_NoDup t w v : NoDup (keys t) -> NoDup (keys (set_own t w v)).
Proof.
  induction t as [|[k' v'] t IH]; simpl; intros H.
  - repeat constructor. intros [].
  - inversion H as [|? ? Hnot Hnd]; subst.
    destruct (k' =? w)%string eqn:E; simpl; [now constructor|].
    constructor; [|now apply IH].
    intros Hin. apply keys_set_own in Hin. destruct Hin as [-> | Hin].
    + rewrite String.eqb_refl in E. discriminate.
    + contradiction.
Qed.

Lemma count_word_NoDup t w : NoDup (keys t) -> NoDup (keys (count_word t w)).
Proof.
  intros H. unfold count_word.
  destruct (w =? "__proto__")%string; [exact H|].
  destruct (own t w) as [[n|]|]; try now apply set_own_NoDup.
  destruct (w =? "constructor")%string; now apply set_own_NoDup.
Qed.

Lemma own_In t k v :
  NoDup (keys t) -> (In (k, v) t <-> own t k = Some v).
Proof.
  induction t as [|[k' v'] t IH]; simpl; intros H.
  - split; [tauto | discriminate].
  - inversion H as [|? ? Hnot Hnd]; subst.
    destruct (k' =? k)%string eqn:E.
    + apply String.eqb_eq in E. subst k'. split.
      * intros [[= ->] | Hin]; [reflexivity|].
        exfalso. apply Hnot. change k with (fst (k, v)). now apply in_map.
      * intros [= ->]. now left.
    + apply String.eqb_neq in E. rewrite <- (IH Hnd). split.
      * intros [[= -> _] | Hin]; [congruence | exact Hin].
      * tauto.
Qed.

Lemma occurrences_snoc ws w k :
  occurrences (ws ++ [w]) k
  = (occurrences ws k + if (w =? k)%string then 1 else 0)%nat.
Proof.
  unfold occurrences. rewrite count_occ_app. simpl.
  destruct (string_dec w k) as [->|Hne].
  - now rewrite String.eqb_refl.
  - apply String.eqb_neq in Hne. now rewrite Hne.
Qed.

Lemma count_word_expected t ws w :
  (forall k, own t k = expected ws k) ->
  forall k, own (count_word t w) k = expected (ws ++ [w]) k.
Proof.
  intros Ht k. unfold count_word.
  destruct (w =? "__proto__")%string eqn:Ep.
  - apply String.eqb_eq in Ep. subst w. rewrite Ht. unfold expected.
    rewrite occurrences_snoc.
    destruct (k =? "__proto__")%string eqn:E; [reflexivity|].
    rewrite String.eqb_sym in E. rewrite E. now rewrite Nat.add_0_r.
  - assert (Hv : own (match own t w with
                      | Some (Count n) => set_own t w (Count (n + 1))
                      | Some Text => set_own t w Text
                      | None =>
                          if (w =? "constructor")%string
                          then set_own t w Text
                          else set_own t w (Count 1)
                      end) k
                 = if (w =? k)%string
                   then (if (w =? "constructor")%string then Some Text
                         else Some (Count (occurrences ws w + 1)))
                   else own t k).
    { rewrite (Ht w). unfold expected. rewrite Ep.
      destruct (occurrences ws w =? 0)%nat eqn:E0.
      - apply Nat.eqb_eq in E0. rewrite E0.
        destruct (w =? "constructor")%string; apply own_set_own.
      - destruct (w =? "constructor")%string; apply own_set_own. }
    rewrite Hv. clear Hv. unfold expected. rewrite occurrences_snoc.
    destruct (w =? k)%string eqn:E.
    + apply String.eqb_eq in E. subst k. rewrite Ep.
      replace (occurrences ws w + 1 =? 0)%nat with false
        by (symmetry; apply Nat.eqb_neq; lia).
      reflexivity.
    + rewrite Ht. unfold expected. now rewrite Nat.add_0_r.
Qed.

Lemma count_all_from ws :
  forall t seen,
    NoDup (keys t) ->
    (forall k, own t k = expected seen k) ->
    NoDup (keys (fold_left count_word ws t)) /\
    forall k, own (fold_left count_word ws t) k = expected (seen ++ ws) k.
Proof.
  induction ws as [|w ws IH]; intros t seen Hnd Ht; simpl.
  - rewrite app_nil_r. auto.
  - replace (seen ++ w :: ws) with ((seen ++ [w]) ++ ws)
      by (rewrite <- app_assoc; reflexivity).
    apply IH; [now apply count_word_NoDup | now apply count_word_expected].
Qed.

(** The table after counting: one entry per name, holding what
    [expected] says. *)
Lemma count_all_spec ws :
  NoDup (keys (count_all ws)) /\
  forall k v, In (k, v) (count_all ws) <-> expected ws k = Some v.
Proof.
  destruct (count_all_from ws [] []) as [Hnd Hown].
  - constructor.
  - intros k. unfold expected. simpl.
    destruct (k =? "__proto__")%string; reflexivity.
  - split; [exact Hnd|]. intros k v. unfold count_all.
    rewrite (own_In _ k v Hnd). rewrite Hown. reflexivity.
Qed.

Lemma frequent_In t k n :
  In (k, n) (frequent t) <-> In (k, Count n) t /\ (2 <= n)%nat.
Proof.
  induction t as [|[k' [m|]] t IH]; cbn [frequent In].
  - tauto.
  - destruct (2 <=? m)%nat eqn:E.
    + apply Nat.leb_le in E. cbn [In]. split.
      * intros [[= -> ->] | H]; [auto|]. apply IH in H. tauto.
      * intros [[[= -> ->] | H1] H2]; [auto|]. right. apply IH. auto.
    + apply Nat.leb_gt in E. split.
      * intros H. apply IH in H. tauto.
      * intros [[[= -> ->] | H1] H2]; [lia|]. apply IH. auto.
  - split.
    + intros H. apply IH in H. tauto.
    + intros [[H | H1] H2]; [discriminate|]. apply IH. auto.
Qed.

Lemma frequent_keys t x : In x (map fst (frequent t)) -> In x (keys t).
Proof.
  intros H. apply in_map_iff in H. destruct H as ([k n] & <- & Hin).
  apply frequent_In in Hin. destruct Hin as [Hin _].
  apply in_map_iff. exists (k, Count n). auto.
Qed.

Lemma frequent_NoDup t : NoDup (keys t) -> NoDup (map fst (frequent t)).
Proof.
  induction t as [|[k' [m|]] t IH]; cbn [frequent keys map fst]; intros H.
  - constructor.
  - inversion H as [|? ? Hnot Hnd]; subst.
    destruct (2 <=? m)%nat; cbn [map fst]; auto.
    constructor; auto. intros Hin. apply Hnot. now apply frequent_keys.
  - inversion H as [|? ? Hnot Hnd]; subst. auto.
Qed.

Lemma occurrences_filter (f : string -> bool) l k :
  occurrences (filter f l) k = if f k then occurrences l k else 0%nat.
Proof.
  unfold occurrences. induction l as [|x l IH]; simpl.
  - now destruct (f k).
  - destruct (f x) eqn:Ex; simpl; destruct (string_dec x k) as [->|Hne].
    + rewrite IH, Ex. reflexivity.
    + exact IH.
    + rewrite IH, Ex. reflexivity.
    + exact IH.
Qed.

Lemma In_firstn {A : Type} (n : nat) (l : list A) x :
  In x (firstn n l) -> In x l.
Proof.
  intros H. rewrite <- (firstn_skipn n l). apply in_or_app. now left.
Qed.

Lemma In_skipn {A : Type} (n : nat) (l : list A) x :
  In x (skipn n l) -> In x l.
Proof.
  intros H. rewrite <- (firstn_skipn n l). apply in_or_app. now right.
Qed.

(** In a sorted array every element of a prefix is ranked at least as
    high as every element behind the prefix. *)
Lemma sorted_prefix_dominates {A : Type} (R : A -> A -> Prop) l :
  StronglySorted R l ->
  forall n x y, In x (firstn n l) -> In y (skipn n l) -> R x y.
Proof.
  induction 1 as [|a l Hl IH Ha]; intros n x y Hx Hy.
  - destruct n; contradiction.
  - destruct n as [|n]; [contradiction|]. simpl in Hx, Hy.
    destruct Hx as [<- | Hx].
    + rewrite Forall_forall in Ha. apply Ha. now apply In_skipn in Hy.
    + exact (IH n x y Hx Hy).
Qed.

Lemma ranked_In segs k n :
  In (k, n) (ranked segs) <-> expected (words segs) k = Some (Count n)
                              /\ (2 <= n)%nat.
Proof.
  unfold ranked. destruct (count_all_spec (words segs)) as [_ Hspec].
  rewrite <- Hspec, <- frequent_In. split; intros H.
  - eapply Permutation_in; [apply js_sort_perm | exact H].
  - eapply Permutation_in; [symmetry; apply js_sort_perm | exact H].
Qed.

Lemma expected_count ws k n :
  expected ws k = Some (Count n) ->
  ~ inherited k /\ n = occurrences ws k /\ (0 < n)%nat.
Proof.
  unfold expected, inherited.
  destruct (k =? "__proto__")%string eqn:Ep; [discriminate|].
  destruct (occurrences ws k =? 0)%nat eqn:E0; [discriminate|].
  destruct (k =? "constructor")%string eqn:Ec; [discriminate|].
  intros [= <-]. apply String.eqb_neq in Ep, Ec. apply Nat.eqb_neq in E0.
  repeat split; [tauto | lia].
Qed.

Lemma expected_of_word ws k :
  ~ inherited k -> (0 < occurrences ws k)%nat ->
  expected ws k = Some (Count (occurrences ws k)).
Proof.
  unfold expected, inherited. intros Hk Hocc.
  destruct (k =? "__proto__")%string eqn:Ep;
    [apply String.eqb_eq in Ep; tauto|].
  destruct (occurrences ws k =? 0)%nat eqn:E0;
    [apply Nat.eqb_eq in E0; lia|].
  destruct (k =? "constructor")%string eqn:Ec;
    [apply String.eqb_eq in Ec; tauto|].
  reflexivity.
Qed.

(** X1: for every segment sequence, a key of the returned map is no
    stop word, has at least 2 characters, is not a numeral, and is
    mapped to its number of occurrences among the pieces of the
    lower-cased, punctuation-stripped transcript, which is at least 2. *)
Lemma extractKeywords_sound segs k n :
  In (k, n) (extractKeywords segs) ->
  is_stop_word k = false /\ (2 <= String.length k)%nat /\
  is_numeric k = false /\
  n = occurrences (tokens segs) k /\ (2 <= n)%nat.
Proof.
  intros H. apply In_firstn in H. apply ranked_In in H.
  destruct H as [He H2]. apply expected_count in He.
  destruct He as (_ & Hn & Hpos). unfold words in Hn.
  rewrite occurrences_filter in Hn.
  destruct (keep_word k) eqn:Ek; [|lia].
  unfold keep_word in Ek.
  apply andb_true_iff in Ek. destruct Ek as [Ek Enum].
  apply andb_true_iff in Ek. destruct Ek as [Elen Estop].
  apply negb_true_iff in Enum, Estop. apply Nat.leb_le in Elen. auto.
Qed.

(** The returned map has at most 30 entries, and no key twice. *)
Lemma extractKeywords_size segs :
  (List.length (extractKeywords segs) <= 30)%nat /\
  NoDup (map fst (extractKeywords segs)).
Proof.
  unfold extractKeywords. split; [apply firstn_le_length|].
  fold (ranked segs).
  assert (Hnd : NoDup (map fst (ranked segs))).
  { unfold ranked.
    eapply Permutation_NoDup;
      [apply Permutation_map; symmetry; apply js_sort_perm|].
    apply frequent_NoDup. apply count_all_spec. }
  rewrite <- (firstn_skipn 30 (ranked segs)), map_app in Hnd.
  now apply NoDup_app_remove_r in Hnd.
Qed.

(** X2: a word that passes the filter, occurs at least twice and is not
    an inherited name is in the returned map, unless the map is full
    with 30 entries that all occur at least as often. *)
Lemma extractKeywords_top segs k :
  keep_word k = true ->
  (2 <= occurrences (tokens segs) k)%nat ->
  ~ inherited k ->
  In (k, occurrences (tokens segs) k) (extractKeywords segs) \/
  (List.length (extractKeywords segs) = 30%nat /\
   forall k' n', In (k', n') (extractKeywords segs) ->
                 (occurrences (tokens segs) k <= n')%nat).
Proof.
  intros Hkeep Hocc Hk. set (n := occurrences (tokens segs) k) in *.
  assert (Hin : In (k, n) (ranked segs)).
  { apply ranked_In. split; [|exact Hocc].
    assert (Hw : occurrences (words segs) k = n).
    { unfold words. now rewrite occurrences_filter, Hkeep. }
    rewrite <- Hw. apply expected_of_word; [exact Hk | lia]. }
  unfold extractKeywords. fold (ranked segs).
  assert (Hdec : forall a b : string * nat, {a = b} + {a <> b}).
  { decide equality; [apply Nat.eq_dec | apply string_dec]. }
  destruct (in_dec Hdec (k, n) (firstn 30 (ranked segs))) as [Hf|Hf];
    [now left | right].
  assert (Hs : In (k, n) (skipn 30 (ranked segs))).
  { rewrite <- (firstn_skipn 30 (ranked segs)) in Hin.
    apply in_app_or in Hin. tauto. }
  split.
  - apply firstn_length_le.
    destruct (Nat.le_gt_cases 30 (List.length (ranked segs))) as [?|Hlt];
      [assumption|].
    rewrite skipn_all2 in Hs by lia. contradiction.
  - intros k' n' Hin'.
    assert (Hsorted :
              StronglySorted (key_ge (fun x : string * nat => Z.of_nat (snd x)))
                (ranked segs)).
    { unfold ranked. apply js_sort_sorted. reflexivity. }
    pose proof (sorted_prefix_dominates _ _ Hsorted 30%nat _ _ Hin' Hs) as H.
    unfold key_ge in H. simpl in H. lia.
Qed.

(** A name inherited from [Object.prototype] is never a key of the
    returned map, however often it is said. *)
Lemma inherited_names_absent segs k n :
  inherited k -> ~ In (k, n) (extractKeywords segs).
Proof.
  intros Hk H. apply In_firstn in H. apply ranked_In in H.
  destruct H as [He _]. apply expected_count in He. tauto.
Qed.

(** C9 at a transcript that says "constructor" twice: the word passes
    the filter and occurs twice among the pieces of the transcript, as
    "call" does, but the returned map holds "call" alone. *)
Theorem inherited_name_is_never_counted :
  keep_word "constructor" = true /\
  occurrences (tokens KeywordExample.call) "constructor" = 2%nat /\
  occurrences (tokens KeywordExample.call) "call" = 2%nat /\
  extractKeywords KeywordExample.call = [("call", 2%nat)].
Proof.
  repeat split; vm_compute; reflexivity.
Qed.

(* ------------------------------------------------------------------ *)
(** ** Time labels *)

Lemma Qfloor_unique (x : Q) (z : Z) :
  inject_Z z <= x -> x < inject_Z (z + 1) -> Qfloor x = z.
Proof.
  intros Hlo Hhi.
  pose proof (Qfloor_le x) as H1. pose proof (Qlt_floor x) as H2.
  assert (Ha : (z < Qfloor x + 1)%Z).
  { rewrite Zlt_Qlt. eapply Qle_lt_trans; [exact Hlo | exact H2]. }
  assert (Hb : (Qfloor x < z + 1)%Z).
  { rewrite Zlt_Qlt. eapply Qle_lt_trans; [exact H1 | exact Hhi]. }
  lia.
Qed.

Lemma floor_parts (s : Q) :
  0 <= s ->
  Math_floor (s / 60) = (Qfloor s / 60)%Z /\
  Math_floor (rem60 s) = (Qfloor s mod 60)%Z.
Proof.
  intros Hs. unfold Math_floor, rem60, truncate.
  set (m := Qfloor s). set (q := (m / 60)%Z). set (r := (m mod 60)%Z).
  assert (Hm : m = (60 * q + r)%Z) by (apply Z.div_mod; lia).
  assert (Hr : (0 <= r < 60)%Z) by (apply Z.mod_pos_bound; lia).
  pose proof (Qfloor_le s) as H1. pose proof (Qlt_floor s) as H2.
  fold m in H1, H2.
  assert (HM : inject_Z m == 60 * inject_Z q + inject_Z r).
  { rewrite Hm, inject_Z_plus, inject_Z_mult. reflexivity. }
  assert (HM1 : inject_Z (m + 1) == inject_Z m + 1).
  { rewrite inject_Z_plus. reflexivity. }
  assert (Hr0 : 0 <= inject_Z r).
  { change 0 with (inject_Z 0). rewrite <- Zle_Qle. lia. }
  assert (Hr1 : inject_Z r <= 59).
  { change 59 with (inject_Z 59). rewrite <- Zle_Qle. lia. }
  assert (Hq : Qfloor (s / 60) = q).
  { apply Qfloor_unique.
    - apply Qle_shift_div_l; [reflexivity|]. lra.
    - rewrite inject_Z_plus. change (inject_Z 1) with 1.
      apply Qlt_shift_div_r; [reflexivity|]. lra. }
  split; [exact Hq|].
  assert (Hpos : Qle_bool 0 (s / 60) = true).
  { apply Qle_bool_iff. apply Qle_shift_div_l; [reflexivity|]. lra. }
  rewrite Hpos, Hq. apply Qfloor_unique.
  - lra.
  - rewrite inject_Z_plus. change (inject_Z 1) with 1. lra.
Qed.

(** X3: for a time that is not negative, the label shows the whole
    minutes and the remaining whole seconds of the time rounded down,
    the seconds being between 0 and 59. *)
Theorem formatTime_minutes_seconds :
  forall s : Q,
    0 <= s ->
    formatTime s
    = (Z_to_string (Qfloor s / 60) ++ ":"
       ++ padStart2 (Z_to_string (Qfloor s mod 60)))%string /\
    (0 <= Qfloor s mod 60 < 60)%Z.
Proof.
  intros s Hs. destruct (floor_parts s Hs) as [Hq Hr].
  unfold formatTime. rewrite Hq, Hr. split; [reflexivity|].
  apply Z.mod_pos_bound. lia.
Qed.

Lemma formatTime_minutes_seconds_witness :
  formatTime (251 # 2)
  = (Z_to_string (Qfloor (251 # 2) / 60) ++ ":"
     ++ padStart2 (Z_to_string (Qfloor (251 # 2) mod 60)))%string /\
  (0 <= Qfloor (251 # 2) mod 60 < 60)%Z.
Proof.
  apply (formatTime_minutes_seconds (251 # 2)). discriminate.
Defined.

(* ------------------------------------------------------------------ *)
(** ** Segment merger: order of arrival *)

Lemma find_filter {A : Type} (f : A -> bool) (l : list A) :
  find f l = hd_error (filter f l).
Proof.
  induction l as [|x l IH]; simpl; [reflexivity|].
  destruct (f x); [reflexivity | exact IH].
Qed.

Lemma filter_perm {A : Type} (f : A -> bool) (l l' : list A) :
  Permutation l l' -> Permutation (filter f l) (filter f l').
Proof.
  induction 1 as [|x l l' _ IH|x y l|l l' l'' _ IH1 _ IH2]; simpl.
  - constructor.
  - destruct (f x); [now constructor | exact IH].
  - destruct (f x), (f y); try reflexivity. apply perm_swap.
  - now transitivity (filter f l').
Qed.

Lemma short_perm {A : Type} (l l' : list A) :
  Permutation l l' -> (List.length l <= 1)%nat -> l = l'.
Proof.
  intros Hp Hl. destruct l as [|x [|y l]]; simpl in Hl; try lia.
  - now apply Permutation_nil in Hp.
  - now apply Permutation_length_1_inv in Hp.
Qed.

(** X4: when no event has more than one annotation within tolerance, the
    merged transcript does not depend on the order in which the
    annotations arrived. *)
Theorem merge_independent_of_arrival_order :
  forall az gs gs',
    Permutation gs gs' ->
    Forall (fun a => (candidates gs a <= 1)%nat) az ->
    mergeSegments az gs = mergeSegments az gs'.
Proof.
  intros az gs gs' Hp Hone. unfold mergeSegments.
  apply map_ext_in. intros a Ha.
  rewrite Forall_forall in Hone. specialize (Hone a Ha).
  unfold merge_one, matchingGemini. rewrite !find_filter.
  rewrite (short_perm _ _ (filter_perm (within_tolerance a) _ _ Hp) Hone).
  reflexivity.
Qed.

Lemma merge_independent_of_arrival_order_witness :
  mergeSegments [LiveExample.hello] [LiveExample.calm; LiveExample.joy]
  = mergeSegments [LiveExample.hello] [LiveExample.joy; LiveExample.calm].
Proof.
  apply (merge_independent_of_arrival_order
           [LiveExample.hello] [LiveExample.calm; LiveExample.joy]
           [LiveExample.joy; LiveExample.calm]).
  - apply perm_swap.
  - repeat constructor.
Defined.

Lemma find_app_keep {A : Type} (f : A -> bool) (l more : list A) (x : A) :
  find f l = Some x -> find f (l ++ more) = Some x.
Proof.
  induction l as [|z l IH]; simpl; [discriminate|].
  destruct (f z); auto.
Qed.

(** X5: a segment that carries an annotation keeps that annotation
    however many further annotations arrive. *)
Theorem attached_annotation_is_kept :
  forall az gs more i a g,
    nth_error az i = Some a ->
    matchingGemini gs a = Some g ->
    nth_error (mergeSegments az (gs ++ more)) i
    = nth_error (mergeSegments az gs) i.
Proof.
  intros az gs more i a g Hi Hg.
  rewrite !(mergeSegments_nth az _ i a Hi). f_equal.
  unfold merge_one, matchingGemini in *.
  now rewrite (find_app_keep _ _ more _ Hg), Hg.
Qed.

Lemma attached_annotation_is_kept_witness :
  nth_error (mergeSegments [LiveExample.hello]
               ([LiveExample.calm] ++ [LiveExample.joy])) 0
  = nth_error (mergeSegments [LiveExample.hello] [LiveExample.calm]) 0.
Proof.
  apply (attached_annotation_is_kept
           [LiveExample.hello] [LiveExample.calm] [LiveExample.joy] 0
           LiveExample.hello LiveExample.calm).
  - reflexivity.
  - reflexivity.
Defined.

(* ------------------------------------------------------------------ *)
(** ** Session lifecycle *)

Lemma push_feedback_bound fb s :
  (List.length (realtimeFeedback (push_feedback fb s)) <= 5)%nat.
Proof.
  unfold push_feedback. cbn [realtimeFeedback]. apply firstn_le_length.
Qed.

(** What one call of the annotation handler can do to the session. *)
Lemma analyze_effect strip_fences JSON_parse s fragment timestamp reply s' :
  analyzeTextWithGemini strip_fences JSON_parse s fragment timestamp reply
  = Ok s' ->
  azureSegments s' = azureSegments s /\
  geminiModel s' = geminiModel s /\
  (s' = s \/
   (exists g, geminiSegments s' = geminiSegments s ++ [g]
              /\ ls_text g = fragment /\ ls_timestamp g = timestamp)
   /\ merged_state s') /\
  (List.length (realtimeFeedback s')
   <= Nat.max 5 (List.length (realtimeFeedback s)))%nat.
Proof.
  assert (Hsame : azureSegments s = azureSegments s /\
                  geminiModel s = geminiModel s /\
                  (s = s \/
                   (exists g, geminiSegments s = geminiSegments s ++ [g]
                              /\ ls_text g = fragment
                              /\ ls_timestamp g = timestamp)
                   /\ merged_state s) /\
                  (List.length (realtimeFeedback s)
                   <= Nat.max 5 (List.length (realtimeFeedback s)))%nat).
  { split; [reflexivity|]. split; [reflexivity|].
    split; [now left | apply Nat.le_max_r]. }
  assert (Hpush :
            forall g s1,
              ls_text g = fragment -> ls_timestamp g = timestamp ->
              azureSegments s1 = azureSegments s ->
              geminiModel s1 = geminiModel s ->
              geminiSegments s1 = geminiSegments s ++ [g] ->
              (List.length (realtimeFeedback s1)
               <= Nat.max 5 (List.length (realtimeFeedback s)))%nat ->
              azureSegments (run_merge s1) = azureSegments s /\
              geminiModel (run_merge s1) = geminiModel s /\
              (run_merge s1 = s \/
               (exists g', geminiSegments (run_merge s1)
                           = geminiSegments s ++ [g']
                           /\ ls_text g' = fragment
                           /\ ls_timestamp g' = timestamp)
               /\ merged_state (run_merge s1)) /\
              (List.length (realtimeFeedback (run_merge s1))
               <= Nat.max 5 (List.length (realtimeFeedback s)))%nat).
  { intros g s1 Ht Hts Haz Hm Hg Hf.
    split; [exact Haz|]. split; [exact Hm|]. split; [|exact Hf].
    right. split; [|reflexivity]. exists g. auto. }
  unfold analyzeTextWithGemini.
  destruct (negb (geminiModel s) || (fragment =? "")%string
            || (String.length (trim fragment) <? 5)%nat).
  { intros [= <-]. exact Hsame. }
  destruct reply as [|raw]; cbn [try_catch].
  { intros [= <-]. exact Hsame. }
  unfold annotate_parsed, annotate_fallback.
  destruct (JSON_parse (strip_fences raw)) as [parsed|]; cbn [bind try_catch].
  - intros [= <-].
    destruct (truthy (an_feedback parsed)) eqn:Et.
    + destruct (an_feedback parsed) as [fb|]; [|discriminate].
      apply (Hpush (mkLive fragment (an_emotion parsed)
                      (an_sentiment parsed) timestamp));
        try reflexivity.
      cbn [push_feedback push_gemini realtimeFeedback].
      pose proof (firstn_le_length 5 (fb :: realtimeFeedback s)).
      pose proof (Nat.le_max_l 5 (List.length (realtimeFeedback s))).
      lia.
    + apply (Hpush (mkLive fragment (an_emotion parsed)
                      (an_sentiment parsed) timestamp));
        try reflexivity.
      apply Nat.le_max_r.
  - intros [= <-].
    apply (Hpush (mkLive fragment None None timestamp)); try reflexivity.
    apply Nat.le_max_r.
Qed.

(** X6: the handler never touches the buffer of transcript events and
    never drops or rewrites an annotation: whatever the reply, the
    annotation buffer afterwards is the one before, with at most one
    entry added at its end, for the fragment and the time stamp of the
    call. *)
Theorem annotation_call_only_appends :
  forall strip_fences JSON_parse s fragment timestamp reply,
    exists s' added,
      analyzeTextWithGemini strip_fences JSON_parse s fragment timestamp
        reply = Ok s' /\
      azureSegments s' = azureSegments s /\
      geminiSegments s' = geminiSegments s ++ added /\
      (List.length added <= 1)%nat /\
      Forall (fun g => ls_text g = fragment /\ ls_timestamp g = timestamp)
        added.
Proof.
  intros strip parse s fragment ts reply.
  destruct (analyzeTextWithGemini_never_throws strip parse s fragment ts reply)
    as [s' Hs'].
  destruct (analyze_effect _ _ _ _ _ _ _ Hs')
    as (Haz & _ & [-> | [(g & Hg & Ht & Hts) _]] & _).
  - exists s, []. rewrite app_nil_r. repeat split; auto.
  - exists s', [g]. repeat split; auto.
Qed.

Lemma deliver_all_snoc strip_fences JSON_parse s es e :
  deliver_all strip_fences JSON_parse s (es ++ [e])
  = deliver strip_fences JSON_parse
      (deliver_all strip_fences JSON_parse s es) e.
Proof. unfold deliver_all. now rewrite fold_left_app. Qed.

Lemma utterances_snoc es e :
  utterances (es ++ [e])
  = utterances es ++ match e with
                     | Transcribed a => [a]
                     | Annotated _ _ _ => []
                     end.
Proof.
  induction es as [|[a|f t r] es IH]; simpl.
  - destruct e; reflexivity.
  - now rewrite IH.
  - exact IH.
Qed.

Lemma completions_snoc es e :
  completions (es ++ [e])
  = (completions es + match e with
                      | Transcribed _ => 0
                      | Annotated _ _ _ => 1
                      end)%nat.
Proof.
  induction es as [|[a|f t r] es IH]; simpl.
  - destruct e; reflexivity.
  - exact IH.
  - now rewrite IH.
Qed.

(** X7: from the start of a recording on, whatever arrives and in
    whatever order: the event buffer holds the utterances in their order
    of arrival, the combined transcript is the merge of the two buffers
    and so has one segment per utterance with its speaker, text and
    times, there are no more annotations than completed calls, and the
    feedback list is no longer than 5 entries, or than it was before the
    recording if it was longer then. *)
Theorem recording_invariants :
  forall strip_fences JSON_parse initialised s0 es,
    let s := deliver_all strip_fences JSON_parse
               (start_session initialised s0) es in
    azureSegments s = utterances es /\
    merged_state s /\
    map segment_core (combinedTranscript s) = map event_core (utterances es) /\
    (List.length (geminiSegments s) <= completions es)%nat /\
    (List.length (realtimeFeedback s)
     <= Nat.max 5 (List.length (realtimeFeedback s0)))%nat.
Proof.
  intros strip parse ok s0 es. cbv zeta.
  assert (H : azureSegments
                (deliver_all strip parse (start_session ok s0) es)
              = utterances es /\
              merged_state
                (deliver_all strip parse (start_session ok s0) es) /\
              (List.length
                 (geminiSegments
                    (deliver_all strip parse (start_session ok s0) es))
               <= completions es)%nat /\
              (List.length
                 (realtimeFeedback
                    (deliver_all strip parse (start_session ok s0) es))
               <= Nat.max 5 (List.length (realtimeFeedback s0)))%nat).
  { induction es as [|e es IH] using rev_ind.
    - split; [reflexivity|]. split; [reflexivity|].
      split; [apply Nat.le_refl | apply Nat.le_max_r].
    - destruct IH as (Haz & Hm & Hg & Hf).
      rewrite deliver_all_snoc, utterances_snoc, completions_snoc.
      set (s := deliver_all strip parse (start_session ok s0) es) in *.
      destruct e as [a|fragment ts reply]; cbn [deliver].
      + unfold on_transcribed. repeat split.
        * cbn [run_merge push_azure azureSegments]. now rewrite Haz.
        * cbn [run_merge push_azure geminiSegments]. lia.
        * cbn [run_merge push_azure realtimeFeedback]. exact Hf.
      + destruct (analyzeTextWithGemini_never_throws strip parse s fragment
                    ts reply) as [s' Hs'].
        rewrite Hs'.
        destruct (analyze_effect _ _ _ _ _ _ _ Hs')
          as (Haz' & _ & Hcase & Hf').
        rewrite Haz', Haz, app_nil_r.
        destruct Hcase as [-> | [(g & Hg' & _) Hm']].
        * repeat split; auto; lia.
        * repeat split; auto; [rewrite Hg', length_app; simpl|]; lia. }
  destruct H as (Haz & Hm & Hg & Hf).
  repeat split; auto.
  rewrite Hm, merge_cores, Haz. reflexivity.
Qed.

(* ------------------------------------------------------------------ *)
(** ** Speaker correction pass: the splits as a whole *)

Lemma mapi_from_app {A B : Type} (f : nat -> A -> B) l1 :
  forall l2 i,
    mapi_from f i (l1 ++ l2)
    = mapi_from f i l1 ++ mapi_from f (i + List.length l1) l2.
Proof.
  induction l1 as [|x l1 IH]; intros l2 i; simpl.
  - now rewrite Nat.add_0_r.
  - rewrite IH. do 3 f_equal. lia.
Qed.

Lemma mapi_from_ext {A B : Type} (f g : nat -> A -> B) l :
  forall i,
    (forall j x, (i <= j < i + List.length l)%nat -> f j x = g j x) ->
    mapi_from f i l = mapi_from g i l.
Proof.
  induction l as [|x l IH]; intros i H; simpl; [reflexivity|].
  rewrite (H i x) by (simpl; lia). f_equal.
  apply IH. intros j y Hj. apply H. simpl. lia.
Qed.

Lemma concat_singletons {A : Type} (l : list A) :
  forall i, List.concat (mapi_from (fun _ x => [x]) i l) = l.
Proof.
  induction l as [|x l IH]; intros i; simpl; [reflexivity|].
  now rewrite IH.
Qed.

Lemma filter_key_short (sps : list Split) (k : Z) :
  NoDup (map originalIndex sps) ->
  (List.length (filter (fun sp => (originalIndex sp =? k)%Z) sps) <= 1)%nat.
Proof.
  induction sps as [|sp sps IH]; simpl; intros Hnd; [lia|].
  inversion Hnd as [|? ? Hnot Hnd']; subst.
  destruct (originalIndex sp =? k)%Z eqn:E; [|now apply IH].
  apply Z.eqb_eq in E. simpl.
  assert (Hnone : filter (fun sp' => (originalIndex sp' =? k)%Z) sps = []).
  { destruct (filter (fun sp' => (originalIndex sp' =? k)%Z) sps)
      as [|x rest] eqn:Ef; [reflexivity|exfalso].
    assert (Hx : In x (filter (fun sp' => (originalIndex sp' =? k)%Z) sps))
      by (rewrite Ef; now left).
    apply filter_In in Hx. destruct Hx as [Hin Hk].
    apply Z.eqb_eq in Hk. apply Hnot. rewrite E, <- Hk.
    now apply in_map. }
  rewrite Hnone. simpl. lia.
Qed.

(** With distinct target indices, the split addressed to an index does
    not depend on the order of the splits. *)
Lemma expand_perm sps sps' j seg :
  NoDup (map originalIndex sps) -> Permutation sps sps' ->
  expand sps j seg = expand sps' j seg.
Proof.
  intros Hnd Hp. unfold expand. rewrite !find_filter.
  rewrite (short_perm _ _ (filter_perm _ _ _ Hp)
             (filter_key_short sps (Z.of_nat j) Hnd)).
  reflexivity.
Qed.

Lemma expand_skip sp sps j seg :
  originalIndex sp <> Z.of_nat j ->
  expand (sp :: sps) j seg = expand sps j seg.
Proof.
  intros H. unfold expand. simpl.
  apply Z.eqb_neq in H. now rewrite H.
Qed.

Lemma expand_none sps j seg :
  Forall (fun sp => originalIndex sp <> Z.of_nat j) sps ->
  expand sps j seg = [seg].
Proof.
  intros H. unfold expand.
  destruct (find (fun sp => (originalIndex sp =? Z.of_nat j)%Z) sps)
    as [sp|] eqn:E; [|reflexivity].
  apply find_some in E. destruct E as [Hin Hk].
  rewrite Forall_forall in H. apply Z.eqb_eq in Hk.
  now apply H in Hin.
Qed.

(** Going down the indices, every split meets the segment that had its
    index at the start: what lies below the last split is untouched. *)
Lemma apply_each_expand (sorted : list Split) :
  StronglySorted (key_ge originalIndex) sorted ->
  NoDup (map originalIndex sorted) ->
  forall segs n post,
    (n <= List.length segs)%nat ->
    Forall (fun sp => (0 <= originalIndex sp < Z.of_nat n)%Z) sorted ->
    apply_each sorted (firstn n segs ++ post)
    = Ok (List.concat (mapi (expand sorted) (firstn n segs)) ++ post).
Proof.
  induction 1 as [|sp rest Hrest IH Hsp]; intros Hnd segs n post Hn Hin.
  - simpl. unfold mapi.
    rewrite (mapi_from_ext (expand []) (fun _ x => [x]))
      by (intros; reflexivity).
    now rewrite concat_singletons.
  - inversion Hnd as [|? ? Hnot Hnd']; subst.
    inversion Hin as [|? ? Hsp_in Hrest_in]; subst.
    set (i := Z.to_nat (originalIndex sp)).
    assert (Hi : Z.of_nat i = originalIndex sp) by (unfold i; lia).
    assert (Hlt : (i < n)%nat) by lia.
    assert (Hlen : List.length (firstn n segs) = n)
      by (rewrite length_firstn; lia).
    destruct (nth_error (firstn n segs) i) as [o|] eqn:Eo;
      [|apply nth_error_None in Eo; lia].
    assert (Hget : get (firstn n segs ++ post) (originalIndex sp) = Some o).
    { unfold get. replace (originalIndex sp <? 0)%Z with false
        by (symmetry; apply Z.ltb_ge; lia).
      fold i. rewrite nth_error_app1 by lia. exact Eo. }
    cbn [apply_each]. unfold apply_split. rewrite Hget. cbn [bind].
    fold i.
    assert (Hbelow : Forall (fun sp' =>
                               (0 <= originalIndex sp' < Z.of_nat i)%Z) rest).
    { rewrite Forall_forall in *. intros sp' Hsp'.
      specialize (Hsp sp' Hsp'). specialize (Hrest_in sp' Hsp').
      unfold key_ge in Hsp.
      assert (originalIndex sp' <> originalIndex sp).
      { intros Heq. apply Hnot. rewrite <- Heq. now apply in_map. }
      lia. }
    assert (Hsplice :
              splice1 (firstn n segs ++ post) i
                (newSegments o (segments sp))
              = firstn i segs
                ++ (newSegments o (segments sp)
                    ++ skipn (S i) (firstn n segs) ++ post)).
    { unfold splice1.
      rewrite firstn_app, skipn_app, Hlen.
      replace (i - n)%nat with 0%nat by lia.
      replace (S i - n)%nat with 0%nat by lia.
      change (firstn 0 post) with (@nil CombinedSegment).
      change (skipn 0 post) with post. rewrite app_nil_r.
      rewrite firstn_firstn, Nat.min_l by lia.
      reflexivity. }
    rewrite Hsplice.
    rewrite (IH Hnd' segs i _ ltac:(lia) Hbelow).
    f_equal.
    rewrite <- (firstn_skipn_middle i (firstn n segs) Eo) at 2.
    unfold mapi. rewrite mapi_from_app. cbn [mapi_from].
    rewrite concat_app. cbn [List.concat].
    rewrite firstn_firstn, Nat.min_l by lia.
    rewrite length_firstn, Nat.min_l by lia. cbn [Nat.add].
    rewrite <- !app_assoc. f_equal.
    + f_equal. apply mapi_from_ext. intros j x Hj.
      rewrite length_firstn in Hj. symmetry. apply expand_skip. lia.
    + f_equal.
      * unfold expand. cbn [find]. rewrite <- Hi, Z.eqb_refl. reflexivity.
      * f_equal.
        rewrite (mapi_from_ext (expand (sp :: rest)) (fun _ x => [x])).
        -- now rewrite concat_singletons.
        -- intros j x Hj. apply expand_none. constructor; [lia|].
           eapply Forall_impl; [|exact Hbelow]. cbv beta. intros sp' H'.
           lia.
Qed.

(** X8: when the splits address distinct segments of the array, the pass
    over the splits replaces every addressed segment, in place, with the
    parts of its split, each split meeting the segment that had its
    index in the array handed in; the other segments are kept in their
    order. *)
Theorem splits_meet_their_segments :
  forall sps segs,
    NoDup (map originalIndex sps) ->
    Forall (in_range segs) sps ->
    apply_splits sps segs = Ok (split_all sps segs).
Proof.
  intros sps segs Hnd Hin. unfold apply_splits, split_all.
  destruct (splits_descending sps) as [Hsorted Hperm].
  assert (Hnd' : NoDup (map originalIndex (js_sort by_index_desc sps))).
  { eapply Permutation_NoDup; [|exact Hnd].
    apply Permutation_map. now symmetry. }
  assert (Hin' : Forall (fun sp =>
                           (0 <= originalIndex sp
                            < Z.of_nat (List.length segs))%Z)
                   (js_sort by_index_desc sps)).
  { rewrite Forall_forall in *. intros sp Hsp. apply Hin.
    eapply Permutation_in; [exact Hperm | exact Hsp]. }
  pose proof (apply_each_expand _ Hsorted Hnd' segs (List.length segs) []
                (Nat.le_refl _) Hin') as H.
  rewrite firstn_all, !app_nil_r in H. rewrite H. f_equal. f_equal.
  unfold mapi. apply mapi_from_ext. intros j x _.
  symmetry. apply expand_perm; [exact Hnd | now symmetry].
Qed.

Lemma splits_meet_their_segments_witness :
  apply_splits [CorrectionExample.split_greeting;
                CorrectionExample.split_reply] CorrectionExample.talk
  = Ok (split_all [CorrectionExample.split_greeting;
                   CorrectionExample.split_reply] CorrectionExample.talk).
Proof.
  apply (splits_meet_their_segments
           [CorrectionExample.split_greeting; CorrectionExample.split_reply]
           CorrectionExample.talk).
  - repeat constructor; simpl; intuition discriminate.
  - repeat constructor; simpl; lia.
Defined.

(* ------------------------------------------------------------------ *)
(** ** Speaker correction pass: giving up *)

Lemma apply_each_negative sorted :
  Exists (fun sp => (originalIndex sp < 0)%Z) sorted ->
  forall arr, apply_each sorted arr = Throw.
Proof.
  induction 1 as [sp rest Hneg|sp rest _ IH]; intros arr; cbn [apply_each].
  - unfold apply_split, get. apply Z.ltb_lt in Hneg. now rewrite Hneg.
  - destruct (apply_split arr sp); cbn [bind]; [apply IH | reflexivity].
Qed.

Lemma apply_each_beyond sorted arr :
  StronglySorted (key_ge originalIndex) sorted ->
  Exists (fun sp => (Z.of_nat (List.length arr) <= originalIndex sp)%Z)
    sorted ->
  apply_each sorted arr = Throw.
Proof.
  intros Hsorted Hex. destruct Hsorted as [|sp rest _ Hsp]; [inversion Hex|].
  assert (Hmax : (Z.of_nat (List.length arr) <= originalIndex sp)%Z).
  { inversion Hex as [? ? H|? ? H]; subst; [exact H|].
    apply Exists_exists in H. destruct H as (sp' & Hin & Hle).
    rewrite Forall_forall in Hsp. specialize (Hsp sp' Hin).
    unfold key_ge in Hsp. lia. }
  cbn [apply_each]. unfold apply_split, get.
  replace (originalIndex sp <? 0)%Z with false
    by (symmetry; apply Z.ltb_ge; lia).
  assert (Hnone : nth_error arr (Z.to_nat (originalIndex sp)) = None)
    by (apply nth_error_None; lia).
  now rewrite Hnone.
Qed.

Lemma apply_splits_out_of_range sps segs :
  Exists (fun sp => ~ in_range segs sp) sps ->
  apply_splits sps segs = Throw.
Proof.
  intros Hex. unfold apply_splits.
  destruct (splits_descending sps) as [Hsorted Hperm].
  apply Exists_exists in Hex. destruct Hex as (sp & Hin & Hbad).
  assert (Hin' : In sp (js_sort by_index_desc sps)).
  { eapply Permutation_in; [symmetry; exact Hperm | exact Hin]. }
  unfold in_range in Hbad.
  destruct (Z.ltb_spec (originalIndex sp) 0) as [Hneg|Hpos].
  - apply apply_each_negative. apply Exists_exists. eauto.
  - apply apply_each_beyond; [exact Hsorted|].
    apply Exists_exists. exists sp. split; [exact Hin' | lia].
Qed.

Lemma correction_fails_unchanged strip_fences parse_response segs reply :
  correction_fails strip_fences parse_response segs reply ->
  correctSpeakerIdentification strip_fences parse_response segs reply
  = Ok segs.
Proof.
  intros H. unfold correctSpeakerIdentification.
  destruct segs as [|seg segs]; [reflexivity|].
  destruct H as [|raw Hparse|raw response sps Hparse Hsps Hbad];
    cbn [try_catch]; [reflexivity | now rewrite Hparse |].
  rewrite Hparse. cbn [bind]. unfold apply_response. rewrite Hsps.
  destruct sps as [|sp sps]; [inversion Hbad|].
  rewrite (apply_splits_out_of_range _ _ Hbad). reflexivity.
Qed.

(** X9: when the correction call is rejected, or its reply does not
    parse, or one of its splits addresses an index that is negative or
    past the end of the transcript, stopping leaves the combined
    transcript as the final merge made it: in the last case the
    reassignments and the other splits of the reply are dropped with it. *)
Theorem failed_correction_keeps_the_merge :
  forall strip_fences parse_response s reply,
    correction_fails strip_fences parse_response
      (mergeSegments (azureSegments s) (geminiSegments s)) reply ->
    combinedTranscript (stopRecording strip_fences parse_response s reply)
    = mergeSegments (azureSegments s) (geminiSegments s) /\
    transcript (stopRecording strip_fences parse_response s reply)
    = displayText (mergeSegments (azureSegments s) (geminiSegments s)).
Proof.
  intros strip parse s reply Hfail. unfold stopRecording.
  cbn [run_merge combinedTranscript].
  rewrite (correction_fails_unchanged _ _ _ _ Hfail).
  split; reflexivity.
Qed.

Lemma failed_correction_keeps_the_merge_witness :
  combinedTranscript
    (stopRecording CorrectionExample.same CorrectionExample.parse_bad
       CorrectionExample.recorded (Reply "{}"))
  = mergeSegments (azureSegments CorrectionExample.recorded)
      (geminiSegments CorrectionExample.recorded) /\
  transcript
    (stopRecording CorrectionExample.same CorrectionExample.parse_bad
       CorrectionExample.recorded (Reply "{}"))
  = displayText
      (mergeSegments (azureSegments CorrectionExample.recorded)
         (geminiSegments CorrectionExample.recorded)).
Proof.
  apply (failed_correction_keeps_the_merge
           CorrectionExample.same CorrectionExample.parse_bad
           CorrectionExample.recorded (Reply "{}")).
  apply (split_misaddressed _ _ _ "{}" CorrectionExample.bad_response
           [CorrectionExample.beyond]).
  - reflexivity.
  - reflexivity.
  - constructor. unfold in_range. simpl. lia.
Defined.

(* ------------------------------------------------------------------ *)
(** ** Speaker correction pass: layout of one split *)

(** X10: a split that finds its segment changes the array only from that
    index on: there are [k - 1] more segments, those before the index
    stay where they are, and those behind it move [k - 1] places
    further. *)
Theorem split_shifts_later_segments :
  forall segs split originalSeg,
    get segs (originalIndex split) = Some originalSeg ->
    exists out,
      apply_split segs split = Ok out /\
      (List.length out + 1
       = List.length segs + List.length (segments split))%nat /\
      (forall j, (j < Z.to_nat (originalIndex split))%nat ->
                 nth_error out j = nth_error segs j) /\
      (forall j, (Z.to_nat (originalIndex split) < j)%nat ->
                 nth_error out (j - 1 + List.length (segments split))
                 = nth_error segs j).
Proof.
  intros segs sp o Hget. unfold apply_split. rewrite Hget.
  eexists. split; [reflexivity|].
  unfold get in Hget. destruct (originalIndex sp <? 0)%Z; [discriminate|].
  set (i := Z.to_nat (originalIndex sp)) in *.
  assert (Hi : (i < List.length segs)%nat)
    by (apply nth_error_Some; congruence).
  assert (Hk : List.length (newSegments o (segments sp))
               = List.length (segments sp))
    by (unfold newSegments, mapi; apply mapi_from_length).
  split; [|split].
  - unfold splice1. rewrite !length_app, length_firstn, length_skipn, Hk.
    lia.
  - intros j Hj. unfold splice1.
    rewrite nth_error_app1 by (rewrite length_firstn; lia).
    rewrite nth_error_firstn.
    replace (j <? i)%nat with true by (symmetry; apply Nat.ltb_lt; lia).
    reflexivity.
  - intros j Hj. rewrite <- Hk. now apply splice1_shifts.
Qed.

Lemma split_shifts_later_segments_witness :
  exists out,
    apply_split CorrectionExample.talk CorrectionExample.split_reply = Ok out /\
    (List.length out + 1
     = List.length CorrectionExample.talk
       + List.length (segments CorrectionExample.split_reply))%nat /\
    (forall j,
        (j < Z.to_nat (originalIndex CorrectionExample.split_reply))%nat ->
        nth_error out j = nth_error CorrectionExample.talk j) /\
    (forall j,
        (Z.to_nat (originalIndex CorrectionExample.split_reply) < j)%nat ->
        nth_error out
          (j - 1 + List.length (segments CorrectionExample.split_reply))
        = nth_error CorrectionExample.talk j).
Proof.
  apply (split_shifts_later_segments CorrectionExample.talk
           CorrectionExample.split_reply CorrectionExample.reply_a).
  reflexivity.
Defined.

(* ------------------------------------------------------------------ *)
(** ** Speaker correction pass: the fallback roles *)

Lemma lookup_snoc m k v k' :
  lookup (m ++ [(k, v)]) k'
  = match lookup m k' with
    | Some x => Some x
    | None => if (k =? k')%string then Some v else None
    end.
Proof.
  induction m as [|[k0 v0] m IH]; simpl; [reflexivity|].
  destruct (k0 =? k')%string; [reflexivity | exact IH].
Qed.

Lemma build_mapping_keeps segs :
  forall m k v, lookup m k = Some v -> lookup (build_mapping segs m) k = Some v.
Proof.
  induction segs as [|seg segs IH]; intros m k v H; simpl; [exact H|].
  destruct (is_role (speaker seg)); [now apply IH|].
  destruct (lookup m (speaker seg)) eqn:E; [now apply IH|].
  apply IH. rewrite lookup_snoc. now rewrite H.
Qed.

Lemma build_mapping_untouched segs :
  forall m k,
    Forall (fun seg => speaker seg <> k) segs ->
    lookup (build_mapping segs m) k = lookup m k.
Proof.
  induction segs as [|seg segs IH]; intros m k H; simpl; [reflexivity|].
  inversion H as [|? ? Hne Hrest]; subst.
  destruct (is_role (speaker seg)); [now apply IH|].
  destruct (lookup m (speaker seg)) eqn:E; [now apply IH|].
  rewrite (IH _ k Hrest), lookup_snoc.
  destruct (lookup m k); [reflexivity|].
  apply String.eqb_neq in Hne. now rewrite Hne.
Qed.

Lemma build_mapping_app l1 l2 m :
  build_mapping (l1 ++ l2) m = build_mapping l2 (build_mapping l1 m).
Proof.
  revert m. induction l1 as [|seg l1 IH]; intros m; simpl; [reflexivity|].
  destruct (is_role (speaker seg)); [apply IH|].
  destruct (lookup m (speaker seg)); apply IH.
Qed.

Lemma role_of_is_role seg : is_role (role_of seg) = true.
Proof. unfold role_of. now destruct (isLikelySalesperson (text seg)). Qed.

Lemma build_mapping_roles segs :
  forall m,
    holds_roles m ->
    holds_roles (build_mapping segs m) /\
    Forall (fun seg => is_role (speaker seg) = false ->
                       exists v, lookup (build_mapping segs m) (speaker seg)
                                 = Some v) segs.
Proof.
  induction segs as [|seg segs IH]; intros m Hm; simpl; [auto|].
  destruct (is_role (speaker seg)) eqn:Er.
  - destruct (IH m Hm) as [H1 H2]. split; [exact H1|].
    constructor; [intros Hx; congruence | exact H2].
  - destruct (lookup m (speaker seg)) as [v|] eqn:E.
    + destruct (IH m Hm) as [H1 H2]. split; [exact H1|].
      constructor; [|exact H2]. intros _. exists v.
      now apply build_mapping_keeps.
    + set (m' := m ++ [(speaker seg, _)]).
      assert (Hm' : holds_roles m').
      { intros k v. unfold m'. rewrite lookup_snoc.
        destruct (lookup m k) as [x|] eqn:Ek.
        - intros Hx. injection Hx as <-. exact (Hm _ _ Ek).
        - destruct (speaker seg =? k)%string; [|intros Hx; discriminate Hx].
          intros Hx. injection Hx as <-. apply (role_of_is_role seg). }
      destruct (IH m' Hm') as [H1 H2]. split; [exact H1|].
      constructor; [|exact H2]. intros _. eexists.
      apply build_mapping_keeps. unfold m'. rewrite lookup_snoc, E.
      now rewrite String.eqb_refl.
Qed.

(** After the fallback every segment is attributed to the salesperson or
    to the customer, whatever labels the recogniser and the reply used. *)
Lemma residual_roles_only_roles segs :
  Forall (fun seg => is_role (speaker seg) = true) (residual_roles segs).
Proof.
  unfold residual_roles.
  destruct (build_mapping_roles segs []) as [Hroles Hall];
    [intros k v; discriminate|].
  apply Forall_map. eapply Forall_impl; [|exact Hall].
  intros seg Hseg. cbv beta in Hseg. unfold map_role.
  destruct (is_role (speaker seg)) eqn:Er; [exact Er|].
  destruct (Hseg eq_refl) as [v Hv]. rewrite Hv.
  pose proof (Hroles _ _ Hv) as Hrole.
  destruct (v =? "")%string eqn:Ev.
  - apply String.eqb_eq in Ev. subst v. discriminate.
  - exact Hrole.
Qed.

(** X11: a correction pass that goes through returns only segments of the
    salesperson and of the customer. *)
Theorem corrected_speakers_are_roles :
  forall segs response out,
    apply_response segs response = Ok out ->
    Forall (fun seg => speaker seg = "Salesperson"
                       \/ speaker seg = "Customer") out.
Proof.
  intros segs response out H. unfold apply_response in H.
  destruct (match splits response with
            | Some (sp :: sps) => apply_splits (sp :: sps) segs
            | _ => Ok segs
            end) as [mid|]; [|discriminate].
  cbn [bind] in H. injection H as <-.
  eapply Forall_impl; [|apply residual_roles_only_roles].
  intros seg Hseg. cbv beta in Hseg. unfold is_role in Hseg.
  apply orb_true_iff in Hseg.
  destruct Hseg as [Hs | Hs]; apply String.eqb_eq in Hs; auto.
Qed.

Lemma corrected_speakers_are_roles_witness :
  Forall (fun seg => speaker seg = "Salesperson" \/ speaker seg = "Customer")
    (residual_roles CorrectionExample.talk).
Proof.
  apply (corrected_speakers_are_roles CorrectionExample.talk
           {| corrections := None; splits := None |}
           (residual_roles CorrectionExample.talk)).
  reflexivity.
Defined.

(** X12: the fallback judges a raw label by its first utterance alone:
    every segment with that label gets the role that the text of the
    first one suggests. *)
Theorem first_utterance_decides_role :
  forall pre seg0 post,
    is_role (speaker seg0) = false ->
    Forall (fun seg => speaker seg <> speaker seg0) pre ->
    Forall2 (fun before after =>
               speaker before = speaker seg0 ->
               speaker after = role_of seg0)
      (pre ++ seg0 :: post) (residual_roles (pre ++ seg0 :: post)).
Proof.
  intros pre seg0 post Hraw Hpre. unfold residual_roles.
  set (m := build_mapping (pre ++ seg0 :: post) []).
  assert (Hm : lookup m (speaker seg0) = Some (role_of seg0)).
  { unfold m. rewrite build_mapping_app. cbn [build_mapping].
    rewrite Hraw.
    rewrite (build_mapping_untouched pre [] _ Hpre). cbn [lookup].
    apply build_mapping_keeps. rewrite lookup_snoc.
    rewrite (build_mapping_untouched pre [] _ Hpre). cbn [lookup].
    now rewrite String.eqb_refl. }
  clearbody m.
  induction (pre ++ seg0 :: post) as [|seg l IH]; simpl; constructor;
    [|exact IH].
  intros Heq. unfold map_role. rewrite Heq, Hraw, Hm.
  pose proof (role_of_is_role seg0) as Hr.
  destruct (role_of seg0 =? "")%string eqn:E; [|reflexivity].
  apply String.eqb_eq in E. rewrite E in Hr. discriminate.
Qed.

Lemma first_utterance_decides_role_witness :
  Forall2 (fun before after =>
             speaker before = speaker CorrectionExample.greeting ->
             speaker after = role_of CorrectionExample.greeting)
    ([] ++ CorrectionExample.greeting
        :: [CorrectionExample.reply_a; CorrectionExample.follow_up])
    (residual_roles
       ([] ++ CorrectionExample.greeting
           :: [CorrectionExample.reply_a; CorrectionExample.follow_up])).
Proof.
  apply (first_utterance_decides_role [] CorrectionExample.greeting
           [CorrectionExample.reply_a; CorrectionExample.follow_up]).
  - reflexivity.
  - constructor.
Defined.

(* ------------------------------------------------------------------ *)
(** ** Metrics aggregator: average sentiment *)

Lemma sentiment_points_range label p :
  sentiment_points label = Some p -> (40 <= p <= 80)%Z.
Proof.
  unfold sentiment_points. destruct label as [s|]; [|discriminate].
  intros H.
  assert (Hp : p = 80%Z \/ p = 60%Z \/ p = 40%Z).
  { revert H. repeat
      (match goal with
       | |- context [match ?x with EmptyString => _ | String _ _ => _ end] =>
           destruct x
       | |- context [match ?x with Ascii _ _ _ _ _ _ _ _ => _ end] =>
           destruct x
       | |- context [if ?b then _ else _] => destruct b
       end; try discriminate); intros [= <-]; auto. }
  lia.
Qed.

Lemma sentiment_totals segs :
  forall total count,
    let total' :=
      fold_left (fun total seg =>
                   match sentiment_points (sentiment seg) with
                   | Some p => (total + p)%Z
                   | None => total
                   end) segs total in
    let count' :=
      fold_left (fun count seg =>
                   match sentiment_points (sentiment seg) with
                   | Some _ => (count + 1)%Z
                   | None => count
                   end) segs count in
    (40 * count <= total <= 80 * count)%Z -> (0 <= count)%Z ->
    (40 * count' <= total' <= 80 * count')%Z /\ (0 <= count')%Z.
Proof.
  induction segs as [|seg segs IH]; intros total count; cbv zeta;
    cbn [fold_left]; [auto|].
  intros Ht Hc.
  destruct (sentiment_points (sentiment seg)) as [p|] eqn:E.
  - apply sentiment_points_range in E. apply IH; lia.
  - now apply IH.
Qed.

(** X13: the average sentiment lies between 40 and 80 for every
    transcript, also for one in which no segment carries one of the
    three labels. *)
Theorem avgSentiment_range :
  forall segs, (40 <= avgSentiment segs <= 80)%Z.
Proof.
  intros segs. unfold avgSentiment.
  destruct (sentiment_totals segs 0 0 ltac:(lia) ltac:(lia)) as [Ht Hc].
  fold (totalSentimentScore segs) in Ht.
  fold (sentimentCount segs) in Ht, Hc.
  destruct (0 <? sentimentCount segs)%Z eqn:E; [|lia].
  apply Z.ltb_lt in E.
  set (t := totalSentimentScore segs) in *.
  set (c := sentimentCount segs) in *.
  assert (Hc0 : 0 < inject_Z c).
  { change 0 with (inject_Z 0). now rewrite <- Zlt_Qlt. }
  assert (H40 : inject_Z 40 * inject_Z c <= inject_Z t).
  { rewrite <- inject_Z_mult, <- Zle_Qle. lia. }
  assert (H80 : inject_Z t <= inject_Z 80 * inject_Z c).
  { rewrite <- inject_Z_mult, <- Zle_Qle. lia. }
  apply Math_round_range.
  - apply Qle_shift_div_l; assumption.
  - apply Qle_shift_div_r; assumption.
Qed.

(* ------------------------------------------------------------------ *)
(** ** Metrics aggregator: talk ratio *)

Lemma time_of_set m k t k' :
  time_of (time_set m k t) k' = if (k =? k')%string then t else time_of m k'.
Proof.
  induction m as [|[k0 t0] m IH]; simpl; [reflexivity|].
  destruct (k0 =? k)%string eqn:E; simpl.
  - apply String.eqb_eq in E. subst k0.
    destruct (k =? k')%string; reflexivity.
  - rewrite IH. destruct (k0 =? k')%string eqn:E1;
      destruct (k =? k')%string eqn:E2; try reflexivity.
    apply String.eqb_eq in E1, E2. subst. rewrite String.eqb_refl in E.
    discriminate.
Qed.

Lemma time_set_keys m k t x :
  In x (map fst (time_set m k t)) -> x = k \/ In x (map fst m).
Proof.
  induction m as [|[k0 t0] m IH]; simpl.
  - intros [<- | []]. now left.
  - destruct (k0 =? k)%string; simpl; [tauto|].
    intros [<- | H]; [tauto|]. destruct (IH H); tauto.
Qed.

Lemma time_set_NoDup m k t :
  NoDup (map fst m) -> NoDup (map fst (time_set m k t)).
Proof.
  induction m as [|[k0 t0] m IH]; simpl; intros H.
  - repeat constructor. intros [].
  - inversion H as [|? ? Hnot Hnd]; subst.
    destruct (k0 =? k)%string eqn:E; simpl; [now constructor|].
    constructor; [|now apply IH].
    intros Hin. apply time_set_keys in Hin. destruct Hin as [-> | Hin].
    + rewrite String.eqb_refl in E. discriminate.
    + contradiction.
Qed.

Lemma sum_spans_app l1 l2 :
  sum_spans (l1 ++ l2) == sum_spans l1 + sum_spans l2.
Proof.
  induction l1 as [|x l1 IH]; simpl; [ring|]. rewrite IH. ring.
Qed.

Lemma speakerTime_from segs :
  forall m seen,
    NoDup (map fst m) ->
    (forall k, time_of m k == sum_spans (spoken_by k seen)) ->
    (forall k, In k (map fst m) -> In k (map speaker seen)) ->
    let m' := fold_left (fun m seg =>
                           time_set m (speaker seg)
                             (time_of m (speaker seg)
                              + (end_ seg - start seg))) segs m in
    NoDup (map fst m') /\
    (forall k, time_of m' k == sum_spans (spoken_by k (seen ++ segs))) /\
    (forall k, In k (map fst m') -> In k (map speaker (seen ++ segs))).
Proof.
  induction segs as [|seg segs IH]; intros m seen Hnd Ht Hk; cbv zeta; simpl.
  - rewrite app_nil_r. auto.
  - replace (seen ++ seg :: segs) with ((seen ++ [seg]) ++ segs)
      by (rewrite <- app_assoc; reflexivity).
    apply IH.
    + now apply time_set_NoDup.
    + intros k. rewrite time_of_set. unfold spoken_by.
      rewrite filter_app, sum_spans_app. simpl.
      destruct (speaker seg =? k)%string eqn:E.
      * apply String.eqb_eq in E. subst k. rewrite Ht. unfold spoken_by.
        simpl. ring.
      * rewrite Ht. unfold spoken_by. simpl. ring.
    + intros k Hin. rewrite map_app. apply in_or_app.
      apply time_set_keys in Hin. destruct Hin as [-> | Hin].
      * right. now left.
      * left. now apply Hk.
Qed.

Lemma speakerTime_facts segs :
  NoDup (map fst (speakerTime segs)) /\
  (forall k, time_of (speakerTime segs) k == sum_spans (spoken_by k segs)) /\
  (forall k, In k (map fst (speakerTime segs)) <-> In k (map speaker segs)).
Proof.
  unfold speakerTime.
  destruct (speakerTime_from segs [] []) as (Hnd & Ht & Hk).
  - constructor.
  - intros k. reflexivity.
  - intros k [].
  - simpl in Ht, Hk. split; [exact Hnd|]. split; [exact Ht|].
    intros k. split; [apply Hk|].
    (* a speaker of the transcript has an entry *)
    clear. intros Hin.
    assert (Hgen : forall segs m,
               In k (map fst m) \/ In k (map speaker segs) ->
               In k (map fst
                       (fold_left
                          (fun m seg =>
                             time_set m (speaker seg)
                               (time_of m (speaker seg)
                                + (end_ seg - start seg))) segs m))).
    { clear. induction segs as [|seg segs IH]; intros m H; simpl.
      - destruct H as [H | []]. exact H.
      - apply IH. simpl in H.
        assert (Hset : forall m' t,
                   In (speaker seg)
                     (map fst (time_set m' (speaker seg) t))).
        { clear. induction m' as [|[k0 t0] m' IH]; intros t; simpl.
          - now left.
          - destruct (k0 =? speaker seg)%string eqn:E; simpl.
            + left. now apply String.eqb_eq in E.
            + right. apply IH. }
        assert (Hkeep : forall m' k' t, In k (map fst m') ->
                                        In k (map fst (time_set m' k' t))).
        { clear. induction m' as [|[k0 t0] m' IH]; intros k' t; simpl.
          - intros [].
          - destruct (k0 =? k')%string; simpl; [tauto|].
            intros [-> | H]; [now left | right; now apply IH]. }
        destruct H as [H | [<- | H]].
        + left. now apply Hkeep.
        + left. apply Hset.
        + now right. }
    apply Hgen. now right.
Qed.

Lemma speakerTime_sums_keys segs :
  NoDup (map fst (speakerTime segs)) /\
  (forall k, In k (map fst (speakerTime segs)) -> In k (map speaker segs)).
Proof.
  destruct (speakerTime_facts segs) as (Hnd & _ & Hk).
  split; [exact Hnd|]. intros k. apply Hk.
Qed.

(** X14: the time that the talk ratio uses for a speaker is the sum of
    the spans of that speaker's segments; every speaker of the
    transcript has exactly one entry, and nobody else has one. *)
Theorem speakerTime_sums_spans :
  forall segs,
    NoDup (map fst (speakerTime segs)) /\
    (forall k, time_of (speakerTime segs) k == sum_spans (spoken_by k segs)) /\
    (forall k, In k (map fst (speakerTime segs)) <-> In k (map speaker segs)).
Proof.
  exact speakerTime_facts.
Qed.


(** X16: a transcript in which only one speaker talks, or an empty one,
    gets the ratio "50:50". *)
Theorem one_speaker_ratio_is_even :
  forall segs who,
    Forall (fun seg => speaker seg = who) segs ->
    talkToListenRatio segs = "50:50".
Proof.
  intros segs who Hall.
  destruct (speakerTime_sums_keys segs) as [Hnd Hk].
  unfold talkToListenRatio, talk_shares.
  destruct (speakerTime segs) as [|[k1 t1] [|[k2 t2] rest]];
    try reflexivity.
  exfalso. rewrite Forall_forall in Hall.
  assert (H1 : k1 = who).
  { assert (Hin : In k1 (map speaker segs)) by (apply Hk; simpl; auto).
    apply in_map_iff in Hin. destruct Hin as (seg & <- & Hseg). auto. }
  assert (H2 : k2 = who).
  { assert (Hin : In k2 (map speaker segs)) by (apply Hk; simpl; auto).
    apply in_map_iff in Hin. destruct Hin as (seg & <- & Hseg). auto. }
  subst. inversion Hnd as [|? ? Hnot _]; subst. apply Hnot. now left.
Qed.

Lemma one_speaker_ratio_is_even_witness :
  talkToListenRatio RatioExample.monologue = "50:50".
Proof.
  apply (one_speaker_ratio_is_even RatioExample.monologue "Salesperson").
  repeat constructor.
Defined.

(* ------------------------------------------------------------------ *)
(** ** Metrics aggregator: density of the series *)

Lemma spaced_snoc values v :
  spaced values ->
  (values = [] \/ (10 < Z.abs (v - last values 0))%Z) ->
  spaced (values ++ [v]).
Proof.
  induction values as [|a [|b rest] IH]; intros Hs Hv.
  - exact I.
  - simpl. destruct Hv as [Hv | Hv]; [discriminate|]. simpl in Hv. auto.
  - destruct Hs as [Hab Hs]. split; [exact Hab|].
    apply IH; [exact Hs|]. right.
    destruct Hv as [Hv | Hv]; [discriminate | exact Hv].
Qed.

Lemma score_range label : (40 <= score label <= 80)%Z.
Proof.
  unfold score. destruct label as [s|]; [|lia].
  repeat
    (match goal with
     | |- context [match ?x with EmptyString => _ | String _ _ => _ end] =>
         destruct x
     | |- context [match ?x with Ascii _ _ _ _ _ _ _ _ => _ end] =>
         destruct x
     | |- context [if ?b then _ else _] => destruct b
     end; try lia).
Qed.

Lemma currentAvg_range cum cnt :
  (0 < cnt)%Z -> (40 * cnt <= cum <= 80 * cnt)%Z ->
  (40 <= currentAvg cum cnt <= 80)%Z.
Proof.
  intros Hc Ht. unfold currentAvg.
  assert (Hc0 : 0 < inject_Z cnt).
  { change 0 with (inject_Z 0). now rewrite <- Zlt_Qlt. }
  assert (H40 : inject_Z 40 * inject_Z cnt <= inject_Z cum).
  { rewrite <- inject_Z_mult, <- Zle_Qle. lia. }
  assert (H80 : inject_Z cum <= inject_Z 80 * inject_Z cnt).
  { rewrite <- inject_Z_mult, <- Zle_Qle. lia. }
  apply Math_round_range.
  - apply Qle_shift_div_l; assumption.
  - apply Qle_shift_div_r; assumption.
Qed.

Lemma last_map_value (emitted : list Point) :
  emitted <> [] ->
  last (map value emitted) 0%Z = value (last (anchor :: emitted) anchor).
Proof.
  intros Hne. destruct emitted as [|p emitted]; [congruence|].
  clear Hne. revert p.
  induction emitted as [|q emitted IH]; intros p; [reflexivity|].
  change (last (map value (p :: q :: emitted)) 0%Z)
    with (last (map value (q :: emitted)) 0%Z).
  rewrite IH. reflexivity.
Qed.

Lemma graph_step_series i seg st :
  series_inv st -> series_inv (graph_step i seg st).
Proof.
  intros ((emitted & Hpts & Hsp & Hlen) & Hrange & Hcum & Hcnt).
  unfold graph_step.
  destruct (truthy (sentiment seg)); [|unfold series_inv; eauto 10].
  pose proof (score_range (sentiment seg)) as Hscore.
  set (cum := (cumulativeSentiment st + score (sentiment seg))%Z).
  set (cnt := (segmentCount st + 1)%Z).
  assert (Havg : (40 <= currentAvg cum cnt <= 80)%Z).
  { apply currentAvg_range; unfold cum, cnt; lia. }
  assert (Hkeep : series_inv {| points := points st;
                                cumulativeSentiment := cum;
                                segmentCount := cnt |}).
  { unfold series_inv. cbn [points cumulativeSentiment segmentCount].
    split; [exists emitted; repeat split; auto; unfold cnt; lia|].
    split; [exact Hrange|]. unfold cum, cnt. lia. }
  destruct ((i mod 2 =? 0)%nat || (List.length (points st) =? 1)%nat);
    [|exact Hkeep].
  destruct (emits (points st) (currentAvg cum cnt)) eqn:Eem; [|exact Hkeep].
  unfold series_inv. cbn [points cumulativeSentiment segmentCount].
  split; [|split; [|unfold cum, cnt; lia]].
  - exists (emitted ++ [{| time := formatTime (start seg);
                           value := currentAvg cum cnt |}]).
    split; [now rewrite Hpts|]. split.
    + rewrite map_app. cbn [map value]. apply spaced_snoc; [exact Hsp|].
      destruct emitted as [|p emitted]; [now left | right].
      rewrite last_map_value by discriminate.
      unfold emits in Eem. rewrite Hpts in Eem. cbn [List.length] in Eem.
      cbn [Nat.eqb orb] in Eem. rewrite <- Hpts.
      apply Z.ltb_lt. rewrite <- Eem. rewrite Hpts. reflexivity.
    + rewrite length_app. cbn [List.length]. unfold cnt. lia.
  - apply Forall_app. split; [exact Hrange|]. constructor; [exact Havg|].
    constructor.
Qed.

Lemma graph_loop_series segs :
  forall i st, series_inv st -> series_inv (graph_loop i segs st).
Proof.
  induction segs as [|seg segs IH]; intros i st H; simpl; [exact H|].
  apply IH. now apply graph_step_series.
Qed.

Lemma graph_loop_count segs :
  forall i st,
    segmentCount (graph_loop i segs st)
    = (segmentCount st + Z.of_nat (List.length (bearing segs)))%Z.
Proof.
  induction segs as [|seg segs IH]; intros i st; simpl; [lia|].
  rewrite IH. unfold graph_step.
  destruct (truthy (sentiment seg)); cbn [segmentCount List.length]; lia.
Qed.

(** X17: the series of the current hook is sparse and bounded: every
    value lies between 40 and 80, the points after the anchor are no
    more than the segments that carry a sentiment, and any two
    neighbours among them differ by more than 10. *)
Theorem sentiment_series_is_sparse :
  forall segs,
    Forall (fun p => (40 <= value p <= 80)%Z) (generateSentimentGraph segs) /\
    (List.length (generateSentimentGraph segs)
     <= 1 + List.length (bearing segs))%nat /\
    spaced (map value (tl (generateSentimentGraph segs))).
Proof.
  intros segs. unfold generateSentimentGraph.
  assert (Hinit : series_inv graph_init).
  { unfold series_inv, graph_init. cbn.
    split; [exists []; repeat split; simpl; lia|].
    split; [repeat constructor; simpl; lia | lia]. }
  pose proof (graph_loop_series segs 0%nat graph_init Hinit)
    as ((emitted & Hpts & Hsp & Hlen) & Hrange & _).
  rewrite (graph_loop_count segs 0%nat graph_init) in Hlen.
  cbn [graph_init segmentCount] in Hlen.
  rewrite Hpts in *. cbn [tl List.length].
  split; [exact Hrange|]. split; [lia | exact Hsp].
Qed.

(* ------------------------------------------------------------------ *)
(** ** Keyword extraction: the keys *)

Lemma clean_char (c : ascii) :
  let c' := lower_char c in
  let kept := if is_word c' || is_space c' then c' else " "%char in
  is_space kept || keyword_char kept = true.
Proof.
  destruct c as [[] [] [] [] [] [] [] []]; reflexivity.
Qed.

Lemma clean_text (t : string) :
  all_chars (fun c => is_space c || keyword_char c)
    (strip_punctuation (toLowerCase t)) = true.
Proof.
  induction t as [|c t IH]; simpl; [reflexivity|].
  rewrite IH, andb_true_r. apply clean_char.
Qed.

(** The pieces between the runs of white space hold no white space. *)
Lemma split_ws_pieces (q : ascii -> bool) (s : string) :
  all_chars (fun c => is_space c || q c) s = true ->
  Forall (fun piece => all_chars (fun c => negb (is_space c) && q c) piece
                       = true) (split_ws s).
Proof.
  induction s as [|c s IH]; intros H.
  - repeat constructor.
  - cbn [all_chars] in H. apply andb_true_iff in H. destruct H as [Hc Hs].
    specialize (IH Hs). cbn [split_ws].
    destruct (is_space c) eqn:Ec.
    + destruct s as [|c' s']; [repeat constructor|].
      destruct (is_space c'); [exact IH|]. constructor; [reflexivity|exact IH].
    + destruct (split_ws s) as [|piece pieces]; simpl in Hc.
      * constructor; [|constructor]. cbn [all_chars]. now rewrite Ec, Hc.
      * inversion IH as [|? ? Hp Hps]; subst. constructor; [|exact Hps].
        cbn [all_chars]. now rewrite Ec, Hc, Hp.
Qed.

Lemma all_chars_weaken (p q : ascii -> bool) s :
  (forall c, p c = true -> q c = true) ->
  all_chars p s = true -> all_chars q s = true.
Proof.
  intros Hpq. induction s as [|c s IH]; simpl; [reflexivity|].
  intros H. apply andb_true_iff in H. destruct H as [Hc Hs].
  now rewrite (Hpq c Hc), (IH Hs).
Qed.

Lemma occurrences_In ws k : (0 < occurrences ws k)%nat -> In k ws.
Proof. unfold occurrences. apply count_occ_In. Qed.

Lemma keyword_is_token segs k n :
  In (k, n) (extractKeywords segs) -> In k (tokens segs).
Proof.
  intros H. apply In_firstn in H. apply ranked_In in H.
  destruct H as [He _]. apply expected_count in He.
  destruct He as (_ & Hn & Hpos). subst n.
  apply occurrences_In in Hpos. unfold words in Hpos.
  apply filter_In in Hpos. tauto.
Qed.

(** X18: every key of the returned map is written in lower-case letters
    of the basic alphabet, digits and underscores only: no capital, no
    accented letter, no punctuation and no white space gets in. *)
Theorem keywords_are_plain_words :
  forall segs k n,
    In (k, n) (extractKeywords segs) ->
    all_chars keyword_char k = true.
Proof.
  intros segs k n H. apply keyword_is_token in H. unfold tokens in H.
  pose proof (split_ws_pieces keyword_char _
                (clean_text (join " " (map text segs)))) as Hall.
  rewrite Forall_forall in Hall. specialize (Hall k H).
  eapply all_chars_weaken; [|exact Hall].
  intros c Hc. apply andb_true_iff in Hc. tauto.
Qed.

Lemma keywords_are_plain_words_witness :
  all_chars keyword_char "laptop" = true.
Proof.
  apply (keywords_are_plain_words KeywordsExample.pitch "laptop" 3).
  vm_compute. auto.
Defined.

Lemma StronglySorted_firstn {A : Type} (R : A -> A -> Prop) l :
  StronglySorted R l -> forall n, StronglySorted R (firstn n l).
Proof.
  induction 1 as [|a l Hl IH Ha]; intros [|n]; simpl; try constructor.
  - apply IH.
  - rewrite Forall_forall in *. intros x Hx. apply Ha.
    now apply In_firstn in Hx.
Qed.

(** X19: the returned map lists at most 30 keys, none of them twice, in
    descending order of their counts. *)
Theorem keywords_are_ranked :
  forall segs,
    (List.length (extractKeywords segs) <= 30)%nat /\
    NoDup (map fst (extractKeywords segs)) /\
    StronglySorted by_count (extractKeywords segs).
Proof.
  intros segs. destruct (extractKeywords_size segs) as [Hlen Hnd].
  split; [exact Hlen|]. split; [exact Hnd|].
  unfold extractKeywords. apply StronglySorted_firstn.
  assert (Hs : StronglySorted
                 (key_ge (fun x : string * nat => Z.of_nat (snd x)))
                 (js_sort by_count_desc (frequent (count_all (words segs))))).
  { apply js_sort_sorted. reflexivity. }
  clear -Hs. induction Hs as [|a l _ IH Ha]; constructor; [exact IH|].
  eapply Forall_impl; [|exact Ha]. intros x Hx.
  unfold key_ge in Hx. unfold by_count. lia.
Qed.

Lemma extractKeywords_sound_witness :
  is_stop_word "laptop" = false /\ (2 <= String.length "laptop")%nat /\
  is_numeric "laptop" = false /\
  3%nat = occurrences (tokens KeywordsExample.pitch) "laptop" /\ (2 <= 3)%nat.
Proof.
  apply (extractKeywords_sound KeywordsExample.pitch "laptop" 3).
  vm_compute. auto.
Defined.

Lemma extractKeywords_top_witness :
  In ("warranty", occurrences (tokens KeywordsExample.pitch) "warranty")
    (extractKeywords KeywordsExample.pitch) \/
  (List.length (extractKeywords KeywordsExample.pitch) = 30%nat /\
   forall k' n', In (k', n') (extractKeywords KeywordsExample.pitch) ->
                 (occurrences (tokens KeywordsExample.pitch) "warranty"
                  <= n')%nat).
Proof.
  apply (extractKeywords_top KeywordsExample.pitch "warranty").
  - reflexivity.
  - vm_compute. lia.
  - unfold inherited. intros [H | H]; discriminate H.
Defined.

(* ------------------------------------------------------------------ *)
(** ** Speaker registry *)

Lemma lookup_nth m k v :
  lookup m k = Some v -> exists i, nth_error m i = Some (k, v).
Proof.
  induction m as [|[k0 v0] m IH]; simpl; [discriminate|].
  destruct (k0 =? k)%string eqn:E.
  - intros [= ->]. apply String.eqb_eq in E. subst k0. now exists 0%nat.
  - intros H. destruct (IH H) as [i Hi]. now exists (S i).
Qed.

Lemma lookup_absent m k : lookup m k = None -> ~ In k (map fst m).
Proof.
  induction m as [|[k0 v0] m IH]; simpl; [tauto|].
  destruct (k0 =? k)%string eqn:E; [discriminate|].
  intros H [Hk|Hk].
  - subst k0. rewrite String.eqb_refl in E. discriminate.
  - exact (IH H Hk).
Qed.

Lemma getSpeakerName_inv registry speakerId :
  registry_inv registry ->
  registry_inv (snd (getSpeakerName registry speakerId)).
Proof.
  intros [Hnames Hkeys]. unfold getSpeakerName.
  destruct (lookup registry speakerId) eqn:E; [split; assumption|].
  cbn [snd]. split.
  - rewrite map_app, length_app, Nat.add_1_r, seq_S, map_app, Hnames.
    reflexivity.
  - rewrite map_app. cbn [map fst].
    apply NoDup_app; [exact Hkeys | repeat constructor; simpl; tauto|].
    intros k Hk [<-|[]]. exact (lookup_absent _ _ E Hk).
Qed.

Lemma getSpeakerName_keeps registry speakerId k v :
  lookup registry k = Some v ->
  lookup (snd (getSpeakerName registry speakerId)) k = Some v.
Proof.
  intros H. unfold getSpeakerName.
  destruct (lookup registry speakerId); [exact H|].
  cbn [snd]. now rewrite lookup_snoc, H.
Qed.

Lemma getSpeakerName_registers registry speakerId :
  lookup (snd (getSpeakerName registry speakerId)) speakerId
  = Some (fst (getSpeakerName registry speakerId)).
Proof.
  unfold getSpeakerName.
  destruct (lookup registry speakerId) eqn:E; cbn [fst snd]; [exact E|].
  now rewrite lookup_snoc, E, String.eqb_refl.
Qed.

Lemma getSpeakerName_size registry speakerId :
  (List.length (snd (getSpeakerName registry speakerId))
   <= S (List.length registry))%nat.
Proof.
  unfold getSpeakerName.
  destruct (lookup registry speakerId); cbn [snd]; [lia|].
  rewrite length_app. simpl. lia.
Qed.

Lemma name_speakers_step speakerId rest registry :
  name_speakers (speakerId :: rest) registry
  = (fst (getSpeakerName registry speakerId)
       :: fst (name_speakers rest (snd (getSpeakerName registry speakerId))),
     snd (name_speakers rest (snd (getSpeakerName registry speakerId)))).
Proof.
  cbn [name_speakers].
  destruct (getSpeakerName registry speakerId) as [name registry1].
  cbn [fst snd].
  now destruct (name_speakers rest registry1).
Qed.

Lemma name_speakers_facts speakerIds :
  forall registry,
    registry_inv registry ->
    registry_inv (snd (name_speakers speakerIds registry)) /\
    (List.length (snd (name_speakers speakerIds registry))
     <= List.length registry + List.length speakerIds)%nat /\
    (forall k v, lookup registry k = Some v ->
                 lookup (snd (name_speakers speakerIds registry)) k = Some v) /\
    Forall2
      (fun speakerId name =>
         lookup (snd (name_speakers speakerIds registry)) speakerId
         = Some name)
      speakerIds (fst (name_speakers speakerIds registry)).
Proof.
  induction speakerIds as [|speakerId rest IH]; intros registry Hinv.
  - cbn [name_speakers fst snd List.length].
    split; [exact Hinv|]. split; [lia|]. split; [auto | constructor].
  - rewrite name_speakers_step. cbn [fst snd].
    pose proof (getSpeakerName_inv registry speakerId Hinv) as Hinv1.
    destruct (IH _ Hinv1) as (Hinv2 & Hsize & Hkeep & Hall).
    pose proof (getSpeakerName_size registry speakerId) as Hsize1.
    split; [exact Hinv2|]. split; [cbn [List.length]; lia|]. split.
    + intros k v H. apply Hkeep. now apply getSpeakerName_keeps.
    + constructor; [|exact Hall].
      apply Hkeep. apply getSpeakerName_registers.
Qed.

Lemma speaker_label_injective i j :
  (i < 191)%nat -> (j < 191)%nat ->
  speaker_label i = speaker_label j -> i = j.
Proof.
  intros Hi Hj H. unfold speaker_label in H. cbn [append] in H.
  injection H as H.
  apply (f_equal nat_of_ascii) in H.
  rewrite !nat_ascii_embedding in H by lia. lia.
Qed.

Lemma registry_names_distinct registry k1 k2 name :
  registry_inv registry -> (List.length registry <= 191)%nat ->
  lookup registry k1 = Some name -> lookup registry k2 = Some name ->
  k1 = k2.
Proof.
  intros [Hnames _] Hsize H1 H2.
  destruct (lookup_nth _ _ _ H1) as [i1 Hi1].
  destruct (lookup_nth _ _ _ H2) as [i2 Hi2].
  assert (Hlabel : forall i k,
             nth_error registry i = Some (k, name) ->
             (i < List.length registry)%nat /\ name = speaker_label i).
  { intros i k Hi.
    assert (Hlt : (i < List.length registry)%nat).
    { apply nth_error_Some. congruence. }
    split; [exact Hlt|].
    pose proof (map_nth_error snd _ _ Hi) as Hs. rewrite Hnames in Hs.
    cbn [snd] in Hs.
    rewrite nth_error_map, nth_error_seq in Hs.
    apply Nat.ltb_lt in Hlt as Hb. rewrite Hb in Hs.
    cbn [option_map Nat.add] in Hs. congruence. }
  destruct (Hlabel _ _ Hi1) as [Hlt1 Hn1].
  destruct (Hlabel _ _ Hi2) as [Hlt2 Hn2].
  assert (i1 = i2).
  { apply speaker_label_injective; [lia | lia | congruence]. }
  subst i2. congruence.
Qed.

(** X20: naming of the speakers of a recording, from an empty registry:
    every event gets the name under which its speaker stands in the
    registry afterwards, so one speaker keeps one name; two different
    speakers never share a name; and the names are "Speaker A", "Speaker
    B", ... in the order in which the speakers were first heard. (The
    model of a character has 8 bits, which is where the bound of 191
    speakers comes from.) *)
Theorem speakers_keep_distinct_names (speakerIds : list string) :
  (List.length speakerIds <= 191)%nat ->
  let names := fst (name_speakers speakerIds []) in
  let registry := snd (name_speakers speakerIds []) in
  Forall2 (fun speakerId name => lookup registry speakerId = Some name)
    speakerIds names /\
  (forall id1 id2 name,
      lookup registry id1 = Some name -> lookup registry id2 = Some name ->
      id1 = id2) /\
  map snd registry = map speaker_label (seq 0 (List.length registry)).
Proof.
  intros Hsize names registry.
  assert (Hinv0 : registry_inv []).
  { split; [reflexivity | constructor]. }
  destruct (name_speakers_facts speakerIds [] Hinv0)
    as (Hinv & Hlen & _ & Hall).
  fold registry in Hinv, Hlen, Hall. fold names in Hall.
  repeat split.
  - exact Hall.
  - intros id1 id2 name H1 H2.
    apply (registry_names_distinct registry id1 id2 name); auto.
    cbn [List.length] in Hlen. lia.
  - apply Hinv.
Qed.

Lemma speakers_keep_distinct_names_witness :
  (List.length RegistryExample.arrivals <= 191)%nat /\
  fst (name_speakers RegistryExample.arrivals [])
  = ["Speaker A"; "Speaker B"; "Speaker A"] /\
  Forall2
    (fun speakerId name =>
       lookup (snd (name_speakers RegistryExample.arrivals [])) speakerId
       = Some name)
    RegistryExample.arrivals
    (fst (name_speakers RegistryExample.arrivals [])).
Proof.
  split; [simpl; lia|]. split; [reflexivity|].
  apply (speakers_keep_distinct_names RegistryExample.arrivals).
  simpl; lia.
Defined.
(* ------------------------------------------------------------------ *)
(** ** Question extraction *)

(** The pieces between the runs of a class hold no character of it. *)
Lemma split_runs_pieces (p : ascii -> bool) (s : string) :
  Forall (fun piece => all_chars (fun c => negb (p c)) piece = true)
    (split_runs p s).
Proof.
  induction s as [|c s IH].
  - repeat constructor.
  - cbn [split_runs]. destruct (p c) eqn:Ec.
    + destruct s as [|c' s']; [repeat constructor|].
      destruct (p c'); [exact IH|]. constructor; [reflexivity | exact IH].
    + destruct (split_runs p s) as [|piece pieces].
      * repeat constructor. cbn [all_chars]. now rewrite Ec.
      * inversion IH as [|? ? Hpiece Hpieces]; subst.
        constructor; [|exact Hpieces].
        cbn [all_chars]. now rewrite Ec, Hpiece.
Qed.

Lemma all_chars_drop_spaces p s :
  all_chars p s = true -> all_chars p (drop_spaces s) = true.
Proof.
  induction s as [|c s IH]; [reflexivity|].
  intros H. cbn [drop_spaces]. destruct (is_space c); [|exact H].
  cbn [all_chars] in H. apply andb_true_iff in H. now apply IH.
Qed.

Lemma all_chars_rev_string p s :
  forall acc,
    all_chars p s = true -> all_chars p acc = true ->
    all_chars p (rev_string s acc) = true.
Proof.
  induction s as [|c s IH]; intros acc Hs Hacc; [exact Hacc|].
  cbn [all_chars] in Hs. apply andb_true_iff in Hs. destruct Hs as [Hc Hs].
  cbn [rev_string]. apply IH; [exact Hs|].
  cbn [all_chars]. now rewrite Hc, Hacc.
Qed.

Lemma all_chars_trim p s : all_chars p s = true -> all_chars p (trim s) = true.
Proof.
  intros H. unfold trim.
  apply all_chars_rev_string; [|reflexivity].
  apply all_chars_drop_spaces.
  apply all_chars_rev_string; [|reflexivity].
  now apply all_chars_drop_spaces.
Qed.

Lemma sentences_facts t sentence :
  In sentence (sentences t) ->
  sentence <> "" /\
  all_chars (fun c => negb (is_terminator c)) sentence = true.
Proof.
  unfold sentences. intros H. apply filter_In in H. destruct H as [H Hlen].
  split.
  - intros ->. discriminate Hlen.
  - apply in_map_iff in H. destruct H as (piece & <- & Hpiece).
    apply all_chars_trim.
    pose proof (split_runs_pieces is_terminator t) as Hall.
    rewrite Forall_forall in Hall. now apply Hall.
Qed.

(** X21: every extracted question is a sentence of a segment whose text
    holds a question mark, written as "[speaker] sentence?": the
    sentence is not empty, holds none of ".", "!" and "?", and either
    stands before a question mark in the text or begins with one of the
    question words; in the second case the question mark is added
    whatever the sentence ended with. *)
Theorem questions_are_marked_sentences (segs : list CombinedSegment)
    (q : string) :
  In q (extractAllQuestions segs) ->
  exists seg sentence,
    In seg segs /\ includes (text seg) "?" = true /\
    q = ("[" ++ speaker seg ++ "] " ++ sentence ++ "?")%string /\
    sentence <> "" /\
    all_chars (fun c => negb (is_terminator c)) sentence = true /\
    (includes (text seg) (sentence ++ "?") = true \/
     exists lead,
       In lead lead_words /\ startsWith (toLowerCase sentence) lead = true).
Proof.
  unfold extractAllQuestions. intros H.
  apply in_flat_map in H. destruct H as (seg & Hseg & Hq).
  unfold questions_of in Hq.
  destruct (includes (text seg) "?") eqn:Emark; [|destruct Hq].
  apply in_map_iff in Hq. destruct Hq as (sentence & <- & Hs).
  apply filter_In in Hs. destruct Hs as [Hs Htest].
  destruct (sentences_facts _ _ Hs) as [Hne Hfree].
  exists seg, sentence. repeat split; auto.
  unfold is_question in Htest. apply orb_true_iff in Htest.
  destruct Htest as [Ht|Ht]; [now left | right].
  apply existsb_exists in Ht. destruct Ht as (lead & Hlead & Hstart).
  now exists lead.
Qed.

Lemma questions_are_marked_sentences_witness :
  extractAllQuestions QuestionExample.asked
  = ["[Customer] What a day?"; "[Customer] Is the warranty two years?"] /\
  exists seg sentence,
    In seg QuestionExample.asked /\ includes (text seg) "?" = true /\
    "[Customer] What a day?"
    = ("[" ++ speaker seg ++ "] " ++ sentence ++ "?")%string /\
    sentence <> "" /\
    all_chars (fun c => negb (is_terminator c)) sentence = true /\
    (includes (text seg) (sentence ++ "?") = true \/
     exists lead,
       In lead lead_words /\ startsWith (toLowerCase sentence) lead = true).
Proof.
  split; [reflexivity|].
  apply (questions_are_marked_sentences QuestionExample.asked).
  left. reflexivity.
Defined.
(* ------------------------------------------------------------------ *)
(** ** The stored record *)

Lemma startsWith_app p s : startsWith (p ++ s)%string p = true.
Proof.
  induction p as [|c p IH]; [now destruct s|].
  cbn [append startsWith]. now rewrite Ascii.eqb_refl, IH.
Qed.

Lemma coachingCards_shape parsed :
  (List.length (coachingCards parsed) <= 6)%nat /\
  Forall tagged (coachingCards parsed).
Proof.
  unfold coachingCards. split.
  - rewrite length_app, !length_map.
    pose proof (firstn_le_length 3 (or_empty (fa_strengths parsed))).
    pose proof (firstn_le_length 3 (or_empty (fa_opportunities parsed))).
    pose proof (length_firstn 3 (or_empty (fa_strengths parsed))).
    pose proof (length_firstn 3 (or_empty (fa_opportunities parsed))).
    lia.
  - apply Forall_app. split; apply Forall_forall; intros card Hcard;
      apply in_map_iff in Hcard; destruct Hcard as (s & <- & _).
    + left. apply startsWith_app.
    + right. apply startsWith_app.
Qed.

(** X22: whatever the model answers, and also when the call fails, the
    reply is no JSON, the transcript is too short to be analysed or the
    client cannot be constructed, the coaching card that is stored has
    between one and six entries, and each of them begins with
    "STRENGTH: " or "OPPORTUNITY: ". *)
Theorem stored_coaching_card_is_tagged
    (strip_fences : string -> string)
    (parse_analysis : string -> res FullAnalysis)
    (constructed : bool)
    (segs : list CombinedSegment) (reply : gemini_reply) :
  (1 <= List.length
          (stored_coachingCard
             (analyzeFullRecording strip_fences parse_analysis constructed
                segs reply))
     <= 6)%nat /\
  Forall tagged
    (stored_coachingCard
       (analyzeFullRecording strip_fences parse_analysis constructed
          segs reply)).
Proof.
  assert (Hdefault :
            (1 <= List.length ["STRENGTH: Call completed successfully"]
             <= 6)%nat
            /\ Forall tagged ["STRENGTH: Call completed successfully"]).
  { split; [simpl; lia|]. repeat constructor. }
  assert (Hstored : forall args,
             (List.length (sv_coachingCards args) <= 6)%nat ->
             Forall tagged (sv_coachingCards args) ->
             (1 <= List.length (stored_coachingCard args) <= 6)%nat /\
             Forall tagged (stored_coachingCard args)).
  { intros args Hlen Hall. unfold stored_coachingCard.
    destruct (sv_coachingCards args) as [|card cards] eqn:E;
      [exact Hdefault|].
    split; [simpl in Hlen |- *; lia | exact Hall]. }
  assert (Hcases :
            let cards :=
              sv_coachingCards
                (analyzeFullRecording strip_fences parse_analysis
                   constructed segs reply)
            in
            cards = [] \/
            cards = ["STRENGTH: Call completed successfully"] \/
            exists parsed, cards = coachingCards parsed).
  { unfold analyzeFullRecording.
    destruct (negb constructed); [now left|].
    destruct (_ || _); [now left|].
    destruct reply as [|responseText]; [now left|].
    destruct (parse_analysis (strip_fences responseText)) as [parsed|].
    - right. right. now exists parsed.
    - right. now left. }
  cbv zeta in Hcases.
  apply Hstored; destruct Hcases as [E|[E|[parsed E]]]; rewrite E;
    try apply Hdefault; try apply coachingCards_shape.
  - simpl. lia.
  - constructor.
Qed.

Lemma substring_prefix_length (n : nat) :
  forall s, String.length (substring 0 n s) = Nat.min n (String.length s).
Proof.
  induction n as [|n IH]; intros s.
  - now destruct s.
  - destruct s as [|c s]; [reflexivity|].
    cbn [substring String.length Nat.min]. now rewrite IH.
Qed.

Lemma string_append_length (s t : string) :
  String.length (s ++ t)%string = (String.length s + String.length t)%nat.
Proof.
  induction s as [|c s IH]; [reflexivity|].
  cbn [append String.length]. now rewrite IH.
Qed.

(** X23: a text passes [truncateLongText] unchanged when it fits; a
    longer one comes back with exactly [maxLength] characters, the last
    three of them dots; so the result never exceeds the limit, and
    truncating it again changes nothing. *)
Theorem truncateLongText_fits (t : string) (maxLength : nat) :
  (3 <= maxLength)%nat ->
  (String.length (truncateLongText t maxLength) <= maxLength)%nat /\
  ((maxLength < String.length t)%nat ->
   String.length (truncateLongText t maxLength) = maxLength /\
   truncateLongText t maxLength
   = (substring 0 (maxLength - 3) t ++ "...")%string) /\
  truncateLongText (truncateLongText t maxLength) maxLength
  = truncateLongText t maxLength.
Proof.
  intros Hmax.
  assert (Hcut : (maxLength < String.length t)%nat ->
                 String.length (substring 0 (maxLength - 3) t ++ "...")%string
                 = maxLength).
  { intros Hlong. rewrite string_append_length, substring_prefix_length.
    cbn [String.length]. lia. }
  assert (Hshort : forall s, (String.length s <= maxLength)%nat ->
                             truncateLongText s maxLength = s).
  { intros s Hs. unfold truncateLongText.
    now destruct (Nat.leb_spec (String.length s) maxLength); [|lia]. }
  assert (Hlong : (maxLength < String.length t)%nat ->
                  truncateLongText t maxLength
                  = (substring 0 (maxLength - 3) t ++ "...")%string).
  { intros Ht. unfold truncateLongText.
    now destruct (Nat.leb_spec (String.length t) maxLength); [lia|]. }
  destruct (Nat.leb_spec (String.length t) maxLength) as [Hfit|Ht].
  - rewrite !(Hshort t Hfit). split; [exact Hfit|]. split; [lia | reflexivity].
  - specialize (Hcut Ht). rewrite !(Hlong Ht).
    split; [lia|]. split; [auto|]. apply Hshort. lia.
Qed.

Lemma truncateLongText_fits_witness :
  (3 <= 5)%nat /\
  truncateLongText "warranty" 5 = "wa..." /\
  truncateLongText (truncateLongText "warranty" 5) 5
  = truncateLongText "warranty" 5.
Proof.
  split; [lia|]. split; [reflexivity|].
  apply (truncateLongText_fits "warranty" 5). lia.
Defined.
(* ------------------------------------------------------------------ *)
(** ** The series of a transcript whose segments all carry a label *)

Lemma Math_round_Z (z : Z) : Math_round (inject_Z z) = z.
Proof.
  unfold Math_round. apply Qfloor_unique.
  - lra.
  - rewrite inject_Z_plus. change (inject_Z 1) with 1. lra.
Qed.

Lemma currentAvg_constant (a cnt : Z) :
  (0 < cnt)%Z -> currentAvg (a * cnt) cnt = a.
Proof.
  intros Hc. unfold currentAvg, Math_round.
  assert (Hq : inject_Z (a * cnt) / inject_Z cnt == inject_Z a).
  { rewrite inject_Z_mult. field.
    intros H0. unfold Qeq in H0. simpl in H0. lia. }
  rewrite Hq. apply Math_round_Z.
Qed.

Lemma parity_succ (i : nat) :
  (i mod 2 = 0 /\ S i mod 2 = 1)%nat \/ (i mod 2 = 1 /\ S i mod 2 = 0)%nat.
Proof.
  induction i as [|i IH]; [now left|].
  assert (H : (S (S i) mod 2 = i mod 2)%nat).
  { replace (S (S i)) with (i + 1 * 2)%nat by lia.
    apply Nat.Div0.mod_add. }
  rewrite H. tauto.
Qed.

(** Once a point has followed the anchor, a point is pushed at even
    indices only. *)
Lemma graph_step_even i seg st :
  (2 <= List.length (points st))%nat ->
  exists extra,
    points (graph_step i seg st) = points st ++ extra /\
    (List.length extra <= 1 - i mod 2)%nat.
Proof.
  intros Hlen. unfold graph_step.
  assert (Hnone : exists extra,
             points st = points st ++ extra /\
             (List.length extra <= 1 - i mod 2)%nat).
  { exists []. rewrite app_nil_r. split; [reflexivity | simpl; lia]. }
  destruct (truthy (sentiment seg)); [|exact Hnone]. cbn [points].
  destruct (Nat.eqb_spec (List.length (points st)) 1) as [E|_]; [lia|].
  rewrite orb_false_r.
  destruct (Nat.eqb_spec (i mod 2) 0) as [Ei|_]; [|exact Hnone].
  destruct (emits _ _); [|exact Hnone].
  eexists. split; [reflexivity|]. rewrite Ei. simpl. lia.
Qed.

Lemma graph_loop_even segs :
  forall i st,
    (2 <= List.length (points st))%nat ->
    exists extra,
      points (graph_loop i segs st) = points st ++ extra /\
      (2 * List.length extra <= List.length segs + (1 - i mod 2))%nat.
Proof.
  induction segs as [|seg segs IH]; intros i st Hlen.
  - exists []. rewrite app_nil_r. split; [reflexivity | simpl; lia].
  - cbn [graph_loop].
    destruct (graph_step_even i seg st Hlen) as (e1 & He1 & Hl1).
    assert (Hlen1 : (2 <= List.length (points (graph_step i seg st)))%nat).
    { rewrite He1, length_app. lia. }
    destruct (IH (S i) _ Hlen1) as (e2 & He2 & Hl2).
    exists (e1 ++ e2). split.
    + rewrite He2, He1, app_assoc. reflexivity.
    + rewrite length_app. cbn [List.length].
      destruct (parity_succ i) as [[Hi Hs]|[Hi Hs]];
        rewrite Hi in Hl1; rewrite Hs in Hl2; rewrite Hi; simpl in *; lia.
Qed.

Lemma graph_first_step seg :
  truthy (sentiment seg) = true ->
  graph_step 0 seg graph_init
  = {| points := [anchor; {| time := formatTime (start seg);
                             value := score (sentiment seg) |}];
       cumulativeSentiment := score (sentiment seg);
       segmentCount := 1 |}.
Proof.
  intros Hs. unfold graph_step. rewrite Hs.
  cbn [points cumulativeSentiment segmentCount graph_init].
  change ((0 mod 2 =? 0)%nat || (List.length [anchor] =? 1)%nat) with true.
  change (emits [anchor]
            (currentAvg (0 + score (sentiment seg)) (0 + 1))) with true.
  cbv iota.
  replace (0 + score (sentiment seg))%Z with (score (sentiment seg) * 1)%Z
    by lia.
  change (0 + 1)%Z with 1%Z.
  rewrite currentAvg_constant by lia.
  rewrite Z.mul_1_r. reflexivity.
Qed.

(** When the first segment carries a sentiment it is always sampled, and
    after it no more than every second segment is. *)
Lemma first_bearing_is_sampled seg segs :
  truthy (sentiment seg) = true ->
  exists rest,
    generateSentimentGraph (seg :: segs)
    = anchor :: {| time := formatTime (start seg);
                   value := score (sentiment seg) |} :: rest /\
    (2 * List.length rest <= List.length segs)%nat.
Proof.
  intros Hs. unfold generateSentimentGraph. cbn [graph_loop].
  rewrite (graph_first_step seg Hs).
  match goal with
  | |- context [graph_loop 1 segs ?st] =>
      destruct (graph_loop_even segs 1 st) as (extra & He & Hl);
        [simpl; lia|]
  end.
  exists extra. split; [exact He|].
  change (1 mod 2)%nat with 1%nat in Hl. simpl in Hl. lia.
Qed.

Lemma graph_loop_constant label segs :
  Forall (fun seg => sentiment seg = Some label) segs ->
  truthy (Some label) = true ->
  forall i p cnt,
    (1 <= cnt)%Z -> value p = score (Some label) ->
    points (graph_loop i segs
              {| points := [anchor; p];
                 cumulativeSentiment := score (Some label) * cnt;
                 segmentCount := cnt |})
    = [anchor; p].
Proof.
  intros Hall Hlabel.
  induction Hall as [|seg segs Hseg _ IH]; intros i p cnt Hcnt Hp;
    [reflexivity|].
  cbn [graph_loop].
  assert (Hstep :
            graph_step i seg
              {| points := [anchor; p];
                 cumulativeSentiment := score (Some label) * cnt;
                 segmentCount := cnt |}
            = {| points := [anchor; p];
                 cumulativeSentiment := score (Some label) * (cnt + 1);
                 segmentCount := cnt + 1 |}).
  { unfold graph_step. rewrite Hseg, Hlabel.
    cbn [points cumulativeSentiment segmentCount].
    replace (score (Some label) * cnt + score (Some label))%Z
      with (score (Some label) * (cnt + 1))%Z by lia.
    rewrite currentAvg_constant by lia.
    assert (He : emits [anchor; p] (score (Some label)) = false).
    { unfold emits. cbn [List.length last Nat.eqb orb]. rewrite Hp.
      rewrite Z.sub_diag. reflexivity. }
    rewrite He. now destruct (_ || _). }
  rewrite Hstep. apply IH; [lia | exact Hp].
Qed.

(** X24: a transcript in which every segment carries the same label
    gives a series of exactly two points, the anchor and the sample of
    the first segment: the running average never moves, so nothing else
    is pushed, however long the conversation is. *)
Theorem constant_sentiment_gives_two_points (label : string)
    (seg : CombinedSegment) (segs : list CombinedSegment) :
  truthy (Some label) = true ->
  Forall (fun s => sentiment s = Some label) (seg :: segs) ->
  generateSentimentGraph (seg :: segs)
  = [anchor; {| time := formatTime (start seg);
                value := score (Some label) |}].
Proof.
  intros Hlabel Hall.
  inversion Hall as [|? ? Hseg Hsegs]; subst.
  unfold generateSentimentGraph. cbn [graph_loop].
  rewrite graph_first_step by (now rewrite Hseg).
  rewrite Hseg.
  rewrite <- (Z.mul_1_r (score (Some label))) at 2.
  apply graph_loop_constant; auto. lia.
Qed.

Lemma constant_sentiment_gives_two_points_witness :
  generateSentimentGraph ConstantExample.steady
  = [anchor; {| time := "0:00"; value := 80 |}].
Proof.
  apply (constant_sentiment_gives_two_points "positive").
  - reflexivity.
  - repeat constructor.
Defined.

(* ------------------------------------------------------------------ *)
(** ** Uploaded files *)

Lemma or_neutral_truthy o : truthy (Some (or_neutral o)) = true.
Proof.
  unfold or_neutral, truthy. destruct o as [s|]; [|reflexivity].
  destruct (s =? "")%string eqn:E; [reflexivity|]. now rewrite E.
Qed.

Lemma enrichedSegments_labelled segmentAnalysis segs :
  Forall (fun seg => truthy (emotion seg) = true /\
                     truthy (sentiment seg) = true)
    (enrichedSegments segmentAnalysis segs).
Proof.
  unfold enrichedSegments, mapi. generalize 0%nat.
  induction segs as [|seg segs IH]; intros i; [constructor|].
  cbn [mapi_from]. constructor; [|apply IH].
  cbn [enrich emotion sentiment]. split; apply or_neutral_truthy.
Qed.

(** X25: the series stored for an uploaded file. Enrichment leaves no
    segment without an emotion and a sentiment ("neutral" where the
    model gave none), so the first segment is always sampled, with its
    own score, right after the anchor; of the segments after it at most
    every second one adds a point. *)
Theorem uploaded_series_samples_first_segment
    (segmentAnalysis : option (list SegmentAnalysis))
    (seg : AzureSpeakerSegment) (segs : list AzureSpeakerSegment) :
  Forall (fun s => truthy (emotion s) = true /\ truthy (sentiment s) = true)
    (enrichedSegments segmentAnalysis (seg :: segs)) /\
  exists rest,
    generateSentimentGraph (enrichedSegments segmentAnalysis (seg :: segs))
    = anchor
      :: {| time := formatTime (az_start seg);
            value := score (sentiment (enrich segmentAnalysis 0 seg)) |}
      :: rest /\
    (2 * List.length rest <= List.length segs)%nat.
Proof.
  split; [apply enrichedSegments_labelled|].
  unfold enrichedSegments, mapi. cbn [mapi_from].
  destruct (first_bearing_is_sampled (enrich segmentAnalysis 0 seg)
              (mapi_from (enrich segmentAnalysis) 1 segs))
    as (rest & Hrest & Hlen).
  { cbn [enrich sentiment]. apply or_neutral_truthy. }
  exists rest. split; [exact Hrest|].
  now rewrite mapi_from_length in Hlen.
Qed.
(* ------------------------------------------------------------------ *)
(** ** The earlier sampler *)

Lemma three_step_ind {A : Type} (P : list A -> Prop) :
  P [] -> (forall a, P [a]) -> (forall a b, P [a; b]) ->
  (forall a b c l, P l -> P (a :: b :: c :: l)) ->
  forall l, P l.
Proof.
  intros H0 H1 H2 H3 l.
  assert (H : P l /\ (forall a, P (a :: l)) /\ (forall a b, P (a :: b :: l))).
  { induction l as [|x l (IHa & IHb & IHc)]; [auto|].
    split; [apply IHb|]. split; [intro; apply IHc|].
    intros a b. now apply H3. }
  apply H.
Qed.

(** X26: the series of the earlier hook is the list of the samples of
    the segments 0, 3, 6, ...: point [i] belongs to segment [3 * i],
    whether or not that segment carries a sentiment, and there is one
    point for every started group of three segments. *)
Theorem legacy_series_samples_every_third (segs : list CombinedSegment) :
  List.length (generateSentimentGraph_legacy segs)
  = ((List.length segs + 2) / 3)%nat /\
  forall i,
    nth_error (generateSentimentGraph_legacy segs) i
    = option_map legacy_point (nth_error segs (3 * i)).
Proof.
  induction segs as [|a|a b|a b c l [IHlen IHnth]] using three_step_ind.
  - split; [reflexivity|]. intros i. cbn [generateSentimentGraph_legacy].
    now rewrite !nth_error_nil.
  - split; [reflexivity|]. intros [|i]; [reflexivity|].
    cbn [generateSentimentGraph_legacy nth_error].
    rewrite nth_error_nil.
    replace (3 * S i)%nat with (S (3 * i + 2)) by lia.
    cbn [nth_error]. now rewrite nth_error_nil.
  - split; [reflexivity|]. intros [|i]; [reflexivity|].
    cbn [generateSentimentGraph_legacy nth_error].
    rewrite nth_error_nil.
    replace (3 * S i)%nat with (S (S (3 * i + 1))) by lia.
    cbn [nth_error]. now rewrite nth_error_nil.
  - cbn [generateSentimentGraph_legacy List.length]. split.
    + rewrite IHlen.
      replace (S (S (S (List.length l))) + 2)%nat
        with (List.length l + 2 + 1 * 3)%nat by lia.
      rewrite Nat.div_add by lia. lia.
    + intros [|i]; [reflexivity|].
      replace (3 * S i)%nat with (S (S (S (3 * i)))) by lia.
      cbn [nth_error]. apply IHnth.
Qed.
(* ------------------------------------------------------------------ *)
(** ** Conversion to WAV *)

Lemma store_app (pre post : list Z) (old byte : Z) :
  store (pre ++ old :: post) (List.length pre) byte = pre ++ byte :: post.
Proof.
  induction pre as [|b pre IH]; [reflexivity|].
  cbn [app List.length store]. now rewrite IH.
Qed.

Lemma store_all_app (bytes : list Z) :
  forall pre old post,
    List.length old = List.length bytes ->
    store_all (pre ++ old ++ post) (List.length pre) bytes
    = pre ++ bytes ++ post.
Proof.
  induction bytes as [|byte bytes IH]; intros pre old post Hlen.
  - destruct old; [reflexivity | discriminate].
  - destruct old as [|o old]; [discriminate|].
    injection Hlen as Hlen.
    cbn [store_all app]. rewrite store_app.
    replace (pre ++ byte :: old ++ post)
      with ((pre ++ [byte]) ++ old ++ post)
      by (now rewrite <- app_assoc).
    replace (S (List.length pre)) with (List.length (pre ++ [byte]))
      by (rewrite length_app; simpl; lia).
    rewrite (IH _ old post Hlen). now rewrite <- app_assoc.
Qed.

(** A store at the end of what has been written so far, into the part
    of the buffer that still holds zeros. *)
Lemma set_bytes_fresh (pre bytes : list Z) (m : nat) :
  set_bytes (pre ++ repeat 0%Z (List.length bytes + m)) (List.length pre)
    bytes
  = Ok ((pre ++ bytes) ++ repeat 0%Z m).
Proof.
  unfold set_bytes.
  rewrite length_app, repeat_length.
  destruct (Nat.leb_spec (List.length pre + List.length bytes)
              (List.length pre + (List.length bytes + m))) as [_|H];
    [|lia].
  rewrite repeat_app.
  rewrite store_all_app by apply repeat_length.
  now rewrite app_assoc.
Qed.

Lemma little_endian_length (width : nat) :
  forall n, List.length (little_endian width n) = width.
Proof.
  induction width as [|w IH]; intros n; [reflexivity|].
  cbn [little_endian List.length]. now rewrite IH.
Qed.

Lemma truncate_Z (z : Z) : truncate (inject_Z z) = z.
Proof.
  unfold truncate. destruct (Qle_bool 0 (inject_Z z));
    [apply Qfloor_Z | apply Qceiling_Z].
Qed.

Lemma char_byte (c : ascii) :
  little_endian 1 (to_uint 1 (num (code c))) = [Z.of_nat (code c)].
Proof.
  unfold to_uint, num. rewrite truncate_Z. cbn [little_endian].
  pose proof (nat_ascii_bounded c) as Hc. fold (code c) in Hc.
  change (2 ^ (8 * Z.of_nat 1))%Z with 256%Z.
  rewrite Z.mod_mod by lia.
  rewrite Z.mod_small by lia. reflexivity.
Qed.

Lemma writeString_fresh (s : string) :
  forall pre m,
    writeString (pre ++ repeat 0%Z (String.length s + m)) (List.length pre) s
    = Ok ((pre ++ char_codes s) ++ repeat 0%Z m).
Proof.
  induction s as [|c s IH]; intros pre m.
  - cbn [writeString char_codes String.length Nat.add].
    now rewrite app_nil_r.
  - cbn [writeString char_codes String.length]. unfold setUint8.
    rewrite char_byte.
    change (S (String.length s) + m)%nat
      with (List.length [Z.of_nat (code c)] + (String.length s + m))%nat.
    rewrite set_bytes_fresh. cbn [bind].
    replace (S (List.length pre))
      with (List.length (pre ++ [Z.of_nat (code c)]))
      by (rewrite length_app; simpl; lia).
    rewrite IH. now rewrite <- (app_assoc pre).
Qed.

Lemma write_channels_fresh (buffer : AudioBuffer) (i : nat)
    (channels : list nat) :
  forall pre m,
    write_channels buffer i channels
      (List.length pre,
       pre ++ repeat 0%Z (2 * List.length channels + m))
    = Ok ((List.length pre + 2 * List.length channels)%nat,
          (pre ++ flat_map (sample_bytes buffer i) channels)
          ++ repeat 0%Z m).
Proof.
  induction channels as [|channel channels IH]; intros pre m.
  - cbn [write_channels flat_map List.length Nat.mul Nat.add].
    now rewrite app_nil_r, Nat.add_0_r.
  - cbn [write_channels fst snd flat_map]. unfold setInt16.
    fold (sample_bytes buffer i channel).
    replace (2 * List.length (channel :: channels) + m)%nat
      with (List.length (sample_bytes buffer i channel)
            + (2 * List.length channels + m))%nat
      by (unfold sample_bytes; rewrite little_endian_length;
          cbn [List.length]; lia).
    rewrite set_bytes_fresh. cbn [bind].
    replace (List.length pre + 2)%nat
      with (List.length (pre ++ sample_bytes buffer i channel))
      by (rewrite length_app; unfold sample_bytes;
          now rewrite little_endian_length).
    rewrite IH. f_equal. f_equal.
    + rewrite length_app. unfold sample_bytes.
      rewrite little_endian_length. cbn [List.length]. lia.
    + now rewrite <- (app_assoc pre).
Qed.

Lemma write_frames_fresh (buffer : AudioBuffer) (frames : list nat) :
  forall pre m,
    write_frames buffer frames
      (List.length pre,
       pre ++ repeat 0%Z
                (2 * numberOfChannels buffer * List.length frames + m))
    = Ok ((List.length pre
           + 2 * numberOfChannels buffer * List.length frames)%nat,
          (pre ++ flat_map (frame_bytes buffer) frames) ++ repeat 0%Z m).
Proof.
  induction frames as [|i frames IH]; intros pre m.
  - cbn [write_frames flat_map List.length].
    rewrite Nat.mul_0_r, Nat.add_0_r, app_nil_r. reflexivity.
  - cbn [write_frames flat_map].
    replace (2 * numberOfChannels buffer * List.length (i :: frames) + m)%nat
      with (2 * List.length (seq 0 (numberOfChannels buffer))
            + (2 * numberOfChannels buffer * List.length frames + m))%nat
      by (rewrite length_seq; cbn [List.length]; lia).
    rewrite write_channels_fresh. cbn [bind].
    fold (frame_bytes buffer i).
    assert (Hlen : (List.length pre
                    + 2 * List.length (seq 0 (numberOfChannels buffer)))%nat
                   = List.length (pre ++ frame_bytes buffer i)).
    { rewrite length_app. f_equal. unfold frame_bytes.
      generalize (seq 0 (numberOfChannels buffer)). intros l.
      induction l as [|x l IHl]; [reflexivity|].
      cbn [flat_map]. rewrite length_app. unfold sample_bytes at 1.
      rewrite little_endian_length, <- IHl. cbn [List.length]. lia. }
    rewrite Hlen, IH. f_equal. f_equal.
    + rewrite <- Hlen, length_seq. cbn [List.length]. lia.
    + now rewrite <- (app_assoc pre).
Qed.

Lemma wav_header_length (buffer : AudioBuffer) :
  List.length (wav_header buffer) = 44%nat.
Proof. reflexivity. Qed.

Lemma set_bytes_step (view : list Z) (offset : nat) (bytes pre : list Z)
    (m : nat) :
  view = pre ++ repeat 0%Z (List.length bytes + m) ->
  offset = List.length pre ->
  set_bytes view offset bytes = Ok ((pre ++ bytes) ++ repeat 0%Z m).
Proof. intros -> ->. apply set_bytes_fresh. Qed.

Lemma writeString_step (view : list Z) (offset : nat) (s : string)
    (pre : list Z) (m : nat) :
  view = pre ++ repeat 0%Z (String.length s + m) ->
  offset = List.length pre ->
  writeString view offset s = Ok ((pre ++ char_codes s) ++ repeat 0%Z m).
Proof. intros -> ->. apply writeString_fresh. Qed.

Lemma write_frames_step (buffer : AudioBuffer) (view : list Z)
    (offset : nat) (pre : list Z) :
  view = pre ++ repeat 0%Z
                  (ab_length buffer * (numberOfChannels buffer * 2)) ->
  offset = List.length pre ->
  st <- write_frames buffer (seq 0 (ab_length buffer)) (offset, view) ;;
  Ok (snd st)
  = Ok (pre ++ pcm buffer).
Proof.
  intros -> ->.
  replace (ab_length buffer * (numberOfChannels buffer * 2))%nat
    with (2 * numberOfChannels buffer
          * List.length (seq 0 (ab_length buffer)) + 0)%nat
    by (rewrite length_seq; lia).
  rewrite write_frames_fresh. cbn [bind snd repeat].
  now rewrite app_nil_r.
Qed.

(** The conversion never writes outside its buffer, and fills it with
    the header followed by the samples. *)
Lemma audioBufferToWav_layout (buffer : AudioBuffer) :
  audioBufferToWav buffer = Ok (wav_header buffer ++ pcm buffer).
Proof.
  unfold audioBufferToWav.
  change (16 / 8)%nat with 2%nat. cbv zeta.
  set (d := (ab_length buffer * (numberOfChannels buffer * 2))%nat).
  unfold setUint32, setUint16.
  rewrite (writeString_step _ _ _ [] (40 + d)) by reflexivity.
  cbn [bind].
  do 12 (first [ erewrite writeString_step by reflexivity
               | erewrite set_bytes_step by reflexivity ];
         cbn [bind]).
  subst d. erewrite write_frames_step; [|reflexivity|reflexivity].
  reflexivity.
Qed.
Lemma from_little_endian_spec (width : nat) :
  forall n,
    from_little_endian (little_endian width n)
    = (n mod 2 ^ (8 * Z.of_nat width))%Z.
Proof.
  induction width as [|w IH]; intros n.
  - cbn [little_endian from_little_endian].
    change (2 ^ (8 * Z.of_nat 0))%Z with 1%Z. now rewrite Z.mod_1_r.
  - cbn [little_endian from_little_endian]. rewrite IH.
    replace (8 * Z.of_nat (S w))%Z with (8 + 8 * Z.of_nat w)%Z by lia.
    rewrite Z.pow_add_r by lia. change (2 ^ 8)%Z with 256%Z.
    rewrite Z.rem_mul_r by lia. reflexivity.
Qed.

Lemma to_uint_range (width : nat) (value : Q) :
  (0 <= to_uint width value < 2 ^ (8 * Z.of_nat width))%Z.
Proof. unfold to_uint. apply Z.mod_pos_bound. lia. Qed.

(** What was stored in a field is what is read from it. *)
Lemma stored_is_read (width : nat) (value : Q) :
  from_little_endian (little_endian width (to_uint width value))
  = to_uint width value.
Proof.
  rewrite from_little_endian_spec. apply Z.mod_small. apply to_uint_range.
Qed.

Lemma to_uint_num (width n : nat) :
  (Z.of_nat n < 2 ^ (8 * Z.of_nat width))%Z ->
  to_uint width (num n) = Z.of_nat n.
Proof.
  intros H. unfold to_uint, num. rewrite truncate_Z.
  apply Z.mod_small. lia.
Qed.

Lemma truncate_comp (x y : Q) : x == y -> truncate x = truncate y.
Proof.
  intros H. unfold truncate.
  assert (Hb : Qle_bool 0 x = Qle_bool 0 y).
  { destruct (Qle_bool 0 x) eqn:Ex, (Qle_bool 0 y) eqn:Ey; auto.
    - apply Qle_bool_iff in Ex. rewrite H in Ex.
      apply Qle_bool_iff in Ex. congruence.
    - apply Qle_bool_iff in Ey. rewrite <- H in Ey.
      apply Qle_bool_iff in Ey. congruence. }
  rewrite Hb. destruct (Qle_bool 0 y).
  - now rewrite H.
  - now rewrite H.
Qed.

Lemma to_uint_integer (width : nat) (value : Q) (z : Z) :
  value == inject_Z z -> (0 <= z < 2 ^ (8 * Z.of_nat width))%Z ->
  to_uint width value = z.
Proof.
  intros H Hz. unfold to_uint. rewrite (truncate_comp _ _ H), truncate_Z.
  now apply Z.mod_small.
Qed.

Lemma pcm_length (buffer : AudioBuffer) :
  List.length (pcm buffer)
  = (2 * numberOfChannels buffer * ab_length buffer)%nat.
Proof.
  assert (Hframe : forall i,
             List.length (frame_bytes buffer i)
             = (2 * numberOfChannels buffer)%nat).
  { intros i. unfold frame_bytes.
    rewrite <- (length_seq (numberOfChannels buffer) 0) at 2.
    generalize (seq 0 (numberOfChannels buffer)). intros l.
    induction l as [|x l IH]; [reflexivity|].
    cbn [flat_map]. rewrite length_app, IH. unfold sample_bytes.
    rewrite little_endian_length. cbn [List.length]. lia. }
  unfold pcm.
  rewrite <- (length_seq (ab_length buffer) 0) at 2.
  generalize (seq 0 (ab_length buffer)). intros l.
  induction l as [|x l IH]; [simpl; lia|].
  cbn [flat_map]. rewrite length_app, IH, Hframe. cbn [List.length]. lia.
Qed.

(** X27: the file that is handed to the transcriber. The conversion
    always succeeds, and its result has 44 bytes of header followed by
    two bytes for every sample. A reader finds the four tags, a format
    chunk of 16 bytes for 16-bit PCM, the number of channels and the
    block size, the sample rate and the byte rate, and, for a file of
    less than four gigabytes, sizes that agree with the length of the
    file. *)
Theorem wav_header_describes_the_file (buffer : AudioBuffer) :
  exists out,
    audioBufferToWav buffer = Ok out /\
    List.length out
    = (44 + 2 * numberOfChannels buffer * ab_length buffer)%nat /\
    bytes_at out 0 4 = char_codes "RIFF" /\
    bytes_at out 8 8 = char_codes "WAVEfmt " /\
    bytes_at out 36 4 = char_codes "data" /\
    getUint32 out 16 = 16%Z /\
    getUint16 out 20 = 1%Z /\
    getUint16 out 34 = 16%Z /\
    ((Z.of_nat (List.length out) < 2 ^ 32)%Z ->
     getUint32 out 4 = (Z.of_nat (List.length out) - 8)%Z /\
     getUint32 out 40 = (Z.of_nat (List.length out) - 44)%Z) /\
    ((Z.of_nat (numberOfChannels buffer) < 32768)%Z ->
     getUint16 out 22 = Z.of_nat (numberOfChannels buffer) /\
     getUint16 out 32 = (2 * Z.of_nat (numberOfChannels buffer))%Z) /\
    (forall rate : Z,
        sampleRate buffer == inject_Z rate ->
        (0 <= rate < 2 ^ 32)%Z ->
        (rate * (2 * Z.of_nat (numberOfChannels buffer)) < 2 ^ 32)%Z ->
        getUint32 out 24 = rate /\
        getUint32 out 28
        = (rate * (2 * Z.of_nat (numberOfChannels buffer)))%Z).
Proof.
  exists (wav_header buffer ++ pcm buffer).
  split; [apply audioBufferToWav_layout|].
  assert (Hlen : List.length (wav_header buffer ++ pcm buffer)
                 = (44 + 2 * numberOfChannels buffer * ab_length buffer)%nat).
  { rewrite length_app, pcm_length. reflexivity. }
  split; [exact Hlen|].
  split; [reflexivity|]. split; [reflexivity|]. split; [reflexivity|].
  set (blockAlign := (numberOfChannels buffer * 2)%nat).
  set (dataSize := (ab_length buffer * blockAlign)%nat).
  assert (H16 : getUint32 (wav_header buffer ++ pcm buffer) 16
                = from_little_endian
                    (little_endian 4 (to_uint 4 (num 16))))
    by reflexivity.
  assert (H20 : getUint16 (wav_header buffer ++ pcm buffer) 20
                = from_little_endian
                    (little_endian 2 (to_uint 2 (num 1))))
    by reflexivity.
  assert (H34 : getUint16 (wav_header buffer ++ pcm buffer) 34
                = from_little_endian
                    (little_endian 2 (to_uint 2 (num 16))))
    by reflexivity.
  assert (H4 : getUint32 (wav_header buffer ++ pcm buffer) 4
               = from_little_endian
                   (little_endian 4 (to_uint 4 (num (36 + dataSize)))))
    by reflexivity.
  assert (H40 : getUint32 (wav_header buffer ++ pcm buffer) 40
                = from_little_endian
                    (little_endian 4 (to_uint 4 (num dataSize))))
    by reflexivity.
  assert (H22 : getUint16 (wav_header buffer ++ pcm buffer) 22
                = from_little_endian
                    (little_endian 2
                       (to_uint 2 (num (numberOfChannels buffer)))))
    by reflexivity.
  assert (H32 : getUint16 (wav_header buffer ++ pcm buffer) 32
                = from_little_endian
                    (little_endian 2 (to_uint 2 (num blockAlign))))
    by reflexivity.
  assert (H24 : getUint32 (wav_header buffer ++ pcm buffer) 24
                = from_little_endian
                    (little_endian 4 (to_uint 4 (sampleRate buffer))))
    by reflexivity.
  assert (H28 : getUint32 (wav_header buffer ++ pcm buffer) 28
                = from_little_endian
                    (little_endian 4
                       (to_uint 4 (sampleRate buffer * num blockAlign))))
    by reflexivity.
  rewrite H16, H20, H34, H4, H40, H22, H32, H24, H28, !stored_is_read.
  rewrite Hlen. clear H16 H20 H34 H4 H40 H22 H32 H24 H28.
  split; [reflexivity|]. split; [reflexivity|]. split; [reflexivity|].
  split; [|split].
  - intros Hsize.
    change (2 ^ 32)%Z with 4294967296%Z in Hsize.
    rewrite !to_uint_num
      by (change (2 ^ (8 * Z.of_nat 4))%Z with 4294967296%Z;
          unfold dataSize, blockAlign; lia).
    unfold dataSize, blockAlign. lia.
  - intros Hch.
    rewrite !to_uint_num
      by (change (2 ^ (8 * Z.of_nat 2))%Z with 65536%Z;
          unfold blockAlign; lia).
    unfold blockAlign. lia.
  - intros rate Hrate Hr Hbr.
    change (2 ^ 32)%Z with 4294967296%Z in Hr, Hbr.
    split.
    + apply to_uint_integer; [exact Hrate|].
      change (2 ^ (8 * Z.of_nat 4))%Z with 4294967296%Z. lia.
    + apply to_uint_integer.
      * rewrite Hrate. unfold num, blockAlign.
        rewrite <- inject_Z_mult. 
        replace (Z.of_nat (numberOfChannels buffer * 2))
          with (2 * Z.of_nat (numberOfChannels buffer))%Z by lia.
        reflexivity.
      * change (2 ^ (8 * Z.of_nat 4))%Z with 4294967296%Z. nia.
Qed.
Lemma flat_map_skipn {A B : Type} (f : A -> list B) (k : nat) :
  (forall x, List.length (f x) = k) ->
  forall j l, skipn (k * j) (flat_map f l) = flat_map f (skipn j l).
Proof.
  intros Hk. induction j as [|j IH]; intros l.
  - now rewrite Nat.mul_0_r.
  - destruct l as [|x l]; [now rewrite skipn_nil|].
    cbn [flat_map skipn].
    rewrite skipn_app, skipn_all2 by (rewrite Hk; lia).
    rewrite Hk. replace (k * S j - k)%nat with (k * j)%nat by lia.
    apply IH.
Qed.

Lemma flat_map_block {A B : Type} (f : A -> list B) (k : nat) :
  (forall x, List.length (f x) = k) ->
  forall j l x,
    nth_error l j = Some x ->
    exists rest, skipn (k * j) (flat_map f l) = f x ++ rest.
Proof.
  intros Hk j l x Hx. rewrite (flat_map_skipn f k Hk).
  destruct (nth_error_split l j Hx) as (l1 & l2 & -> & <-).
  rewrite skipn_app, skipn_all, Nat.sub_diag. cbn [app skipn flat_map].
  now exists (flat_map f l2).
Qed.

Lemma seq_nth_error (n j : nat) : (j < n)%nat -> nth_error (seq 0 n) j = Some j.
Proof.
  intros H. rewrite nth_error_seq.
  apply Nat.ltb_lt in H. now rewrite H.
Qed.

Lemma sample_bytes_length buffer i channel :
  List.length (sample_bytes buffer i channel) = 2%nat.
Proof. unfold sample_bytes. apply little_endian_length. Qed.

Lemma frame_bytes_length buffer i :
  List.length (frame_bytes buffer i) = (2 * numberOfChannels buffer)%nat.
Proof.
  unfold frame_bytes.
  rewrite <- (length_seq (numberOfChannels buffer) 0) at 2.
  generalize (seq 0 (numberOfChannels buffer)). intros l.
  induction l as [|x l IH]; [reflexivity|].
  cbn [flat_map]. rewrite length_app, IH, sample_bytes_length.
  cbn [List.length]. lia.
Qed.

(** Where the bytes of a sample lie. *)
Lemma sample_position (buffer : AudioBuffer) (i channel : nat) :
  (i < ab_length buffer)%nat -> (channel < numberOfChannels buffer)%nat ->
  bytes_at (wav_header buffer ++ pcm buffer)
    (44 + 2 * (i * numberOfChannels buffer + channel)) 2
  = sample_bytes buffer i channel.
Proof.
  intros Hi Hc. unfold bytes_at.
  rewrite skipn_app, skipn_all2 by (rewrite wav_header_length; lia).
  rewrite wav_header_length. cbn [app].
  replace (44 + 2 * (i * numberOfChannels buffer + channel) - 44)%nat
    with (2 * channel + 2 * numberOfChannels buffer * i)%nat by lia.
  rewrite <- skipn_skipn.
  destruct (flat_map_block (frame_bytes buffer)
              (2 * numberOfChannels buffer) (frame_bytes_length buffer)
              i (seq 0 (ab_length buffer)) i (seq_nth_error _ _ Hi))
    as (rest1 & Hframe).
  fold (pcm buffer) in Hframe. rewrite Hframe.
  rewrite skipn_app.
  destruct (flat_map_block (sample_bytes buffer i) 2
              (sample_bytes_length buffer i)
              channel (seq 0 (numberOfChannels buffer)) channel
              (seq_nth_error _ _ Hc))
    as (rest2 & Hsample).
  fold (frame_bytes buffer i) in Hsample. rewrite Hsample.
  rewrite <- app_assoc, firstn_app, sample_bytes_length.
  rewrite firstn_all2 by (rewrite sample_bytes_length; lia).
  change (2 - 2)%nat with 0%nat. cbn [firstn]. apply app_nil_r.
Qed.

Lemma truncate_range (x : Q) (lo hi : Z) :
  (lo <= 0 <= hi)%Z -> inject_Z lo <= x -> x <= inject_Z hi ->
  (lo <= truncate x <= hi)%Z.
Proof.
  intros Hz Hlo Hhi. unfold truncate.
  destruct (Qle_bool 0 x) eqn:E.
  - apply Qle_bool_iff in E. split.
    + apply Z.le_trans with 0%Z; [lia|].
      rewrite <- (Qfloor_Z 0). now apply Qfloor_resp_le.
    + rewrite <- (Qfloor_Z hi). now apply Qfloor_resp_le.
  - assert (Hneg : x < 0).
    { apply Qnot_le_lt. intros H. apply Qle_bool_iff in H. congruence. }
    split.
    + rewrite <- (Qceiling_Z lo). now apply Qceiling_resp_le.
    + apply Z.le_trans with 0%Z; [|lia].
      rewrite <- (Qceiling_Z 0). apply Qceiling_resp_le.
      now apply Qlt_le_weak.
Qed.

Lemma truncate_sign (x : Q) :
  (0 <= x -> (0 <= truncate x)%Z) /\ (x <= 0 -> (truncate x <= 0)%Z).
Proof.
  unfold truncate. destruct (Qle_bool 0 x) eqn:E.
  - apply Qle_bool_iff in E. split; intros H.
    + rewrite <- (Qfloor_Z 0). now apply Qfloor_resp_le.
    + rewrite <- (Qfloor_Z 0). now apply Qfloor_resp_le.
  - assert (Hneg : x < 0).
    { apply Qnot_le_lt. intros H. apply Qle_bool_iff in H. congruence. }
    split; intros H.
    + exfalso. apply (Qlt_irrefl 0). eapply Qle_lt_trans; eauto.
    + rewrite <- (Qceiling_Z 0). now apply Qceiling_resp_le.
Qed.

(** The clipped sample, and how it is scaled. *)
Lemma int16Sample_cases (s : Q) :
  let sample := Qmax (-1) (Qmin 1 s) in
  -1 <= sample /\ sample <= 1 /\
  (1 <= s -> sample == 1) /\ (s <= -1 -> sample == -1) /\
  (0 <= s -> 0 <= sample) /\ (s <= 0 -> sample <= 0) /\
  ((sample < 0 /\ int16Sample s = sample * 32768) \/
   (0 <= sample /\ int16Sample s = sample * 32767)).
Proof.
  intros sample.
  assert (Hlo : -1 <= sample) by apply Q.le_max_l.
  assert (Hhi : sample <= 1).
  { apply Q.max_lub; [lra | apply Q.le_min_l]. }
  repeat split; auto.
  - intros H. unfold sample. rewrite Q.min_l by exact H.
    apply Q.max_r. lra.
  - intros H. unfold sample. apply Q.max_l.
    eapply Qle_trans; [apply Q.le_min_r | exact H].
  - intros H. unfold sample.
    eapply Qle_trans; [|apply Q.le_max_r]. apply Q.min_glb; lra.
  - intros H. unfold sample. apply Q.max_lub; [lra|].
    eapply Qle_trans; [apply Q.le_min_r | exact H].
  - unfold int16Sample. fold sample.
    destruct (Qltb sample 0) eqn:E.
    + left. split; [now apply Qltb_lt | reflexivity].
    + right. split; [now apply Qltb_ge | reflexivity].
Qed.

Lemma int16_round_trip (t : Z) :
  (-32768 <= t <= 32767)%Z ->
  (let n := (t mod 65536)%Z in if (n <? 32768)%Z then n else (n - 65536)%Z)
  = t.
Proof.
  intros Ht. cbv zeta.
  destruct (Z.ltb_spec (t mod 65536) 32768) as [H|H].
  - destruct (Z.le_gt_cases 0 t) as [Hpos|Hneg].
    + apply Z.mod_small. lia.
    + replace t with (t + 65536 + (-1) * 65536)%Z in H by lia.
      rewrite Z.mod_add, Z.mod_small in H by lia. lia.
  - destruct (Z.le_gt_cases 0 t) as [Hpos|Hneg].
    + rewrite Z.mod_small in H by lia. lia.
    + replace t with (t + 65536 + (-1) * 65536)%Z at 1 by lia.
      rewrite Z.mod_add, Z.mod_small by lia. lia.
Qed.

(** X28: a sample of the recording is stored at its place in the file as
    a 16-bit integer, clipped and not wrapped: a reader gets the scaled
    sample with its fraction dropped, never outside -32768 .. 32767,
    with the sign of the sample; a sample of 1 or more reads as 32767
    and one of -1 or less as -32768. *)
Theorem wav_samples_are_clipped (buffer : AudioBuffer) (i channel : nat) :
  (i < ab_length buffer)%nat -> (channel < numberOfChannels buffer)%nat ->
  exists out,
    audioBufferToWav buffer = Ok out /\
    let s := getChannelData buffer channel i in
    let stored :=
      getInt16 out (44 + 2 * (i * numberOfChannels buffer + channel)) in
    stored = truncate (int16Sample s) /\
    (-32768 <= stored <= 32767)%Z /\
    (1 <= s -> stored = 32767%Z) /\
    (s <= -1 -> stored = (-32768)%Z) /\
    (0 <= s -> (0 <= stored)%Z) /\
    (s <= 0 -> (stored <= 0)%Z).
Proof.
  intros Hi Hc. exists (wav_header buffer ++ pcm buffer).
  split; [apply audioBufferToWav_layout|].
  intros s stored.
  destruct (int16Sample_cases s)
    as (Hlo & Hhi & Hone & Hminus & Hpos & Hneg & Hscale).
  set (sample := Qmax (-1) (Qmin 1 s)) in *.
  assert (Hq : inject_Z (-32768) <= int16Sample s /\
               int16Sample s <= inject_Z 32767).
  { change (inject_Z (-32768)) with (-32768).
    change (inject_Z 32767) with 32767.
    destruct Hscale as [[Hs ->]|[Hs ->]]; split; lra. }
  pose proof (truncate_range (int16Sample s) (-32768) 32767
                ltac:(lia) (proj1 Hq) (proj2 Hq)) as Hrange.
  assert (Hstored : stored = truncate (int16Sample s)).
  { unfold stored, getInt16, getUint16.
    rewrite (sample_position buffer i channel Hi Hc).
    unfold sample_bytes. fold s. rewrite stored_is_read.
    unfold to_uint. change (2 ^ (8 * Z.of_nat 2))%Z with 65536%Z.
    now apply int16_round_trip. }
  rewrite Hstored. split; [reflexivity|]. split; [exact Hrange|].
  repeat split.
  - intros H. specialize (Hone H).
    destruct Hscale as [[Hs _]|[_ ->]]; [lra|].
    rewrite (truncate_comp _ (inject_Z 32767)); [apply truncate_Z|].
    rewrite Hone. reflexivity.
  - intros H. specialize (Hminus H).
    destruct Hscale as [[_ ->]|[Hs _]]; [|lra].
    rewrite (truncate_comp _ (inject_Z (-32768))); [apply truncate_Z|].
    rewrite Hminus. reflexivity.
  - intros H. specialize (Hpos H). apply truncate_sign.
    destruct Hscale as [[Hs _]|[_ ->]]; lra.
  - intros H. specialize (Hneg H). apply truncate_sign.
    destruct Hscale as [[_ ->]|[_ ->]]; lra.
Qed.

Lemma wav_samples_are_clipped_witness :
  (0 < ab_length WavExample.clip)%nat /\
  (1 < numberOfChannels WavExample.clip)%nat /\
  exists out,
    audioBufferToWav WavExample.clip = Ok out /\
    getInt16 out 46 = 32767%Z.
Proof.
  split; [simpl; lia|]. split; [simpl; lia|].
  destruct (wav_samples_are_clipped WavExample.clip 0 1)
    as (out & Hout & _ & _ & Hone & _); [simpl; lia | simpl; lia |].
  exists out. split; [exact Hout|].
  apply Hone. cbn. discriminate.
Defined.
